(** * glosm TileManager: quadtree of tiles, load queue and generational collection

    A shallow embedding of [src/libglosm-client/src/TileManager.cc].

    Conventions of the embedding.
    - C++ [int] values (levels, tile coordinates, [queue_size], flags) are
      integers of [Z]; the walk only doubles coordinates along a path of at
      most [hires_level_] steps, so for levels up to 30 no value leaves the
      range of a 32-bit [int].
    - [float] values (squared distances, ranges) are the rationals they
      denote, compared with the order of [Q]; the one product the code
      forms, [hires_range_ * hires_range_], is exact for the range of 10000
      the constructor sets.
    - A [QuadNode*] is an [option QuadNode]; [NULL] is [None].  The tree is
      exclusively owned, so a node is a value and an update returns the new
      node.
    - [std::deque<TileTask>] is a list, front first: [push_front] is cons,
      [push_back] appends at the end.
    - The mutexes only serialise the calls; each public operation is modelled
      as one atomic step on the manager's state.
    - [RecLoadTiles] recurses on the level, not on the tree; its model takes
      a bound [fuel] on the depth of the recursion and returns [None] when
      the bound is reached.  [LoadLocality_returns] shows that a bound above
      [hires_level_] is never reached.
    - [delete tile] and [tile->Render()] act on objects outside the tree: the
      models of [RecDestroyTiles], of the sweep and of [RecRenderTiles] give
      the tiles deleted or drawn, in the order of the calls.
    - The loading thread works in critical sections: it takes a task off the
      queue under [queue_mutex_], places the tile under [tiles_mutex_] and
      resets [loading_] under [queue_mutex_] again.  [Dequeue] and
      [PlaceTile] are the first two; [LoadingIteration] is the three in a
      row, with no call of the main thread in between. *)

From Stdlib Require Import ZArith QArith List Bool Lia Permutation.
From Stdlib Require String.
Import ListNotations.

Set Warnings "-register-all".

Local Open Scope Z_scope.

(** ** Collaborators

    The geometry types and the tile payload are declared in headers that are
    not part of this file's sources ([glosm/Geometry.hh], [glosm/Tile.hh],
    [glosm/Viewer.hh]); the tile manager only calls the operations below, and
    everything is stated for an arbitrary implementation of them. *)

Class Collaborators : Type := {
  BBoxi : Type;
  Vector3i : Type;
  Vector2i : Type;
  Tile : Type;
  (** [BBoxi::ForGeoTile(level, x, y)] *)
  ForGeoTile : Z -> Z -> Z -> BBoxi;
  (** [Vector3i::Flattened()] *)
  Flattened : Vector3i -> Vector2i;
  (** [ApproxDistanceSquare(bbox, point)] *)
  ApproxDistanceSquare : BBoxi -> Vector2i -> Q;
  (** the [SYNC] bit of the loading flags *)
  SYNC : Z
}.

(** Comparison of two [float]s, as booleans. *)
Definition Qltb (a b : Q) : bool := negb (Qle_bool b a).
Definition Qgtb (a b : Q) : bool := Qltb b a.

(** ** TileId *)

Record TileId : Type := mkTileId { id_level : Z; id_x : Z; id_y : Z }.

(** [TileId::operator==], and [operator!=] as its negation: all three
    fields are compared (section 3 of the spec; the class is declared in a
    header outside the sources). *)
Definition TileId_eqb (a b : TileId) : bool :=
  (id_level a =? id_level b) && (id_x a =? id_x b) && (id_y a =? id_y b).

(** The value [loading_] holds while the worker loads nothing. *)
Definition no_tile : TileId := mkTileId (-1) (-1) (-1).

Section TileManager.

Context `{Collab : Collaborators}.

(** ** TileTask, QuadNode *)

Record TileTask : Type := mkTileTask { task_id : TileId; task_bbox : BBoxi }.

Inductive QuadNode : Type := mkQuadNode {
  bbox : BBoxi;
  tile : option Tile;
  generation : Z;
  child0 : option QuadNode;
  child1 : option QuadNode;
  child2 : option QuadNode;
  child3 : option QuadNode
}.

(** [node->childs[i]] for [i] in 0..3. *)
Definition childs (node : QuadNode) (i : Z) : option QuadNode :=
  match i with
  | 0 => child0 node
  | 1 => child1 node
  | 2 => child2 node
  | 3 => child3 node
  | _ => None
  end.

(** [node->childs[i] = c] for [i] in 0..3. *)
Definition set_child (node : QuadNode) (i : Z) (c : option QuadNode) : QuadNode :=
  match node with
  | mkQuadNode b t g c0 c1 c2 c3 =>
    match i with
    | 0 => mkQuadNode b t g c c1 c2 c3
    | 1 => mkQuadNode b t g c0 c c2 c3
    | 2 => mkQuadNode b t g c0 c1 c c3
    | 3 => mkQuadNode b t g c0 c1 c2 c
    | _ => node
    end
  end.

Definition set_tile (node : QuadNode) (t : option Tile) : QuadNode :=
  match node with
  | mkQuadNode b _ g c0 c1 c2 c3 => mkQuadNode b t g c0 c1 c2 c3
  end.

Definition set_generation (node : QuadNode) (g : Z) : QuadNode :=
  match node with
  | mkQuadNode b t _ c0 c1 c2 c3 => mkQuadNode b t g c0 c1 c2 c3
  end.

(** [new QuadNode] followed by [node->bbox = bbox]: no tile, no child.  The
    stamp the constructor leaves is overwritten in the same visit
    ([node->generation = generation_]), so it is given by the caller. *)
Definition new_QuadNode (b : BBoxi) (g : Z) : QuadNode :=
  mkQuadNode b None g None None None None.

(** Induction over a node and the nodes below it. *)
Section QuadNode_induction.
Variable P : QuadNode -> Prop.

Definition below (o : option QuadNode) : Prop :=
  match o with
  | None => True
  | Some c => P c
  end.

Hypothesis step : forall b t g c0 c1 c2 c3,
  below c0 -> below c1 -> below c2 -> below c3 ->
  P (mkQuadNode b t g c0 c1 c2 c3).

Fixpoint QuadNode_rect_below (node : QuadNode) : P node :=
  match node with
  | mkQuadNode b t g c0 c1 c2 c3 =>
    let sub (o : option QuadNode) : below o :=
      match o as o' return below o' with
      | None => I
      | Some c => QuadNode_rect_below c
      end in
    step b t g c0 c1 c2 c3 (sub c0) (sub c1) (sub c2) (sub c3)
  end.
End QuadNode_induction.

(** The node a sequence of child indices leads to, from [node] down. *)
Fixpoint descend (node : QuadNode) (path : list Z) : option QuadNode :=
  match path with
  | [] => Some node
  | i :: rest =>
    match childs node i with
    | None => None
    | Some c => descend c rest
    end
  end.

(** The same from a pointer, [NULL] leading nowhere. *)
Definition descend_ptr (o : option QuadNode) (path : list Z) : option QuadNode :=
  match o with
  | None => None
  | Some node => descend node path
  end.

(** What a node holds itself, its child pointers apart. *)
Definition payload (node : QuadNode) : BBoxi * option Tile * Z :=
  (bbox node, tile node, generation node).

(** ** RecPlaceTile (lines 142-163) *)

(** What became of the tile handed to [RecPlaceTile]. *)
Inductive PlaceOutcome : Type :=
| Attached   (** [node->tile = tile] *)
| Deleted.   (** [delete tile] *)

(** [int nchild = (!!(y & mask) << 1) | !!(x & mask)] with
    [mask = 1 << (level-1)]. *)
Definition nchild (level x y : Z) : Z :=
  let mask := Z.shiftl 1 (level - 1) in
  Z.lor (Z.shiftl (Z.b2z (negb (Z.land y mask =? 0))) 1)
        (Z.b2z (negb (Z.land x mask =? 0))).

(** The body of [RecPlaceTile] for a node that is not [NULL].  The recursion
    follows the tree: each call descends into one child. *)
Fixpoint RecPlaceTile_node (node : QuadNode) (t : Tile) (level x y : Z)
  : QuadNode * PlaceOutcome :=
  match node with
  | mkQuadNode b tl g c0 c1 c2 c3 =>
    if level =? 0 then
      match tl with
      | Some _ => (node, Deleted)
      | None => (mkQuadNode b (Some t) g c0 c1 c2 c3, Attached)
      end
    else
      let rec_child (c : option QuadNode) : option QuadNode * PlaceOutcome :=
        match c with
        | None => (None, Deleted)
        | Some n =>
          let (n', o) := RecPlaceTile_node n t (level - 1) x y in (Some n', o)
        end in
      match nchild level x y with
      | 0 => let (c, o) := rec_child c0 in (mkQuadNode b tl g c c1 c2 c3, o)
      | 1 => let (c, o) := rec_child c1 in (mkQuadNode b tl g c0 c c2 c3, o)
      | 2 => let (c, o) := rec_child c2 in (mkQuadNode b tl g c0 c1 c c3, o)
      | 3 => let (c, o) := rec_child c3 in (mkQuadNode b tl g c0 c1 c2 c, o)
      | _ => (node, Deleted)
      end
  end.

Definition RecPlaceTile (node : option QuadNode) (t : Tile) (level x y : Z)
  : option QuadNode * PlaceOutcome :=
  match node with
  | None => (None, Deleted)
  | Some n =>
    let (n', o) := RecPlaceTile_node n t level x y in (Some n', o)
  end.

(** The child indices [RecPlaceTile] takes for [(level, x, y)], root first. *)
Fixpoint place_path (level : nat) (x y : Z) : list Z :=
  match level with
  | O => []
  | S level' => nchild (Z.of_nat level) x y :: place_path level' x y
  end.

(** ** Quadrant refinement of the wanted-set walk (lines 134-137) *)

(** The tile that child [i] of the node of tile [(level, x, y)] stands for. *)
Definition quadrant (id : TileId) (i : Z) : TileId :=
  match id with
  | mkTileId level x y =>
    match i with
    | 0 => mkTileId (level + 1) (x * 2) (y * 2)
    | 1 => mkTileId (level + 1) (x * 2 + 1) (y * 2)
    | 2 => mkTileId (level + 1) (x * 2) (y * 2 + 1)
    | _ => mkTileId (level + 1) (x * 2 + 1) (y * 2 + 1)
    end
  end.

(** The tile a path of child indices leads to, retraced from the tile [id]. *)
Definition retrace_from (id : TileId) (path : list Z) : TileId :=
  fold_left quadrant path id.

Definition retrace (path : list Z) : TileId :=
  retrace_from (mkTileId 0 0 0) path.

(** ** Garbage collection (lines 165-193) *)

(** Number of nodes of a subtree: what [RecDestroyTiles] followed by
    [delete] frees when it is given the subtree's root. *)
Fixpoint node_count (node : QuadNode) : nat :=
  match node with
  | mkQuadNode _ _ _ c0 c1 c2 c3 =>
    let count (c : option QuadNode) : nat :=
      match c with
      | None => O
      | Some n => node_count n
      end in
    S (count c0 + count c1 + count c2 + count c3)
  end.

(** [RecGarbageCollectTiles(node)] for the counter value [generation_]: the
    loop over the four child slots.  A child with another stamp is destroyed
    with everything below it and its slot is set to [NULL]; a child with the
    current stamp is kept and collected in turn. *)
Fixpoint RecGarbageCollectTiles (generation_ : Z) (node : QuadNode) : QuadNode :=
  match node with
  | mkQuadNode b t g c0 c1 c2 c3 =>
    let collect (c : option QuadNode) : option QuadNode :=
      match c with
      | None => None
      | Some n =>
        if negb (generation n =? generation_) then None
        else Some (RecGarbageCollectTiles generation_ n)
      end in
    mkQuadNode b t g (collect c0) (collect c1) (collect c2) (collect c3)
  end.

(** Modelled from the spec: the type of the generation counter and of a
    node's stamp, declared in [TileManager.hh]; section 3 of the spec gives
    an unsigned 64-bit integer, so [generation_++] wraps at 2^64. *)
Definition generation_incr (g : Z) : Z := (g + 1) mod 2 ^ 64.

(** ** The manager's state *)

Record TileManager : Type := mkTileManager {
  generation_ : Z;
  root_ : QuadNode;
  queue_ : list TileTask;
  loading_ : TileId;
  lowres_level_ : Z;
  hires_level_ : Z;
  lowres_range_ : Q;
  hires_range_ : Q
}.

(** The constructor (lines 31-62).  [root_] is built by [QuadNode]'s own
    constructor, which [TileManager.hh] declares; its result is the argument
    [root]. *)
Definition TileManager_new (root : QuadNode) : TileManager :=
  {| generation_ := 0;
     root_ := root;
     queue_ := [];
     loading_ := no_tile;
     lowres_level_ := 8;
     hires_level_ := 13;
     lowres_range_ := 1000000 # 1;
     hires_range_ := 10000 # 1 |}.

Definition set_root (this : TileManager) (r : QuadNode) : TileManager :=
  {| generation_ := generation_ this;
     root_ := r;
     queue_ := queue_ this;
     loading_ := loading_ this;
     lowres_level_ := lowres_level_ this;
     hires_level_ := hires_level_ this;
     lowres_range_ := lowres_range_ this;
     hires_range_ := hires_range_ this |}.

Definition set_queue (this : TileManager) (q : list TileTask) : TileManager :=
  {| generation_ := generation_ this;
     root_ := root_ this;
     queue_ := q;
     loading_ := loading_ this;
     lowres_level_ := lowres_level_ this;
     hires_level_ := hires_level_ this;
     lowres_range_ := lowres_range_ this;
     hires_range_ := hires_range_ this |}.

Definition set_generation_ (this : TileManager) (g : Z) : TileManager :=
  {| generation_ := g;
     root_ := root_ this;
     queue_ := queue_ this;
     loading_ := loading_ this;
     lowres_level_ := lowres_level_ this;
     hires_level_ := hires_level_ this;
     lowres_range_ := lowres_range_ this;
     hires_range_ := hires_range_ this |}.

(** [GarbageCollect] (lines 350-355): the sweep starts at [&root_] and the
    counter is incremented afterwards. *)
Definition GarbageCollect (this : TileManager) : TileManager :=
  set_generation_
    (set_root this (RecGarbageCollectTiles (generation_ this) (root_ this)))
    (generation_incr (generation_ this)).

(** The worker's placement step (line 282):
    [RecPlaceTile(&root_, tile, task.id.level, task.id.x, task.id.y)]. *)
Definition PlaceTile (this : TileManager) (t : Tile) (id : TileId)
  : TileManager * PlaceOutcome :=
  let (r, o) := RecPlaceTile_node (root_ this) t (id_level id) (id_x id) (id_y id) in
  (set_root this r, o).

(** ** The wanted-set walk (lines 83-140) *)

(** [RecLoadTilesInfo]: the fields the walk reads and writes. *)
Record RecLoadTilesInfo : Type := mkRecLoadTilesInfo {
  viewer_pos : Vector3i;
  closest_distance : Q;
  queue_size : Z
}.

Definition set_closest_distance (info : RecLoadTilesInfo) (d : Q) : RecLoadTilesInfo :=
  mkRecLoadTilesInfo (viewer_pos info) d (queue_size info).

(** [info.queue_size++] *)
Definition incr_queue_size (info : RecLoadTilesInfo) : RecLoadTilesInfo :=
  mkRecLoadTilesInfo (viewer_pos info) (closest_distance info) (queue_size info + 1).

(** What one call of [RecLoadTiles] leaves behind: the info record, the
    queue, and the pointer stored at [*pnode]. *)
Record Walk : Type := mkWalk {
  w_info : RecLoadTilesInfo;
  w_queue : list TileTask;
  w_node : option QuadNode
}.

(** [RecLoadTiles(info, pnode, level, x, y)] on the manager [this].  The
    C++ recursion ends at [level == hires_level_] or at a node out of range;
    [fuel] bounds its depth, and [None] says the bound was reached. *)
Fixpoint RecLoadTiles (fuel : nat) (this : TileManager)
    (info : RecLoadTilesInfo) (queue : list TileTask)
    (pnode : option QuadNode) (level x y : Z) : option Walk :=
  match fuel with
  | O => None
  | S fuel' =>
    let hires2 := (hires_range_ this * hires_range_ this)%Q in
    (* lines 87-101: the node to visit and its distance, or return *)
    let visited : option (QuadNode * Q) :=
      match pnode with
      | None =>
        let bbox := ForGeoTile level x y in
        let thisdist := ApproxDistanceSquare bbox (Flattened (viewer_pos info)) in
        if Qgtb thisdist hires2 then None
        else Some (new_QuadNode bbox (generation_ this), thisdist)
      | Some node =>
        let thisdist := ApproxDistanceSquare (bbox node) (Flattened (viewer_pos info)) in
        if Qgtb thisdist hires2 then None
        else Some (node, thisdist)
      end in
    match visited with
    | None => Some (mkWalk info queue pnode)
    | Some (node, thisdist) =>
      (* line 104 *)
      let node := set_generation node (generation_ this) in
      if level =? hires_level_ this then
        match tile node with
        | Some _ => Some (mkWalk info queue (Some node))
        | None =>
          let task := mkTileTask (mkTileId level x y) (bbox node) in
          if negb (TileId_eqb (loading_ this) (mkTileId level x y)) then
            match queue with
            | [] =>
              Some (mkWalk (incr_queue_size (set_closest_distance info thisdist))
                           (task :: queue) (Some node))
            | _ :: _ =>
              if Qltb thisdist (closest_distance info) then
                Some (mkWalk (incr_queue_size (set_closest_distance info thisdist))
                             (task :: queue) (Some node))
              else if queue_size info <? 100 then
                Some (mkWalk (incr_queue_size info) (queue ++ [task]) (Some node))
              else
                Some (mkWalk info queue (Some node))
            end
          else Some (mkWalk info queue (Some node))
        end
      else
        (* lines 134-137 *)
        match RecLoadTiles fuel' this info queue (child0 node)
                (level + 1) (x * 2) (y * 2) with
        | None => None
        | Some w0 =>
          let node := set_child node 0 (w_node w0) in
          match RecLoadTiles fuel' this (w_info w0) (w_queue w0) (child1 node)
                  (level + 1) (x * 2 + 1) (y * 2) with
          | None => None
          | Some w1 =>
            let node := set_child node 1 (w_node w1) in
            match RecLoadTiles fuel' this (w_info w1) (w_queue w1) (child2 node)
                    (level + 1) (x * 2) (y * 2 + 1) with
            | None => None
            | Some w2 =>
              let node := set_child node 2 (w_node w2) in
              match RecLoadTiles fuel' this (w_info w2) (w_queue w2) (child3 node)
                      (level + 1) (x * 2 + 1) (y * 2 + 1) with
              | None => None
              | Some w3 =>
                let node := set_child node 3 (w_node w3) in
                Some (mkWalk (w_info w3) (w_queue w3) (Some node))
              end
            end
          end
        end
    end
  end.

(** Modelled from the spec: the constructor of [RecLoadTilesInfo], declared
    in [TileManager.hh].  The number of tasks enqueued so far in the walk
    (spec section 4.4) starts at 0; [closest_distance] is first written when
    the queue is found empty, and [uninit] is the value the field holds
    before that. *)
Definition RecLoadTilesInfo_new (pos : Vector3i) (uninit : Q) : RecLoadTilesInfo :=
  mkRecLoadTilesInfo pos uninit 0.

(** What [LoadLocality] leaves behind: the manager, and whether
    [pthread_cond_signal(&queue_cond_)] was called. *)
Record Loaded : Type := mkLoaded {
  l_manager : TileManager;
  l_signalled : bool
}.

(** [LoadLocality(viewer, flags)] (lines 326-348), for a viewer at
    [viewer.GetPos(projection_) = pos].  The walk starts at [&root_] with
    the default arguments [level = 0], [x = 0], [y = 0]; the pointer it is
    given is never [NULL], and neither is the one it leaves
    ([walk_keeps_node]). *)
Definition LoadLocality (fuel : nat) (this : TileManager) (pos : Vector3i)
    (flags : Z) (uninit : Q) : option Loaded :=
  let sync := negb (Z.land flags SYNC =? 0) in
  let this := if negb sync then set_queue this [] else this in
  let info := RecLoadTilesInfo_new pos uninit in
  match RecLoadTiles fuel this info (queue_ this) (Some (root_ this)) 0 0 0 with
  | None => None
  | Some w =>
    let root := match w_node w with
                | Some r => r
                | None => root_ this
                end in
    let this := set_queue (set_root this root) (w_queue w) in
    if negb sync then
      Some (mkLoaded this (negb (match queue_ this with [] => true | _ => false end)))
    else
      Some (mkLoaded this false)
  end.

(** The distance the walk computes for a box, and the threshold it is
    compared with. *)
Definition thisdist_of (pos : Vector3i) (b : BBoxi) : Q :=
  ApproxDistanceSquare b (Flattened pos).

Definition hires_range2 (this : TileManager) : Q :=
  (hires_range_ this * hires_range_ this)%Q.

(** ** The walk, piece by piece

    The pieces of one call of [RecLoadTiles], named so that the properties
    below can speak of them; [RecLoadTiles_unfold] shows that the function
    is made of exactly these. *)

(** The call for the tile [id]. *)
Definition walk_at (fuel : nat) (this : TileManager) (info : RecLoadTilesInfo)
    (queue : list TileTask) (pnode : option QuadNode) (id : TileId) : option Walk :=
  RecLoadTiles fuel this info queue pnode (id_level id) (id_x id) (id_y id).

(** The box whose distance is tested (lines 89 and 98): the node's own, or
    the tile's when there is no node. *)
Definition box_of (pnode : option QuadNode) (id : TileId) : BBoxi :=
  match pnode with
  | Some node => bbox node
  | None => ForGeoTile (id_level id) (id_x id) (id_y id)
  end.

(** The node after the range check has passed (lines 93-94, 97, 104). *)
Definition visited_node (this : TileManager) (pnode : option QuadNode)
    (id : TileId) : QuadNode :=
  set_generation
    match pnode with
    | Some node => node
    | None => new_QuadNode (box_of None id) (generation_ this)
    end
    (generation_ this).

(** The visit of a node at [hires_level_] (lines 107-130). *)
Definition leaf_visit (this : TileManager) (info : RecLoadTilesInfo)
    (queue : list TileTask) (node : QuadNode) (thisdist : Q) (id : TileId) : Walk :=
  match tile node with
  | Some _ => mkWalk info queue (Some node)
  | None =>
    let task := mkTileTask id (bbox node) in
    if negb (TileId_eqb (loading_ this) id) then
      match queue with
      | [] =>
        mkWalk (incr_queue_size (set_closest_distance info thisdist))
               (task :: queue) (Some node)
      | _ :: _ =>
        if Qltb thisdist (closest_distance info) then
          mkWalk (incr_queue_size (set_closest_distance info thisdist))
                 (task :: queue) (Some node)
        else if queue_size info <? 100 then
          mkWalk (incr_queue_size info) (queue ++ [task]) (Some node)
        else
          mkWalk info queue (Some node)
      end
    else mkWalk info queue (Some node)
  end.

(** The four recursive calls (lines 134-137), each on the state the one
    before left. *)
Definition visit_child (fuel : nat) (this : TileManager) (id : TileId)
    (acc : option (Walk * QuadNode)) (i : Z) : option (Walk * QuadNode) :=
  match acc with
  | None => None
  | Some (w, node) =>
    match walk_at fuel this (w_info w) (w_queue w) (childs node i) (quadrant id i) with
    | None => None
    | Some w' => Some (w', set_child node i (w_node w'))
    end
  end.

Definition visit_childs (fuel : nat) (this : TileManager) (info : RecLoadTilesInfo)
    (queue : list TileTask) (node : QuadNode) (id : TileId) : option Walk :=
  match fold_left (visit_child fuel this id) [0; 1; 2; 3]
          (Some (mkWalk info queue None, node)) with
  | None => None
  | Some (w, node') => Some (mkWalk (w_info w) (w_queue w) (Some node'))
  end.

Definition childs_ptr (pnode : option QuadNode) (i : Z) : option QuadNode :=
  match pnode with
  | None => None
  | Some node => childs node i
  end.

Definition tile_ptr (pnode : option QuadNode) : option Tile :=
  match pnode with
  | None => None
  | Some node => tile node
  end.

(** ** The calls within a walk (lines 134-137)

    One call of [RecLoadTiles]: the depth of recursion left to it, the info
    record and the queue as it finds them, the pointer and the tile it is
    given. *)
Record Visit : Type := mkVisit {
  v_fuel : nat;
  v_info : RecLoadTilesInfo;
  v_queue : list TileTask;
  v_pnode : option QuadNode;
  v_id : TileId
}.

(** What the call leaves. *)
Definition returned (this : TileManager) (v : Visit) : option Walk :=
  walk_at (v_fuel v) this (v_info v) (v_queue v) (v_pnode v) (v_id v).

(** The recursive call the call [v] makes for its child [i] (lines
    134-137), or [None] when it makes none: [v] returns at the range check
    or at [hires_level_], or [i] is not one of 0..3.  The call for a child
    finds the info record and the queue as the calls for the children before
    it left them. *)
Definition child_call (this : TileManager) (v : Visit) (i : Z) : option Visit :=
  match v_fuel v with
  | O => None
  | S fuel' =>
    if Qgtb (thisdist_of (viewer_pos (v_info v)) (box_of (v_pnode v) (v_id v)))
            (hires_range2 this)
    then None
    else if id_level (v_id v) =? hires_level_ this then None
    else if (0 <=? i) && (i <? 4) then
      match fold_left (visit_child fuel' this (v_id v))
              (firstn (Z.to_nat i) [0; 1; 2; 3])
              (Some (mkWalk (v_info v) (v_queue v) None,
                     visited_node this (v_pnode v) (v_id v))) with
      | None => None
      | Some (w, node) =>
        Some (mkVisit fuel' (w_info w) (w_queue w) (childs node i)
                (quadrant (v_id v) i))
      end
    else None
  end.

(** The call reached from [v] along [path], a list of child indices. *)
Fixpoint call_at (this : TileManager) (v : Visit) (path : list Z) : option Visit :=
  match path with
  | [] => Some v
  | i :: rest =>
    match child_call this v i with
    | None => None
    | Some v' => call_at this v' rest
    end
  end.

(** ** The tiles a walk asks for

    [wanted this pos pnode id path]: from the tile [id], whose node pointer
    is [pnode], the walk for a viewer at [pos] follows [path] down to a node
    at [hires_level_] that it would enqueue: every box on the way, the last
    included, passes the range check, the last node holds no tile (or does
    not exist yet), and its tile is not the one being loaded. *)
Fixpoint wanted (this : TileManager) (pos : Vector3i) (pnode : option QuadNode)
    (id : TileId) (path : list Z) : Prop :=
  (thisdist_of pos (box_of pnode id) <= hires_range2 this)%Q
  /\ match path with
     | [] =>
       id_level id = hires_level_ this
       /\ tile_ptr pnode = None
       /\ TileId_eqb (loading_ this) id = false
     | i :: rest =>
       id_level id <> hires_level_ this
       /\ 0 <= i <= 3
       /\ wanted this pos (childs_ptr pnode i) (quadrant id i) rest
     end.

(** The box the walk uses for the node at the end of [path]. *)
Fixpoint box_at (pnode : option QuadNode) (id : TileId) (path : list Z) : BBoxi :=
  match path with
  | [] => box_of pnode id
  | i :: rest => box_at (childs_ptr pnode i) (quadrant id i) rest
  end.

(** Every node below a pointer carries the box of the tile it stands for:
    what the walk establishes for the nodes it creates (line 94). *)
Definition well_addressed (pnode : option QuadNode) (id : TileId) : Prop :=
  forall path node,
    descend_ptr pnode path = Some node ->
    bbox node = ForGeoTile (id_level (retrace_from id path))
                           (id_x (retrace_from id path))
                           (id_y (retrace_from id path)).

(** The manager's tree is well addressed below the root; the root's own box
    comes from [QuadNode]'s constructor. *)
Definition well_formed (this : TileManager) : Prop :=
  forall i, well_addressed (childs (root_ this) i) (quadrant (mkTileId 0 0 0) i).

(** The slot-wise step of the sweep, as [RecGarbageCollectTiles] applies it
    to each of the four child pointers. *)
Definition collect_slot (g : Z) (c : option QuadNode) : option QuadNode :=
  match c with
  | None => None
  | Some n =>
    if negb (generation n =? g) then None
    else Some (RecGarbageCollectTiles g n)
  end.

(** Within a walk the queue only grows, at its two ends, [queue_size]
    counts what was added, and what was added at the back stays within the
    bound of 100 on [queue_size]. *)
Definition queue_grows (info : RecLoadTilesInfo) (queue : list TileTask)
    (w : Walk) : Prop :=
  exists front back,
    w_queue w = front ++ queue ++ back
    /\ queue_size (w_info w) = queue_size info + Z.of_nat (length front + length back)
    /\ viewer_pos (w_info w) = viewer_pos info
    /\ (back = [] \/ queue_size info + Z.of_nat (length back) <= 100).

(** What a call does to the tree below [*pnode], node by node: a node that
    was there keeps its box and its tile; a node that was not there is in
    range, carries the current stamp and the box of its tile, and holds no
    tile; and nothing that was there is gone. *)
Definition tree_grows (this : TileManager) (pos : Vector3i)
    (pnode : option QuadNode) (id : TileId) (pnode' : option QuadNode) : Prop :=
  (forall path node',
     descend_ptr pnode' path = Some node' ->
     match descend_ptr pnode path with
     | Some node => bbox node' = bbox node /\ tile node' = tile node
     | None =>
       (thisdist_of pos (bbox node') <= hires_range2 this)%Q
       /\ generation node' = generation_ this
       /\ bbox node' = box_of None (retrace_from id path)
       /\ tile node' = None
     end)
  /\ (forall path node,
        descend_ptr pnode path = Some node -> descend_ptr pnode' path <> None).

(** The task the walk makes for the node at the end of [path]. *)
Definition task_at (pnode : option QuadNode) (id : TileId) (path : list Z) : TileTask :=
  mkTileTask (retrace_from id path) (box_at pnode id path).

(** ** Tiles by their coordinates *)

(** An index into [childs]. *)
Definition valid_index (i : Z) : Prop := 0 <= i <= 3.

(** The tile of level [k] that contains the tile [id]. *)
Definition ancestor (id : TileId) (k : Z) : TileId :=
  mkTileId k (id_x id / 2 ^ (id_level id - k)) (id_y id / 2 ^ (id_level id - k)).

(** The box the manager uses for a tile: [ForGeoTile]'s, and for the tile of
    level 0 the box of [root_]. *)
Definition tile_box (this : TileManager) (id : TileId) : BBoxi :=
  if id_level id =? 0 then bbox (root_ this)
  else ForGeoTile (id_level id) (id_x id) (id_y id).

(** The tile passes the range check, and so does every tile above it. *)
Definition reachable (this : TileManager) (pos : Vector3i) (id : TileId) : Prop :=
  forall k, 0 <= k <= id_level id ->
    (thisdist_of pos (tile_box this (ancestor id k)) <= hires_range2 this)%Q.

(** The node [RecPlaceTile] would reach for [id] exists and holds a tile. *)
Definition resident (this : TileManager) (id : TileId) : Prop :=
  exists node t,
    descend (root_ this) (place_path (Z.to_nat (id_level id)) (id_x id) (id_y id))
    = Some node
    /\ tile node = Some t.

(** A tile of the level the walk loads, with coordinates in the grid. *)
Definition leaf_tile (this : TileManager) (id : TileId) : Prop :=
  id_level id = hires_level_ this
  /\ 0 <= id_x id < 2 ^ id_level id
  /\ 0 <= id_y id < 2 ^ id_level id.

(** ** The worker's dequeue step (lines 264-274)

    With an empty queue the worker waits; otherwise it takes the task at the
    front and records its id as the one being loaded. *)
Definition Dequeue (this : TileManager) : option (TileTask * TileManager) :=
  match queue_ this with
  | [] => None
  | task :: rest =>
    Some (task,
          {| generation_ := generation_ this;
             root_ := root_ this;
             queue_ := rest;
             loading_ := task_id task;
             lowres_level_ := lowres_level_ this;
             hires_level_ := hires_level_ this;
             lowres_range_ := lowres_range_ this;
             hires_range_ := hires_range_ this |})
  end.

(** ** RecDestroyTiles (lines 165-176)

    The tiles [RecDestroyTiles(node)] deletes, in the order of its [delete]
    calls: the node's own tile, then, child by child, what the call on the
    child deletes.  The nodes it frees ([delete node->childs[i]]) are the
    nodes below [node]; with the [delete] its caller adds for the node
    itself that is [node_count node] nodes. *)
Fixpoint RecDestroyTiles (node : QuadNode) : list Tile :=
  match node with
  | mkQuadNode _ t _ c0 c1 c2 c3 =>
    let destroy (c : option QuadNode) : list Tile :=
      match c with
      | None => []
      | Some n => RecDestroyTiles n
      end in
    match t with
    | Some x => [x]
    | None => []
    end ++ destroy c0 ++ destroy c1 ++ destroy c2 ++ destroy c3
  end.

(** The tiles the sweep [RecGarbageCollectTiles(node)] deletes (lines
    185-188: [RecDestroyTiles] on each child with another stamp), in order. *)
Fixpoint RecGarbageCollectTiles_deleted (generation_ : Z) (node : QuadNode)
  : list Tile :=
  match node with
  | mkQuadNode _ _ _ c0 c1 c2 c3 =>
    let collect (c : option QuadNode) : list Tile :=
      match c with
      | None => []
      | Some n =>
        if negb (generation n =? generation_) then RecDestroyTiles n
        else RecGarbageCollectTiles_deleted generation_ n
      end in
    collect c0 ++ collect c1 ++ collect c2 ++ collect c3
  end.

(** The nodes the sweep frees: for each child with another stamp, the child
    and every node below it. *)
Fixpoint RecGarbageCollectTiles_freed (generation_ : Z) (node : QuadNode) : nat :=
  match node with
  | mkQuadNode _ _ _ c0 c1 c2 c3 =>
    let collect (c : option QuadNode) : nat :=
      match c with
      | None => O
      | Some n =>
        if negb (generation n =? generation_) then node_count n
        else RecGarbageCollectTiles_freed generation_ n
      end in
    (collect c0 + collect c1 + collect c2 + collect c3)%nat
  end.

(** Every node on [path] below [node] - [node] itself apart - carries the
    stamp [g]. *)
Fixpoint marked_below (g : Z) (node : QuadNode) (path : list Z) : Prop :=
  match path with
  | [] => True
  | i :: rest =>
    match childs node i with
    | None => False
    | Some c => generation c = g /\ marked_below g c rest
    end
  end.

(** ** RecRenderTiles and Render (lines 195-254, 313-317)

    The tiles whose [Render()] is called, in the order of the calls: a node
    that is [NULL] or carries another stamp than [generation_] is skipped
    with everything below it; otherwise the four children come first and the
    node's own tile last.  The matrix set up around each call (lines
    205-247) is computed from the tile and the viewer alone and touches
    neither the tree nor the order of the calls; it is left out. *)
Fixpoint RecRenderTiles (generation_ : Z) (node : QuadNode) : list Tile :=
  match node with
  | mkQuadNode _ t g c0 c1 c2 c3 =>
    if negb (g =? generation_) then []
    else
      let render (c : option QuadNode) : list Tile :=
        match c with
        | None => []
        | Some n => RecRenderTiles generation_ n
        end in
      render c0 ++ render c1 ++ render c2 ++ render c3
      ++ match t with
         | Some x => [x]
         | None => []
         end
  end.

Definition Render (this : TileManager) : list Tile :=
  RecRenderTiles (generation_ this) (root_ this).

(** Every node on [path] from [node] down, [node] included, carries the
    stamp [g]. *)
Definition marked_along (g : Z) (node : QuadNode) (path : list Z) : Prop :=
  generation node = g /\ marked_below g node path.

(** ** One iteration of the worker (lines 264-299)

    The body of the loop of [LoadingThreadFunc] when the main thread does
    not run in between: take the task at the front, load its tile, place it
    and reset [loading_].  With an empty queue the worker waits ([None]).
    [SpawnTile] is the loader the manager's subclass provides (a virtual
    member declared in [TileManager.hh]); it is an argument. *)
Definition set_loading (this : TileManager) (id : TileId) : TileManager :=
  {| generation_ := generation_ this;
     root_ := root_ this;
     queue_ := queue_ this;
     loading_ := id;
     lowres_level_ := lowres_level_ this;
     hires_level_ := hires_level_ this;
     lowres_range_ := lowres_range_ this;
     hires_range_ := hires_range_ this |}.

Definition LoadingIteration (SpawnTile : BBoxi -> Tile) (this : TileManager)
  : option (TileManager * PlaceOutcome) :=
  match Dequeue this with
  | None => None
  | Some (task, this1) =>
    let tile := SpawnTile (task_bbox task) in
    let (this2, outcome) := PlaceTile this1 tile (task_id task) in
    Some (set_loading this2 no_tile, outcome)
  end.

(** The worker run for at most [n] iterations, stopping when it has to
    wait. *)
Fixpoint LoadingRun (SpawnTile : BBoxi -> Tile) (n : nat) (this : TileManager)
  : TileManager :=
  match n with
  | O => this
  | S n' =>
    match LoadingIteration SpawnTile this with
    | None => this
    | Some (this', _) => LoadingRun SpawnTile n' this'
    end
  end.

(** ** The boxes on the way to a node

    [in_view this pos pnode id path]: from the tile [id], whose node pointer
    is [pnode], the walk for a viewer at [pos] follows [path]: every box on
    the way, the last included, passes the range check, and every node but
    the last is above [hires_level_]. *)
Fixpoint in_view (this : TileManager) (pos : Vector3i) (pnode : option QuadNode)
    (id : TileId) (path : list Z) : Prop :=
  (thisdist_of pos (box_of pnode id) <= hires_range2 this)%Q
  /\ match path with
     | [] => True
     | i :: rest =>
       id_level id <> hires_level_ this
       /\ 0 <= i <= 3
       /\ in_view this pos (childs_ptr pnode i) (quadrant id i) rest
     end.

(** The same from a pointer: the node is there and [marked_along]. *)
Definition marked_ptr (g : Z) (pnode : option QuadNode) (path : list Z) : Prop :=
  match pnode with
  | None => False
  | Some node => marked_along g node path
  end.

(** ** The slots of a node

    What [RecDestroyTiles], the sweep and [RecRenderTiles] do for one child
    pointer, named so that the properties can speak of the four slots. *)

(** The tiles below a pointer, as [RecDestroyTiles] deletes them. *)
Definition destroy_slot (c : option QuadNode) : list Tile :=
  match c with
  | None => []
  | Some n => RecDestroyTiles n
  end.

(** The tile of the node itself, if it has one. *)
Definition own_tile (node : QuadNode) : list Tile :=
  match tile node with
  | Some x => [x]
  | None => []
  end.

(** The tiles the sweep deletes below one child pointer (lines 182-191). *)
Definition deleted_slot (g : Z) (c : option QuadNode) : list Tile :=
  match c with
  | None => []
  | Some n =>
    if negb (generation n =? g) then RecDestroyTiles n
    else RecGarbageCollectTiles_deleted g n
  end.

(** The nodes below a pointer, the node it points to included. *)
Definition count_slot (c : option QuadNode) : nat :=
  match c with
  | None => O
  | Some n => node_count n
  end.

(** The nodes the sweep frees below one child pointer. *)
Definition freed_slot (g : Z) (c : option QuadNode) : nat :=
  match c with
  | None => O
  | Some n =>
    if negb (generation n =? g) then node_count n
    else RecGarbageCollectTiles_freed g n
  end.

(** The tiles [RecRenderTiles] draws below one child pointer. *)
Definition render_slot (g : Z) (c : option QuadNode) : list Tile :=
  match c with
  | None => []
  | Some n => RecRenderTiles g n
  end.

(** ** Relations between states, used by the properties *)

(** [tree_keeps a b]: every node of [a] is in [b] at the same place, with
    its box and its stamp, and with its tile if it had one. *)
Definition tree_keeps (a b : QuadNode) : Prop :=
  forall q m, descend a q = Some m ->
    exists m', descend b q = Some m'
               /\ bbox m' = bbox m
               /\ generation m' = generation m
               /\ forall t0, tile m = Some t0 -> tile m' = Some t0.

(** The tasks a call adds stand for different tiles below [id], one for
    each of a list of different paths. *)
Definition adds_distinct (queue : list TileTask) (id : TileId) (w : Walk) : Prop :=
  exists added paths,
    Permutation (w_queue w) (added ++ queue)
    /\ NoDup paths
    /\ Forall (Forall valid_index) paths
    /\ map task_id added = map (retrace_from id) paths.

(** The task at the front of the queue is the closest one in it, and
    [closest_distance] is its distance. *)
Definition front_closest (info : RecLoadTilesInfo) (queue : list TileTask) : Prop :=
  match queue with
  | [] => True
  | front :: _ =>
    closest_distance info = thisdist_of (viewer_pos info) (task_bbox front)
    /\ forall task, In task queue ->
         (closest_distance info
          <= thisdist_of (viewer_pos info) (task_bbox task))%Q
  end.

(** ** The constructor and the destructor (lines 31-77)

    [TileManager_new] above is the state the constructor leaves.  Here are
    the calls it makes on the way, and those of the destructor. *)

Section Construction.
Import String.

(** The pthread objects the manager owns. *)
Inductive Resource : Type :=
| tiles_mutex_
| queue_mutex_
| queue_cond_
| loading_thread_.

(** The calls of the constructor and of the destructor on them; a call
    whose result the code reads carries the code it returns. *)
Inductive Call : Type :=
| pthread_mutex_init (mutex : Resource) (errn : Z)
| pthread_cond_init (cond : Resource) (errn : Z)
| pthread_create (thread : Resource) (errn : Z)
| pthread_mutex_destroy (mutex : Resource)
| pthread_cond_destroy (cond : Resource)
| pthread_cond_signal (cond : Resource)
| pthread_join (thread : Resource).

(** [SystemError(errn) << "..."] *)
Record SystemError : Type := mkSystemError { errn : Z; what : string }.

(** The constructor, for the codes the four calls return when they are
    made: the calls it makes, in order, and the exception it throws or the
    manager it leaves.  A call after a failed one is not made. *)
Definition TileManager_construct (root : QuadNode)
    (e_tiles e_queue e_cond e_thread : Z)
  : list Call * (SystemError + TileManager) :=
  if negb (e_tiles =? 0) then
    ([pthread_mutex_init tiles_mutex_ e_tiles],
     inl (mkSystemError e_tiles "pthread_mutex_init failed"))
  else if negb (e_queue =? 0) then
    ([pthread_mutex_init tiles_mutex_ e_tiles;
      pthread_mutex_init queue_mutex_ e_queue;
      pthread_mutex_destroy tiles_mutex_],
     inl (mkSystemError e_queue "pthread_mutex_init failed"))
  else if negb (e_cond =? 0) then
    ([pthread_mutex_init tiles_mutex_ e_tiles;
      pthread_mutex_init queue_mutex_ e_queue;
      pthread_cond_init queue_cond_ e_cond;
      pthread_mutex_destroy tiles_mutex_;
      pthread_mutex_destroy queue_mutex_],
     inl (mkSystemError e_cond "pthread_cond_init failed"))
  else if negb (e_thread =? 0) then
    ([pthread_mutex_init tiles_mutex_ e_tiles;
      pthread_mutex_init queue_mutex_ e_queue;
      pthread_cond_init queue_cond_ e_cond;
      pthread_create loading_thread_ e_thread;
      pthread_mutex_destroy tiles_mutex_;
      pthread_mutex_destroy queue_mutex_;
      pthread_cond_destroy queue_cond_],
     inl (mkSystemError e_thread "pthread_create failed"))
  else
    ([pthread_mutex_init tiles_mutex_ e_tiles;
      pthread_mutex_init queue_mutex_ e_queue;
      pthread_cond_init queue_cond_ e_cond;
      pthread_create loading_thread_ e_thread],
     inr (TileManager_new root)).

(** The destructor: the calls it makes, and the tiles
    [RecDestroyTiles(&root_)] deletes. *)
Definition TileManager_destruct (this : TileManager) : list Call * list Tile :=
  ([pthread_cond_signal queue_cond_;
    pthread_join loading_thread_;
    pthread_cond_destroy queue_cond_;
    pthread_mutex_destroy queue_mutex_;
    pthread_mutex_destroy tiles_mutex_],
   RecDestroyTiles (root_ this)).

Definition Resource_eqb (a b : Resource) : bool :=
  match a, b with
  | tiles_mutex_, tiles_mutex_ => true
  | queue_mutex_, queue_mutex_ => true
  | queue_cond_, queue_cond_ => true
  | loading_thread_, loading_thread_ => true
  | _, _ => false
  end.

(** The use of the objects: [holds held r] says that [r] is among the
    initialised objects [held]. *)
Definition holds (held : list Resource) (r : Resource) : bool :=
  existsb (Resource_eqb r) held.

Definition release (held : list Resource) (r : Resource) : list Resource :=
  filter (fun x => negb (Resource_eqb r x)) held.

Definition is_mutex (r : Resource) : bool :=
  match r with
  | tiles_mutex_ | queue_mutex_ => true
  | _ => false
  end.

(** An init call on an object that is not initialised: the object is
    initialised afterwards when the call returns 0. *)
Definition init (held : list Resource) (r : Resource) (errn : Z)
  : option (list Resource) :=
  if holds held r then None
  else Some (if errn =? 0 then r :: held else held).

(** A destroy call on an initialised object that the thread, which locks
    the mutexes and waits on the condition variable, no longer uses. *)
Definition destroy (held : list Resource) (r : Resource) : option (list Resource) :=
  if holds held r && negb (holds held loading_thread_)
  then Some (release held r) else None.

(** One call made in the right state of its object, or [None]. *)
Definition use (held : list Resource) (c : Call) : option (list Resource) :=
  match c with
  | pthread_mutex_init m e => if is_mutex m then init held m e else None
  | pthread_cond_init c e =>
    if Resource_eqb c queue_cond_ then init held c e else None
  | pthread_create t e =>
    if Resource_eqb t loading_thread_
       && holds held tiles_mutex_ && holds held queue_mutex_
       && holds held queue_cond_
    then init held t e else None
  | pthread_mutex_destroy m => if is_mutex m then destroy held m else None
  | pthread_cond_destroy c =>
    if Resource_eqb c queue_cond_ then destroy held c else None
  | pthread_cond_signal c =>
    if Resource_eqb c queue_cond_ && holds held c then Some held else None
  | pthread_join t =>
    if Resource_eqb t loading_thread_ && holds held t
    then Some (release held t) else None
  end.

(** The objects initialised after a sequence of calls, each made in the
    right state. *)
Fixpoint held_after (calls : list Call) (held : list Resource)
  : option (list Resource) :=
  match calls with
  | [] => Some held
  | c :: rest =>
    match use held c with
    | None => None
    | Some held' => held_after rest held'
    end
  end.

End Construction.

End TileManager.

(** ** A concrete geometry

    Tiles of a square grid: the tile [(level, x, y)] is the square of side
    [unit * 2^(depth - level)] whose lower left corner is [(x, y)] times that
    side; the distance of a point to a box is the squared Euclidean distance
    to the nearest point of the box. *)
Module Grid.

Definition box : Type := (Z * Z) * (Z * Z).

Definition reach (lo hi p : Z) : Z := Z.max 0 (Z.max (lo - p) (p - hi)).

Definition distance2 (b : box) (p : Z * Z) : Q :=
  let '((x0, y0), (x1, y1)) := b in
  let dx := reach x0 x1 (fst p) in
  let dy := reach y0 y1 (snd p) in
  inject_Z (dx * dx + dy * dy).

Definition geo_tile (unit depth level x y : Z) : box :=
  let side := unit * 2 ^ (depth - level) in
  ((x * side, y * side), ((x + 1) * side, (y + 1) * side)).

Definition geometry (unit depth : Z) : Collaborators :=
  {| BBoxi := box;
     Vector3i := Z * Z * Z;
     Vector2i := Z * Z;
     Tile := nat;
     ForGeoTile := geo_tile unit depth;
     Flattened := fun p => (fst (fst p), snd (fst p));
     ApproxDistanceSquare := distance2;
     SYNC := 1 |}.

Definition origin : Z * Z * Z := (0, 0, 0).

(** A viewer 20 leaf tiles of the fine grid away from the corner, in both
    directions. *)
Definition inner : Z * Z * Z := (10000, 10000, 0).

(** A freshly constructed manager whose root covers the whole grid. *)
Definition fresh (unit depth : Z) : @TileManager (geometry unit depth) :=
  @TileManager_new (geometry unit depth)
    (@new_QuadNode (geometry unit depth) (geo_tile unit depth 0 0 0) 0).

(** The manager after one [LoadLocality] without [SYNC] on the fresh
    manager, for a viewer at the origin (the grid's lower left corner). *)
Definition loaded (unit depth : Z) : @TileManager (geometry unit depth) :=
  match @LoadLocality (geometry unit depth) 14 (fresh unit depth) origin 0 0 with
  | Some l => @l_manager (geometry unit depth) l
  | None => fresh unit depth
  end.

(** The ids of the tasks that call leaves in the queue, front first. *)
Definition queue_ids (unit depth : Z) : list TileId :=
  map (@task_id (geometry unit depth)) (@queue_ (geometry unit depth) (loaded unit depth)).

(** Three grids: leaf tiles of side 5000, 500 and 1.  With the range of
    10000 the constructor sets, a viewer at the origin has 6, about 340 and
    far more leaf tiles in range. *)
Definition coarse : Collaborators := geometry 5000 13.
Definition fine : Collaborators := geometry 500 13.
Definition unit_grid : Collaborators := geometry 1 13.

(** A node of the coarse grid with one child, for the tile [(1, 0, 0)]. *)
Definition sapling : @QuadNode coarse :=
  @mkQuadNode coarse (geo_tile 5000 13 0 0 0) None 0
    (Some (@new_QuadNode coarse (geo_tile 5000 13 1 0 0) 0)) None None None.

(** The same node with the tile 7 attached to the child. *)
Definition tiled_sapling : @QuadNode coarse :=
  @mkQuadNode coarse (geo_tile 5000 13 0 0 0) None 0
    (Some (@mkQuadNode coarse (geo_tile 5000 13 1 0 0) (Some 7%nat) 0
             None None None None))
    None None None.


End Grid.

(** * Properties *)

Section Addressing.
Context `{Collab : Collaborators}.

(** Testing a number against the mask [1 << n] reads its bit [n]. *)
Lemma land_mask_testbit (a n : Z) :
  0 <= n -> negb (Z.land a (Z.shiftl 1 n) =? 0) = Z.testbit a n.
Proof.
  intros Hn. rewrite Z.shiftl_1_l.
  destruct (Z.testbit a n) eqn:Hb.
  - apply negb_true_iff, Z.eqb_neq. intros Hz.
    assert (Ht : Z.testbit (Z.land a (2 ^ n)) n = true).
    { rewrite Z.land_spec, Hb, Z.pow2_bits_true by lia. reflexivity. }
    rewrite Hz, Z.bits_0 in Ht. discriminate.
  - apply negb_false_iff, Z.eqb_eq. apply Z.bits_inj'. intros m Hm.
    rewrite Z.land_spec, Z.bits_0, Z.pow2_bits_eqb by lia.
    destruct (Z.eqb_spec n m) as [->|]; [rewrite Hb|]; auto using andb_false_r.
Qed.

Lemma nchild_bits (level x y : Z) :
  1 <= level ->
  nchild level x y
  = 2 * Z.b2z (Z.testbit y (level - 1)) + Z.b2z (Z.testbit x (level - 1)).
Proof.
  intros Hl. unfold nchild.
  rewrite !land_mask_testbit by lia.
  destruct (Z.testbit y (level - 1)), (Z.testbit x (level - 1)); reflexivity.
Qed.

Lemma quadrant_bits (id : TileId) (by_ bx : bool) :
  quadrant id (2 * Z.b2z by_ + Z.b2z bx)
  = mkTileId (id_level id + 1) (id_x id * 2 + Z.b2z bx) (id_y id * 2 + Z.b2z by_).
Proof.
  destruct id as [l x y], by_, bx; simpl; f_equal; lia.
Qed.

(** One more low bit: the remainder modulo [2^(n+1)]. *)
Lemma mod_pow2_succ (a n : Z) :
  0 <= n ->
  a mod 2 ^ (n + 1) = Z.b2z (Z.testbit a n) * 2 ^ n + a mod 2 ^ n.
Proof.
  intros Hn. rewrite Z.pow_add_r, Z.pow_1_r by lia.
  rewrite Z.rem_mul_r by (try apply Z.pow_nonzero; lia).
  rewrite Z.testbit_spec' by lia. lia.
Qed.

Lemma retrace_from_place_path (n : nat) (id : TileId) (x y : Z) :
  retrace_from id (place_path n x y)
  = mkTileId (id_level id + Z.of_nat n)
             (id_x id * 2 ^ Z.of_nat n + x mod 2 ^ Z.of_nat n)
             (id_y id * 2 ^ Z.of_nat n + y mod 2 ^ Z.of_nat n).
Proof.
  revert id. induction n as [|n IH]; intros id.
  - destruct id as [l x0 y0]. simpl. rewrite !Z.mod_1_r. f_equal; lia.
  - change (place_path (S n) x y)
      with (nchild (Z.of_nat (S n)) x y :: place_path n x y).
    unfold retrace_from in *. cbn [fold_left].
    rewrite nchild_bits by lia. rewrite quadrant_bits, IH.
    cbn [id_level id_x id_y].
    replace (Z.of_nat (S n) - 1) with (Z.of_nat n) by lia.
    replace (Z.of_nat (S n)) with (Z.of_nat n + 1) by lia.
    rewrite !(mod_pow2_succ _ (Z.of_nat n)) by lia.
    rewrite !Z.pow_add_r, !Z.pow_1_r by lia.
    f_equal; lia.
Qed.

(** The placement path of a tile of the grid, retraced, is the tile. *)
Theorem retrace_place_path (level x y : Z) :
  0 <= level -> 0 <= x < 2 ^ level -> 0 <= y < 2 ^ level ->
  retrace (place_path (Z.to_nat level) x y) = mkTileId level x y.
Proof.
  intros Hl Hx Hy. unfold retrace. rewrite retrace_from_place_path. simpl.
  rewrite Z2Nat.id by lia. rewrite !Z.mod_small by lia. reflexivity.
Qed.

End Addressing.

Section Placement.
Context `{Collab : Collaborators}.

Lemma nchild_range (level x y : Z) : 0 <= nchild level x y <= 3.
Proof.
  unfold nchild.
  destruct (negb _), (negb _); cbn; lia.
Qed.

Lemma childs_set_child_same (node : QuadNode) (i : Z) (c : option QuadNode) :
  0 <= i <= 3 -> childs (set_child node i c) i = c.
Proof.
  intros Hi. destruct node.
  assert (H : i = 0 \/ i = 1 \/ i = 2 \/ i = 3) by lia.
  destruct H as [->|[->|[->| ->]]]; reflexivity.
Qed.

Lemma childs_set_child_other (node : QuadNode) (i j : Z) (c : option QuadNode) :
  i <> j -> childs (set_child node i c) j = childs node j.
Proof.
  intros Hij. destruct node.
  destruct i as [|[[|[]|]|[|[]|]|]|]; try reflexivity;
  destruct j as [|[[|[]|]|[|[]|]|]|]; try reflexivity; congruence.
Qed.

Lemma payload_set_child (node : QuadNode) (i : Z) (c : option QuadNode) :
  payload (set_child node i c) = payload node.
Proof.
  destruct node. destruct i as [|[[|[]|]|[|[]|]|]|]; reflexivity.
Qed.

Lemma set_child_childs (node : QuadNode) (i : Z) :
  set_child node i (childs node i) = node.
Proof.
  destruct node. destruct i as [|[[|[]|]|[|[]|]|]|]; reflexivity.
Qed.

(** One step of [RecPlaceTile] below the target level, through the child
    array. *)
Lemma RecPlaceTile_node_step (node : QuadNode) (t : Tile) (level x y : Z) :
  level <> 0 ->
  RecPlaceTile_node node t level x y
  = let i := nchild level x y in
    let (c, o) := RecPlaceTile (childs node i) t (level - 1) x y in
    (set_child node i c, o).
Proof.
  intros Hl. destruct node as [b tl g c0 c1 c2 c3].
  cbn [RecPlaceTile_node]. destruct (Z.eqb_spec level 0) as [|_]; [contradiction|].
  pose proof (nchild_range level x y) as Hr.
  cbv zeta.
  assert (H : nchild level x y = 0 \/ nchild level x y = 1
              \/ nchild level x y = 2 \/ nchild level x y = 3) by lia.
  unfold RecPlaceTile.
  destruct H as [->|[->|[->| ->]]]; cbn [childs child0 child1 child2 child3 set_child].
  - destruct c0 as [n|]; [destruct (RecPlaceTile_node n t (level - 1) x y)|]; reflexivity.
  - destruct c1 as [n|]; [destruct (RecPlaceTile_node n t (level - 1) x y)|]; reflexivity.
  - destruct c2 as [n|]; [destruct (RecPlaceTile_node n t (level - 1) x y)|]; reflexivity.
  - destruct c3 as [n|]; [destruct (RecPlaceTile_node n t (level - 1) x y)|]; reflexivity.
Qed.

Lemma RecPlaceTile_node_target (node : QuadNode) (t : Tile) (x y : Z) :
  RecPlaceTile_node node t 0 x y
  = match tile node with
    | Some _ => (node, Deleted)
    | None => (set_tile node (Some t), Attached)
    end.
Proof. destruct node as [b [tl|] g c0 c1 c2 c3]; reflexivity. Qed.

Lemma payload_set_tile (node : QuadNode) (t : Tile) :
  payload (set_tile node (Some t)) = (bbox node, Some t, generation node).
Proof. destruct node; reflexivity. Qed.

Lemma childs_set_tile (node : QuadNode) (t : option Tile) (i : Z) :
  childs (set_tile node t) i = childs node i.
Proof. destruct node; reflexivity. Qed.

(** The placement, read along the path it takes. *)
Lemma RecPlaceTile_node_path (n : nat) (node : QuadNode) (t : Tile) (x y : Z) :
  let p := place_path n x y in
  match descend node p with
  | None => RecPlaceTile_node node t (Z.of_nat n) x y = (node, Deleted)
  | Some m =>
    match tile m with
    | Some _ => RecPlaceTile_node node t (Z.of_nat n) x y = (node, Deleted)
    | None =>
      exists node',
        RecPlaceTile_node node t (Z.of_nat n) x y = (node', Attached)
        /\ descend node' p = Some (set_tile m (Some t))
        /\ forall q, q <> p ->
             option_map payload (descend node' q) = option_map payload (descend node q)
    end
  end.
Proof.
  revert node. induction n as [|n IH]; intros node p; subst p.
  - cbn [place_path descend Z.of_nat]. rewrite RecPlaceTile_node_target.
    destruct (tile node) eqn:Ht; [reflexivity|].
    eexists; split; [reflexivity|]. split; [reflexivity|].
    intros [|j q] Hq; [congruence|]. cbn [descend]. now rewrite childs_set_tile.
  - change (place_path (S n) x y)
      with (nchild (Z.of_nat (S n)) x y :: place_path n x y).
    rewrite RecPlaceTile_node_step by lia. cbv zeta.
    set (i := nchild (Z.of_nat (S n)) x y).
    pose proof (nchild_range (Z.of_nat (S n)) x y) as Hi. fold i in Hi.
    replace (Z.of_nat (S n) - 1) with (Z.of_nat n) by lia.
    cbn [descend]. unfold RecPlaceTile.
    destruct (childs node i) as [c|] eqn:Hc.
    + specialize (IH c). cbv zeta in IH.
      destruct (descend c (place_path n x y)) as [m|] eqn:Hm.
      * destruct (tile m) eqn:Ht.
        -- rewrite IH, <- Hc. now rewrite set_child_childs.
        -- destruct IH as (c' & -> & Hd & Hframe).
           eexists; split; [reflexivity|]. split.
           ++ cbn [descend]. now rewrite childs_set_child_same.
           ++ intros [|j q] Hq.
              ** cbn [descend option_map]. now rewrite payload_set_child.
              ** cbn [descend]. destruct (Z.eq_dec i j) as [<-|Hij].
                 --- rewrite childs_set_child_same, Hc by lia.
                     apply Hframe. congruence.
                 --- now rewrite childs_set_child_other.
      * rewrite IH, <- Hc. now rewrite set_child_childs.
    + rewrite <- Hc. now rewrite set_child_childs.
Qed.

(** C4.  Placement by [RecPlaceTile] at [(level, x, y)], read along the
    descent path [place_path level x y]: when the target node or a node on
    the way to it is absent the tile is deleted and the tree is returned as
    it was; when the target already holds a tile the new one is deleted and
    the tree is returned as it was (the first tile stays); otherwise the
    tile is attached to the target, and every other node keeps its box, tile
    and stamp (no node appears or disappears). *)
Theorem RecPlaceTile_absent_kept_or_attached
    (node : option QuadNode) (t : Tile) (level x y : Z) :
  0 <= level ->
  let p := place_path (Z.to_nat level) x y in
  (descend_ptr node p = None ->
   RecPlaceTile node t level x y = (node, Deleted))
  /\ (forall m t0,
        descend_ptr node p = Some m -> tile m = Some t0 ->
        RecPlaceTile node t level x y = (node, Deleted))
  /\ (forall m,
        descend_ptr node p = Some m -> tile m = None ->
        exists node',
          RecPlaceTile node t level x y = (node', Attached)
          /\ descend_ptr node' p = Some (set_tile m (Some t))
          /\ forall q, q <> p ->
               option_map payload (descend_ptr node' q)
               = option_map payload (descend_ptr node q)).
Proof.
  intros Hl p.
  destruct node as [n|]; cbn [descend_ptr RecPlaceTile];
    [|repeat split; intros; discriminate].
  pose proof (RecPlaceTile_node_path (Z.to_nat level) n t x y) as H.
  cbv zeta in H. rewrite Z2Nat.id in H by lia. fold p in H.
  split; [|split].
  - intros Hn. rewrite Hn in H. now rewrite H.
  - intros m t0 Hn Ht. rewrite Hn, Ht in H. now rewrite H.
  - intros m Hn Ht. rewrite Hn, Ht in H.
    destruct H as (n' & -> & Hd & Hf). exists (Some n'). auto.
Qed.

End Placement.

Section Walk.
Context `{Collab : Collaborators}.



Lemma Qgtb_false (a b : Q) : Qgtb a b = false <-> (a <= b)%Q.
Proof.
  unfold Qgtb, Qltb. rewrite negb_false_iff. apply Qle_bool_iff.
Qed.

Lemma Qgtb_true (a b : Q) : Qgtb a b = true <-> (b < a)%Q.
Proof.
  unfold Qgtb, Qltb. rewrite negb_true_iff, <- not_true_iff_false, Qle_bool_iff.
  split; [apply Qnot_le_lt | apply Qlt_not_le].
Qed.

(** [RecLoadTiles] is made of the pieces named above. *)
Lemma RecLoadTiles_unfold (fuel : nat) (this : TileManager)
    (info : RecLoadTilesInfo) (queue : list TileTask)
    (pnode : option QuadNode) (id : TileId) :
  walk_at (S fuel) this info queue pnode id
  = if Qgtb (thisdist_of (viewer_pos info) (box_of pnode id)) (hires_range2 this)
    then Some (mkWalk info queue pnode)
    else if id_level id =? hires_level_ this
    then Some (leaf_visit this info queue (visited_node this pnode id)
                 (thisdist_of (viewer_pos info) (box_of pnode id)) id)
    else visit_childs fuel this info queue (visited_node this pnode id) id.
Proof.
  destruct id as [level x y].
  unfold walk_at, visited_node, thisdist_of, hires_range2, box_of.
  cbn [id_level id_x id_y RecLoadTiles].
  destruct pnode as [node|].
  - destruct (Qgtb _ _); [reflexivity|].
    destruct (level =? hires_level_ this).
    + unfold leaf_visit. destruct node as [b [t|] g c0 c1 c2 c3]; cbn; [reflexivity|].
      destruct (negb _); [|reflexivity]. destruct queue; [reflexivity|].
      destruct (Qltb _ _); [reflexivity|]. destruct (_ <? _); reflexivity.
    + destruct node as [b t g c0 c1 c2 c3].
      unfold visit_childs, visit_child, walk_at.
      cbn.
      destruct (RecLoadTiles fuel this info queue c0 _ _ _) as [w0|]; cbn; [|reflexivity].
      destruct (RecLoadTiles fuel this (w_info w0) _ c1 _ _ _) as [w1|]; cbn; [|reflexivity].
      destruct (RecLoadTiles fuel this (w_info w1) _ c2 _ _ _) as [w2|]; cbn; [|reflexivity].
      destruct (RecLoadTiles fuel this (w_info w2) _ c3 _ _ _) as [w3|]; reflexivity.
  - destruct (Qgtb _ _); [reflexivity|].
    destruct (level =? hires_level_ this).
    + unfold leaf_visit, new_QuadNode; cbn.
      destruct (negb _); [|reflexivity]. destruct queue; [reflexivity|].
      destruct (Qltb _ _); [reflexivity|]. destruct (_ <? _); reflexivity.
    + unfold visit_childs, visit_child, walk_at, new_QuadNode.
      cbn.
      destruct (RecLoadTiles fuel this info queue None _ _ _) as [w0|]; cbn; [|reflexivity].
      destruct (RecLoadTiles fuel this (w_info w0) _ None _ _ _) as [w1|]; cbn; [|reflexivity].
      destruct (RecLoadTiles fuel this (w_info w1) _ None _ _ _) as [w2|]; cbn; [|reflexivity].
      destruct (RecLoadTiles fuel this (w_info w2) _ None _ _ _) as [w3|]; reflexivity.
Qed.

(** The four calls behind [visit_childs], one after the other. *)
Lemma visit_childs_inv (fuel : nat) (this : TileManager) (info : RecLoadTilesInfo)
    (queue : list TileTask) (node : QuadNode) (id : TileId) (w : Walk) :
  visit_childs fuel this info queue node id = Some w ->
  exists w0 w1 w2 w3,
    walk_at fuel this info queue (childs node 0) (quadrant id 0) = Some w0
    /\ walk_at fuel this (w_info w0) (w_queue w0) (childs node 1) (quadrant id 1) = Some w1
    /\ walk_at fuel this (w_info w1) (w_queue w1) (childs node 2) (quadrant id 2) = Some w2
    /\ walk_at fuel this (w_info w2) (w_queue w2) (childs node 3) (quadrant id 3) = Some w3
    /\ w = mkWalk (w_info w3) (w_queue w3)
             (Some (set_child (set_child (set_child (set_child node
                0 (w_node w0)) 1 (w_node w1)) 2 (w_node w2)) 3 (w_node w3))).
Proof.
  unfold visit_childs. cbn [fold_left visit_child w_info w_queue].
  destruct (walk_at fuel this info queue (childs node 0) _) as [w0|] eqn:E0;
    cbn [visit_child w_info w_queue]; [|discriminate].
  rewrite childs_set_child_other by lia.
  destruct (walk_at fuel this (w_info w0) _ (childs node 1) _) as [w1|] eqn:E1;
    cbn [visit_child w_info w_queue]; [|discriminate].
  rewrite !childs_set_child_other by lia.
  destruct (walk_at fuel this (w_info w1) _ (childs node 2) _) as [w2|] eqn:E2;
    cbn [visit_child w_info w_queue]; [|discriminate].
  rewrite !childs_set_child_other by lia.
  destruct (walk_at fuel this (w_info w2) _ (childs node 3) _) as [w3|] eqn:E3;
    cbn [visit_child w_info w_queue]; [|discriminate].
  intros [= <-]. exists w0, w1, w2, w3. auto.
Qed.


(** Induction over the calls of one walk: a property of a call holds when it
    holds for a pruned call, for a visit at [hires_level_], and for a visit
    above it whenever it holds for the four calls on the children. *)
Section Walk_induction.
Variable this : TileManager.
Variable P : RecLoadTilesInfo -> list TileTask -> option QuadNode -> TileId ->
             Walk -> Prop.

Hypothesis pruned : forall info queue pnode id,
  (hires_range2 this < thisdist_of (viewer_pos info) (box_of pnode id))%Q ->
  P info queue pnode id (mkWalk info queue pnode).

Hypothesis at_leaf : forall info queue pnode id,
  (thisdist_of (viewer_pos info) (box_of pnode id) <= hires_range2 this)%Q ->
  id_level id = hires_level_ this ->
  P info queue pnode id
    (leaf_visit this info queue (visited_node this pnode id)
       (thisdist_of (viewer_pos info) (box_of pnode id)) id).

Hypothesis above_leaf : forall fuel info queue pnode id w0 w1 w2 w3,
  (thisdist_of (viewer_pos info) (box_of pnode id) <= hires_range2 this)%Q ->
  id_level id <> hires_level_ this ->
  walk_at fuel this info queue (childs_ptr pnode 0) (quadrant id 0) = Some w0 ->
  walk_at fuel this (w_info w0) (w_queue w0) (childs_ptr pnode 1) (quadrant id 1) = Some w1 ->
  walk_at fuel this (w_info w1) (w_queue w1) (childs_ptr pnode 2) (quadrant id 2) = Some w2 ->
  walk_at fuel this (w_info w2) (w_queue w2) (childs_ptr pnode 3) (quadrant id 3) = Some w3 ->
  P info queue (childs_ptr pnode 0) (quadrant id 0) w0 ->
  P (w_info w0) (w_queue w0) (childs_ptr pnode 1) (quadrant id 1) w1 ->
  P (w_info w1) (w_queue w1) (childs_ptr pnode 2) (quadrant id 2) w2 ->
  P (w_info w2) (w_queue w2) (childs_ptr pnode 3) (quadrant id 3) w3 ->
  P info queue pnode id
    (mkWalk (w_info w3) (w_queue w3)
       (Some (set_child (set_child (set_child (set_child (visited_node this pnode id)
          0 (w_node w0)) 1 (w_node w1)) 2 (w_node w2)) 3 (w_node w3)))).

Lemma childs_visited_node (pnode : option QuadNode) (id : TileId) (i : Z) :
  childs (visited_node this pnode id) i = childs_ptr pnode i.
Proof.
  unfold visited_node. destruct pnode as [[]|]; cbn;
  destruct i as [|[[|[]|]|[|[]|]|]|]; reflexivity.
Qed.

Lemma walk_ind (fuel : nat) : forall info queue pnode id w,
  walk_at fuel this info queue pnode id = Some w -> P info queue pnode id w.
Proof.
  induction fuel as [|fuel IH]; intros info queue pnode id w Hw; [discriminate|].
  rewrite RecLoadTiles_unfold in Hw.
  destruct (Qgtb _ _) eqn:Hd.
  - injection Hw as <-. apply pruned. now apply Qgtb_true.
  - apply Qgtb_false in Hd.
    destruct (Z.eqb_spec (id_level id) (hires_level_ this)) as [Hl|Hl].
    + injection Hw as <-. now apply at_leaf.
    + apply visit_childs_inv in Hw.
      destruct Hw as (w0 & w1 & w2 & w3 & E0 & E1 & E2 & E3 & ->).
      rewrite childs_visited_node in E0, E1, E2, E3.
      apply (above_leaf fuel); auto.
Qed.
End Walk_induction.


(** What a visit at [hires_level_] can do to the queue. *)
Lemma leaf_visit_cases (this : TileManager) (info : RecLoadTilesInfo)
    (queue : list TileTask) (node : QuadNode) (d : Q) (id : TileId) :
  let w := leaf_visit this info queue node d id in
  let task := mkTileTask id (bbox node) in
  w_node w = Some node
  /\ ((w_info w = info /\ w_queue w = queue)
      \/ (tile node = None /\ TileId_eqb (loading_ this) id = false
          /\ ((w_info w = incr_queue_size (set_closest_distance info d)
               /\ w_queue w = task :: queue)
              \/ (w_info w = incr_queue_size info
                  /\ w_queue w = queue ++ [task]
                  /\ queue_size info < 100)))).
Proof.
  unfold leaf_visit. destruct (tile node); cbn; [auto|].
  destruct (TileId_eqb (loading_ this) id); cbn; [auto|].
  destruct queue as [|t0 queue]; cbn; [auto 7|].
  destruct (Qltb d (closest_distance info)); cbn; [auto 7|].
  destruct (Z.ltb_spec (queue_size info) 100); cbn; auto 8.
Qed.


Lemma queue_grows_refl (info : RecLoadTilesInfo) (queue : list TileTask)
    (pnode : option QuadNode) :
  queue_grows info queue (mkWalk info queue pnode).
Proof.
  exists [], []. cbn. rewrite app_nil_r. repeat split; auto; lia.
Qed.

Lemma queue_grows_trans (info : RecLoadTilesInfo) (queue : list TileTask)
    (w w' : Walk) (pnode : option QuadNode) :
  queue_grows info queue w ->
  queue_grows (w_info w) (w_queue w) w' ->
  queue_grows info queue (mkWalk (w_info w') (w_queue w') pnode).
Proof.
  intros (f & b & Hq & Hs & Hv & Hc) (f' & b' & Hq' & Hs' & Hv' & Hc').
  exists (f' ++ f), (b ++ b'). cbn. split; [|split; [|split]].
  - rewrite Hq', Hq. now rewrite <- !app_assoc.
  - rewrite Hs', Hs, !length_app. lia.
  - congruence.
  - destruct Hc' as [->|Hc'].
    + rewrite app_nil_r. exact Hc.
    + right. rewrite length_app. lia.
Qed.


Lemma walk_queue_grows (this : TileManager) (fuel : nat) info queue pnode id w :
  walk_at fuel this info queue pnode id = Some w -> queue_grows info queue w.
Proof.
  revert info queue pnode id w.
  apply (walk_ind this (fun info queue _ _ w => queue_grows info queue w)).
  - intros. apply queue_grows_refl.
  - intros info queue pnode id _ _.
    destruct (leaf_visit_cases this info queue (visited_node this pnode id)
                (thisdist_of (viewer_pos info) (box_of pnode id)) id)
      as [_ [[Hi Hq]|(_ & _ & [[Hi Hq]|(Hi & Hq & Hs)])]].
    + exists [], []. rewrite Hi, Hq. cbn. rewrite app_nil_r. repeat split; auto; lia.
    + eexists [_], []. rewrite Hi, Hq. cbn. rewrite app_nil_r. repeat split; auto; lia.
    + eexists [], [_]. rewrite Hi, Hq. cbn. repeat split; auto; lia.
  - intros _ info queue pnode id w0 w1 w2 w3 _ _ _ _ _ _ H0 H1 H2 H3.
    pose proof (queue_grows_trans _ _ _ _ None H0 H1) as H01.
    pose proof (queue_grows_trans _ _ _ _ None H2 H3) as H23.
    exact (queue_grows_trans _ _ _ _ _ H01 H23).
Qed.


Lemma childs_set_child4 (node : QuadNode) (a0 a1 a2 a3 : option QuadNode) (i : Z) :
  childs (set_child (set_child (set_child (set_child node 0 a0) 1 a1) 2 a2) 3 a3) i
  = match i with
    | 0 => a0
    | 1 => a1
    | 2 => a2
    | 3 => a3
    | _ => None
    end.
Proof. destruct node. destruct i as [|[[|[]|]|[|[]|]|]|]; reflexivity. Qed.

Lemma payload_set_child4 (node : QuadNode) (a0 a1 a2 a3 : option QuadNode) :
  payload (set_child (set_child (set_child (set_child node 0 a0) 1 a1) 2 a2) 3 a3)
  = payload node.
Proof. destruct node. reflexivity. Qed.

Lemma descend_ptr_cons (pnode : option QuadNode) (i : Z) (rest : list Z) :
  descend_ptr pnode (i :: rest) = descend_ptr (childs_ptr pnode i) rest.
Proof.
  destruct pnode as [node|]; [|reflexivity].
  cbn. destruct (childs node i); reflexivity.
Qed.

Lemma payload_fields (n m : QuadNode) :
  payload n = payload m ->
  bbox n = bbox m /\ tile n = tile m /\ generation n = generation m.
Proof. unfold payload. intros [= -> -> ->]. auto. Qed.

Lemma payload_visited_node (this : TileManager) (pnode : option QuadNode) (id : TileId) :
  payload (visited_node this pnode id)
  = (box_of pnode id, tile_ptr pnode, generation_ this).
Proof. destruct pnode as [[]|]; reflexivity. Qed.


Lemma tree_grows_refl (this : TileManager) (pos : Vector3i)
    (pnode : option QuadNode) (id : TileId) :
  tree_grows this pos pnode id pnode.
Proof.
  split.
  - intros path node' H. rewrite H. auto.
  - intros path node H. congruence.
Qed.

(** The visited node itself, whatever hangs below it afterwards. *)
Lemma tree_grows_visited (this : TileManager) (pos : Vector3i)
    (pnode : option QuadNode) (id : TileId) (node' : QuadNode) :
  (thisdist_of pos (box_of pnode id) <= hires_range2 this)%Q ->
  payload node' = payload (visited_node this pnode id) ->
  (forall i, tree_grows this pos (childs_ptr pnode i) (quadrant id i) (childs node' i)) ->
  tree_grows this pos pnode id (Some node').
Proof.
  intros Hd Hp Hc. rewrite payload_visited_node in Hp. unfold payload in Hp.
  injection Hp as Hb Ht Hg. split.
  - intros [|i rest] n' Hn'.
    + cbn in Hn'. injection Hn' as <-.
      destruct pnode as [node|]; cbn in *; [auto|]. rewrite Hb. auto.
    + rewrite descend_ptr_cons. cbn [descend_ptr descend] in Hn'.
      apply (proj1 (Hc i) rest n'). destruct (childs node' i); auto.
  - intros [|i rest] n Hn; [discriminate|].
    rewrite descend_ptr_cons in Hn. apply (proj2 (Hc i)) in Hn.
    cbn [descend_ptr descend]. destruct (childs node' i); auto.
Qed.

Lemma walk_tree_grows (this : TileManager) (fuel : nat) info queue pnode id w :
  walk_at fuel this info queue pnode id = Some w ->
  viewer_pos (w_info w) = viewer_pos info
  /\ tree_grows this (viewer_pos info) pnode id (w_node w).
Proof.
  revert info queue pnode id w.
  apply (walk_ind this (fun info queue pnode id w =>
    viewer_pos (w_info w) = viewer_pos info
    /\ tree_grows this (viewer_pos info) pnode id (w_node w))).
  - intros. split; [reflexivity|apply tree_grows_refl].
  - intros info queue pnode id Hd _.
    destruct (leaf_visit_cases this info queue (visited_node this pnode id)
                (thisdist_of (viewer_pos info) (box_of pnode id)) id)
      as [Hn Hi]. split.
    + destruct Hi as [[-> _]|(_ & _ & [[-> _]|[-> _]])]; reflexivity.
    + rewrite Hn. apply tree_grows_visited; auto.
      intros i. rewrite childs_visited_node. apply tree_grows_refl.
  - intros _ info queue pnode id w0 w1 w2 w3 Hd _ _ _ _ _
           [V0 H0] [V1 H1] [V2 H2] [V3 H3].
    cbn [w_info w_node]. split; [congruence|].
    rewrite V0 in H1. rewrite V1, V0 in H2. rewrite V2, V1, V0 in H3.
    apply tree_grows_visited; auto.
    + apply payload_set_child4.
    + intros i. rewrite childs_set_child4.
      destruct i as [|[[|[]|]|[|[]|]|]|]; auto;
        (split; [discriminate|]);
        intros path node Hn; destruct pnode as [[]|]; discriminate.
Qed.

End Walk.

Section Visits.
Context `{Collab : Collaborators}.

(** C3, amended.  When the approximate squared distance of the visited
    position exceeds [hires_range_] squared the call returns at once: the
    info record and the queue are unchanged and the pointer [*pnode] is what
    it was.  For a position without a node that means no node is allocated
    ([*pnode] stays [NULL]); for an existing node it means the node is left
    as it is, stamp included. *)
Theorem RecLoadTiles_out_of_range_allocates_nothing
    (fuel : nat) (this : TileManager) (info : RecLoadTilesInfo)
    (queue : list TileTask) (pnode : option QuadNode) (level x y : Z) :
  (hires_range2 this
   < thisdist_of (viewer_pos info) (box_of pnode (mkTileId level x y)))%Q ->
  RecLoadTiles (S fuel) this info queue pnode level x y
  = Some (mkWalk info queue pnode).
Proof.
  intros Hd. change (RecLoadTiles (S fuel) this info queue pnode level x y)
    with (walk_at (S fuel) this info queue pnode (mkTileId level x y)).
  rewrite RecLoadTiles_unfold.
  apply Qgtb_true in Hd. now rewrite Hd.
Qed.

Lemma Qltb_false (a b : Q) : Qltb a b = false <-> (b <= a)%Q.
Proof. apply (Qgtb_false b a). Qed.

Lemma Qltb_true (a b : Q) : Qltb a b = true <-> (a < b)%Q.
Proof. apply (Qgtb_true b a). Qed.

Lemma walk_at_leaf (fuel : nat) (this : TileManager) (info : RecLoadTilesInfo)
    (queue : list TileTask) (pnode : option QuadNode) (id : TileId) :
  (thisdist_of (viewer_pos info) (box_of pnode id) <= hires_range2 this)%Q ->
  id_level id = hires_level_ this ->
  walk_at (S fuel) this info queue pnode id
  = Some (leaf_visit this info queue (visited_node this pnode id)
            (thisdist_of (viewer_pos info) (box_of pnode id)) id).
Proof.
  intros Hd Hl. rewrite RecLoadTiles_unfold.
  apply Qgtb_false in Hd. rewrite Hd.
  apply Z.eqb_eq in Hl. now rewrite Hl.
Qed.

Lemma tile_visited_node (this : TileManager) (pnode : option QuadNode) (id : TileId) :
  tile (visited_node this pnode id) = tile_ptr pnode.
Proof. destruct pnode as [[]|]; reflexivity. Qed.

Lemma bbox_visited_node (this : TileManager) (pnode : option QuadNode) (id : TileId) :
  bbox (visited_node this pnode id) = box_of pnode id.
Proof. destruct pnode as [[]|]; reflexivity. Qed.

(** C5.  In one walk that starts with an empty queue and a fresh info
    record, a first candidate [A] at distance 10 is pushed at the front and
    10 is recorded as the closest distance; a later candidate [B] at distance
    50, which is not less than the recorded 10, is pushed at the back; the
    queue is then [A; B], and the worker's dequeue step takes [A], then [B],
    then finds the queue empty. *)
Theorem admission_order_front_then_back
    (fuel : nat) (this : TileManager) (pos : Vector3i) (uninit : Q)
    (pa pb : option QuadNode) (xa ya xb yb : Z) :
  let A := mkTileId (hires_level_ this) xa ya in
  let B := mkTileId (hires_level_ this) xb yb in
  let taskA := mkTileTask A (box_of pa A) in
  let taskB := mkTileTask B (box_of pb B) in
  (thisdist_of pos (box_of pa A) == 10)%Q ->
  (thisdist_of pos (box_of pb B) == 50)%Q ->
  (50 <= hires_range2 this)%Q ->
  tile_ptr pa = None -> tile_ptr pb = None ->
  TileId_eqb (loading_ this) A = false ->
  TileId_eqb (loading_ this) B = false ->
  exists wA wB,
    walk_at (S fuel) this (RecLoadTilesInfo_new pos uninit) [] pa A = Some wA
    /\ w_queue wA = [taskA]
    /\ closest_distance (w_info wA) = thisdist_of pos (box_of pa A)
    /\ walk_at (S fuel) this (w_info wA) (w_queue wA) pb B = Some wB
    /\ w_queue wB = [taskA; taskB]
    /\ closest_distance (w_info wB) = thisdist_of pos (box_of pa A)
    /\ forall this', queue_ this' = w_queue wB ->
         exists this1 this2,
           Dequeue this' = Some (taskA, this1)
           /\ Dequeue this1 = Some (taskB, this2)
           /\ Dequeue this2 = None.
Proof.
  intros A B taskA taskB Ha Hb Hr Hta Htb Hla Hlb.
  assert (Hra : (thisdist_of pos (box_of pa A) <= hires_range2 this)%Q).
  { rewrite Ha. eapply Qle_trans; [|exact Hr]. discriminate. }
  assert (Hrb : (thisdist_of pos (box_of pb B) <= hires_range2 this)%Q).
  { now rewrite Hb. }
  eexists. eexists. split.
  { apply walk_at_leaf; [exact Hra|reflexivity]. }
  unfold leaf_visit at 1 2 3 4.
  rewrite tile_visited_node, Hta, Hla, bbox_visited_node.
  cbn [negb w_queue w_info incr_queue_size set_closest_distance closest_distance
       RecLoadTilesInfo_new viewer_pos queue_size].
  split; [reflexivity|]. split; [reflexivity|]. split.
  { apply walk_at_leaf; [exact Hrb|reflexivity]. }
  unfold leaf_visit.
  rewrite tile_visited_node, Htb, Hlb, bbox_visited_node.
  cbn [negb w_queue w_info incr_queue_size set_closest_distance closest_distance
       RecLoadTilesInfo_new viewer_pos queue_size].
  assert (Hlt : Qltb (thisdist_of pos (box_of pb B)) (thisdist_of pos (box_of pa A)) = false).
  { apply Qltb_false. rewrite Ha, Hb. discriminate. }
  rewrite Hlt. cbn [Z.add Z.ltb Z.compare Pos.compare Pos.compare_cont app w_queue w_info
                    closest_distance].
  split; [reflexivity|]. split; [reflexivity|].
  intros this' Hq. unfold Dequeue. rewrite Hq.
  eexists. eexists. split; [reflexivity|]. cbn. split; reflexivity.
Qed.

End Visits.

Section Admission.
Context `{Collab : Collaborators}.

(** Within a walk the length of the queue and [queue_size] grow by the same
    number. *)
Lemma queue_grows_length (info : RecLoadTilesInfo) (queue : list TileTask) (w : Walk) :
  queue_grows info queue w ->
  Z.of_nat (length (w_queue w)) - queue_size (w_info w)
  = Z.of_nat (length queue) - queue_size info.
Proof.
  intros (f & b & -> & -> & _). rewrite !length_app. lia.
Qed.

End Admission.

Section Locality.
Context `{Collab : Collaborators}.

Lemma id_level_quadrant (id : TileId) (i : Z) :
  id_level (quadrant id i) = id_level id + 1.
Proof. destruct id. destruct i as [|[[|[]|]|[|[]|]|]|]; reflexivity. Qed.

(** With fuel for every level down to [hires_level_] the walk returns. *)
Lemma walk_at_returns (this : TileManager) (fuel : nat) :
  forall info queue pnode id,
  id_level id <= hires_level_ this ->
  (Z.to_nat (hires_level_ this - id_level id) < fuel)%nat ->
  exists w, walk_at fuel this info queue pnode id = Some w.
Proof.
  induction fuel as [|fuel IH]; intros info queue pnode id Hl Hf; [lia|].
  rewrite RecLoadTiles_unfold.
  destruct (Qgtb _ _); [eauto|].
  destruct (Z.eqb_spec (id_level id) (hires_level_ this)) as [He|Hne]; [eauto|].
  assert (Hc : forall info queue pnode i,
             exists w, walk_at fuel this info queue pnode (quadrant id i) = Some w).
  { intros. apply IH; rewrite id_level_quadrant; lia. }
  unfold visit_childs. cbn [fold_left visit_child w_info w_queue].
  destruct (Hc info queue (childs (visited_node this pnode id) 0) 0) as [w0 ->].
  cbn [visit_child].
  destruct (Hc (w_info w0) (w_queue w0)
              (childs (set_child (visited_node this pnode id) 0 (w_node w0)) 1) 1)
    as [w1 ->].
  cbn [visit_child].
  match goal with
  | |- context [walk_at fuel this ?i ?q ?c (quadrant id 2)] =>
    destruct (Hc i q c 2) as [w2 ->]
  end.
  cbn [visit_child].
  match goal with
  | |- context [walk_at fuel this ?i ?q ?c (quadrant id 3)] =>
    destruct (Hc i q c 3) as [w3 ->]
  end.
  eauto.
Qed.

Lemma LoadLocality_unfold (fuel : nat) (this : TileManager) (pos : Vector3i)
    (flags : Z) (uninit : Q) :
  LoadLocality fuel this pos flags uninit
  = let sync := negb (Z.land flags SYNC =? 0) in
    let queue := if sync then queue_ this else [] in
    match walk_at fuel (set_queue this queue) (RecLoadTilesInfo_new pos uninit)
            queue (Some (root_ this)) (mkTileId 0 0 0) with
    | None => None
    | Some w =>
      let root := match w_node w with
                  | Some r => r
                  | None => root_ this
                  end in
      Some (mkLoaded (set_queue (set_root this root) (w_queue w))
                     (negb sync && negb (match w_queue w with [] => true | _ => false end)))
    end.
Proof.
  unfold LoadLocality, walk_at. cbv zeta.
  destruct (negb (Z.land flags SYNC =? 0)); cbn [negb andb].
  - destruct this; cbn. destruct (RecLoadTiles _ _ _ _ _ _ _ _); reflexivity.
  - destruct this; cbn. destruct (RecLoadTiles _ _ _ _ _ _ _ _); reflexivity.
Qed.

(** The walk from [&root_] leaves a root behind. *)
Lemma walk_keeps_node (this : TileManager) (fuel : nat) info queue node id w :
  walk_at fuel this info queue (Some node) id = Some w ->
  exists node', w_node w = Some node'.
Proof.
  intros Hw. apply walk_tree_grows in Hw. destruct Hw as [_ [_ Hk]].
  specialize (Hk [] node eq_refl). cbn in Hk.
  destruct (w_node w); [eauto|]. cbn in Hk. congruence.
Qed.

(** X1.  With [hires_level_] not negative and fuel for more levels than that,
    [LoadLocality] returns: the recursion of [RecLoadTiles] ends at
    [hires_level_] at the latest. *)
Theorem LoadLocality_returns (fuel : nat) (this : TileManager) (pos : Vector3i)
    (flags : Z) (uninit : Q) :
  0 <= hires_level_ this ->
  (Z.to_nat (hires_level_ this) < fuel)%nat ->
  exists r, LoadLocality fuel this pos flags uninit = Some r.
Proof.
  intros Hl Hf. rewrite LoadLocality_unfold. cbv zeta.
  match goal with
  | |- context [walk_at fuel ?t ?i ?q ?c ?d] =>
    destruct (walk_at_returns t fuel i q c d) as [w ->]
  end; cbn; try lia; eauto.
Qed.

(** C7.  [LoadLocality] without the [SYNC] bit starts its walk on an empty
    queue, so its result does not depend on what the queue held before, and
    it signals the condition variable exactly when the queue is not empty
    after the walk; with the [SYNC] bit it never signals and clears nothing:
    the queue it leaves is the old one with the new tasks around it. *)
Theorem LoadLocality_clears_and_signals_unless_sync
    (fuel : nat) (this : TileManager) (pos : Vector3i) (flags : Z) (uninit : Q)
    (r : Loaded) :
  LoadLocality fuel this pos flags uninit = Some r ->
  (Z.land flags SYNC = 0 ->
     (forall stale,
        LoadLocality fuel (set_queue this stale) pos flags uninit = Some r)
     /\ (exists w,
           walk_at fuel (set_queue this []) (RecLoadTilesInfo_new pos uninit) []
             (Some (root_ this)) (mkTileId 0 0 0) = Some w
           /\ queue_ (l_manager r) = w_queue w)
     /\ l_signalled r = match queue_ (l_manager r) with [] => false | _ => true end)
  /\ (Z.land flags SYNC <> 0 ->
      l_signalled r = false
      /\ exists front back, queue_ (l_manager r) = front ++ queue_ this ++ back).
Proof.
  intros Hr. split; intros Hs.
  - split; [|split].
    + intros stale. rewrite <- Hr. rewrite !LoadLocality_unfold, Hs. reflexivity.
    + rewrite LoadLocality_unfold, Hs in Hr. cbn [Z.eqb negb] in Hr. cbv zeta in Hr.
      destruct (walk_at _ _ _ _ _ _) as [w|]; [|discriminate].
      injection Hr as <-. exists w. auto.
    + rewrite LoadLocality_unfold, Hs in Hr. cbn [Z.eqb negb] in Hr. cbv zeta in Hr.
      destruct (walk_at _ _ _ _ _ _) as [w|]; [|discriminate].
      injection Hr as <-. cbn. destruct (w_queue w); reflexivity.
  - apply Z.eqb_neq in Hs. rewrite LoadLocality_unfold, Hs in Hr.
    cbn [negb] in Hr. cbv zeta in Hr.
    destruct (walk_at _ _ _ _ _ _) as [w|] eqn:Hw; [|discriminate].
    injection Hr as <-. cbn. split; [reflexivity|].
    apply walk_queue_grows in Hw. destruct Hw as (f & b & Hq & _). eauto.
Qed.


End Locality.

Section Wanted.
Context `{Collab : Collaborators}.

Lemma queue_grows_In (info : RecLoadTilesInfo) (queue : list TileTask) (w : Walk)
    (task : TileTask) :
  queue_grows info queue w -> In task queue -> In task (w_queue w).
Proof.
  intros (f & b & -> & _) H. rewrite !in_app_iff. auto.
Qed.

Lemma queue_grows_size (info : RecLoadTilesInfo) (queue : list TileTask) (w : Walk) :
  queue_grows info queue w -> queue_size info <= queue_size (w_info w).
Proof. intros (f & b & _ & -> & _). lia. Qed.

Lemma queue_grows_pos (info : RecLoadTilesInfo) (queue : list TileTask) (w : Walk) :
  queue_grows info queue w -> viewer_pos (w_info w) = viewer_pos info.
Proof. intros (f & b & _ & _ & H & _). exact H. Qed.

(** Every task a call adds to the queue is one the walk wants. *)
Lemma walk_enqueues_only_wanted (this : TileManager) (fuel : nat)
    info queue pnode id w :
  walk_at fuel this info queue pnode id = Some w ->
  forall task, In task (w_queue w) ->
    In task queue
    \/ exists path, wanted this (viewer_pos info) pnode id path
                    /\ task = task_at pnode id path.
Proof.
  revert info queue pnode id w.
  apply (walk_ind this (fun info queue pnode id w =>
    forall task, In task (w_queue w) ->
      In task queue
      \/ exists path, wanted this (viewer_pos info) pnode id path
                      /\ task = task_at pnode id path)).
  - intros info queue pnode id _ task H. auto.
  - intros info queue pnode id Hd Hl task H.
    destruct (leaf_visit_cases this info queue (visited_node this pnode id)
                (thisdist_of (viewer_pos info) (box_of pnode id)) id)
      as [_ [[_ Hq]|(Ht & Hld & Hq)]].
    + rewrite Hq in H. auto.
    + rewrite tile_visited_node in Ht. rewrite bbox_visited_node in Hq.
      assert (Hin : In task queue \/ task = mkTileTask id (box_of pnode id)).
      { destruct Hq as [[_ Hq]|(_ & Hq & _)]; rewrite Hq in H.
        - destruct H as [<-|H]; auto.
        - apply in_app_iff in H. destruct H as [H|[<-|[]]]; auto. }
      destruct Hin as [Hin| ->]; [auto|]. right. exists []. cbn. auto.
  - intros fuel' info queue pnode id w0 w1 w2 w3 Hd Hl E0 E1 E2 E3 H0 H1 H2 H3 task H.
    cbn [w_queue] in H.
    pose proof (queue_grows_pos _ _ _ (walk_queue_grows _ _ _ _ _ _ _ E0)) as V0.
    pose proof (queue_grows_pos _ _ _ (walk_queue_grows _ _ _ _ _ _ _ E1)) as V1.
    pose proof (queue_grows_pos _ _ _ (walk_queue_grows _ _ _ _ _ _ _ E2)) as V2.
    rewrite V0 in H1. rewrite V1, V0 in H2. rewrite V2, V1, V0 in H3.
    assert (Hchild : forall i, 0 <= i <= 3 ->
              (exists path, wanted this (viewer_pos info) (childs_ptr pnode i)
                              (quadrant id i) path
                            /\ task = task_at (childs_ptr pnode i) (quadrant id i) path) ->
              exists path, wanted this (viewer_pos info) pnode id path
                           /\ task = task_at pnode id path).
    { intros i Hi (path & Hw & ->). exists (i :: path). cbn [wanted]. auto. }
    destruct (H3 task H) as [H'|H']; [|right; apply (Hchild 3); [lia|exact H']].
    destruct (H2 task H') as [H''|H'']; [|right; apply (Hchild 2); [lia|exact H'']].
    destruct (H1 task H'') as [H'''|H''']; [|right; apply (Hchild 1); [lia|exact H''']].
    destruct (H0 task H''') as [?|?]; [auto|right; apply (Hchild 0); [lia|assumption]].
Qed.

(** Every task the walk wants is in the queue after the call, unless 100
    tasks have been counted by then. *)
Lemma walk_enqueues_wanted_below_cap (this : TileManager) (fuel : nat)
    info queue pnode id w :
  walk_at fuel this info queue pnode id = Some w ->
  forall path, wanted this (viewer_pos info) pnode id path ->
    In (task_at pnode id path) (w_queue w) \/ 100 <= queue_size (w_info w).
Proof.
  revert info queue pnode id w.
  apply (walk_ind this (fun info queue pnode id w =>
    forall path, wanted this (viewer_pos info) pnode id path ->
      In (task_at pnode id path) (w_queue w) \/ 100 <= queue_size (w_info w))).
  - intros info queue pnode id Hd path Hw.
    destruct path; destruct Hw as [Hr _]; now apply Qlt_not_le in Hd.
  - intros info queue pnode id Hd Hl [|i path] Hw; cbn [wanted] in Hw;
      [|tauto].
    destruct Hw as (_ & _ & Ht & Hld).
    unfold leaf_visit, task_at. cbn [retrace_from fold_left box_at].
    rewrite tile_visited_node, Ht, Hld, bbox_visited_node. cbn [negb].
    destruct queue as [|t0 q]; [cbn; auto|].
    destruct (Qltb _ _); [cbn; auto|].
    destruct (Z.ltb_spec (queue_size info) 100); cbn [w_queue w_info]; [|auto].
    left. apply in_app_iff. cbn. auto.
  - intros fuel' info queue pnode id w0 w1 w2 w3 Hd Hl E0 E1 E2 E3 H0 H1 H2 H3
           [|i path] Hw; cbn [wanted] in Hw; [tauto|].
    destruct Hw as (_ & _ & Hi & Hw). cbn [w_queue w_info].
    pose proof (walk_queue_grows _ _ _ _ _ _ _ E0) as G0.
    pose proof (walk_queue_grows _ _ _ _ _ _ _ E1) as G1.
    pose proof (walk_queue_grows _ _ _ _ _ _ _ E2) as G2.
    pose proof (walk_queue_grows _ _ _ _ _ _ _ E3) as G3.
    pose proof (queue_grows_pos _ _ _ G0) as V0.
    pose proof (queue_grows_pos _ _ _ G1) as V1.
    pose proof (queue_grows_pos _ _ _ G2) as V2.
    pose proof (queue_grows_size _ _ _ G1) as S1.
    pose proof (queue_grows_size _ _ _ G2) as S2.
    pose proof (queue_grows_size _ _ _ G3) as S3.
    rewrite V0 in H1. rewrite V1, V0 in H2. rewrite V2, V1, V0 in H3.
    change (task_at pnode id (i :: path))
      with (task_at (childs_ptr pnode i) (quadrant id i) path).
    assert (Hc : i = 0 \/ i = 1 \/ i = 2 \/ i = 3) by lia.
    destruct Hc as [->|[->|[->| ->]]].
    + destruct (H0 path Hw) as [H|H]; [left|right; lia].
      eauto using queue_grows_In.
    + destruct (H1 path Hw) as [H|H]; [left|right; lia].
      eauto using queue_grows_In.
    + destruct (H2 path Hw) as [H|H]; [left|right; lia].
      eauto using queue_grows_In.
    + destruct (H3 path Hw) as [H|H]; [left|right; lia]. exact H.
Qed.

End Wanted.

(** ** The calls within a walk and the bound on the queue *)

Section Calls.
Context `{Collab : Collaborators}.

(** Once a call has run out of depth the calls after it are not made. *)
Lemma fold_visit_child_None (fuel : nat) (this : TileManager) (id : TileId)
    (l : list Z) :
  fold_left (visit_child fuel this id) l None = None.
Proof. induction l as [|i l IH]; [reflexivity|exact IH]. Qed.

(** The calls for the first children of a node leave the queue grown. *)
Lemma fold_visit_child_grows (fuel : nat) (this : TileManager) (id : TileId)
    (info : RecLoadTilesInfo) (queue : list TileTask) (l : list Z) :
  forall (w0 : Walk) (node0 : QuadNode) (w : Walk) (node : QuadNode),
  fold_left (visit_child fuel this id) l (Some (w0, node0)) = Some (w, node) ->
  queue_grows info queue w0 -> queue_grows info queue w.
Proof.
  induction l as [|i l IH]; intros w0 node0 w node H G.
  - cbn in H. injection H as <- _. exact G.
  - cbn [fold_left visit_child] in H.
    destruct (walk_at fuel this (w_info w0) (w_queue w0) (childs node0 i)
                (quadrant id i)) as [w'|] eqn:E.
    + apply (IH _ _ _ _ H). apply walk_queue_grows in E.
      exact (queue_grows_trans _ _ _ _ (w_node w') G E).
    + rewrite fold_visit_child_None in H. discriminate H.
Qed.

(** The state a recursive call starts in: the queue of the calling call
    with tasks added at its two ends, [queue_size] raised by their number. *)
Lemma child_call_grows (this : TileManager) (v v' : Visit) (i : Z) :
  child_call this v i = Some v' ->
  queue_grows (v_info v) (v_queue v) (mkWalk (v_info v') (v_queue v') None)
  /\ v_fuel v = S (v_fuel v')
  /\ v_id v' = quadrant (v_id v) i.
Proof.
  unfold child_call. destruct (v_fuel v) as [|fuel']; [discriminate|].
  destruct (Qgtb _ _); [discriminate|].
  destruct (id_level (v_id v) =? hires_level_ this); [discriminate|].
  destruct ((0 <=? i) && (i <? 4)); [|discriminate].
  destruct (fold_left _ _ _) as [[w node]|] eqn:E; [|discriminate].
  intros H. injection H as <-. cbn [v_info v_queue v_fuel v_id].
  split; [|split; reflexivity].
  apply (fold_visit_child_grows _ _ _ (v_info v) (v_queue v)) in E.
  - exact E.
  - apply queue_grows_refl.
Qed.

(** So for a call reached along a path: its depth in the recursion is the
    length of the path. *)
Lemma call_at_grows (this : TileManager) (path : list Z) : forall (v v' : Visit),
  call_at this v path = Some v' ->
  queue_grows (v_info v) (v_queue v) (mkWalk (v_info v') (v_queue v') None)
  /\ v_fuel v = (length path + v_fuel v')%nat
  /\ id_level (v_id v') = id_level (v_id v) + Z.of_nat (length path).
Proof.
  induction path as [|i path IH]; intros v v' H.
  - cbn in H. injection H as <-. split; [apply queue_grows_refl|].
    split; [reflexivity|cbn; lia].
  - cbn [call_at] in H. destruct (child_call this v i) as [v1|] eqn:E; [|discriminate].
    apply child_call_grows in E. destruct E as (G1 & F1 & I1).
    apply IH in H. destruct H as (G & F & I).
    split; [|split].
    + exact (queue_grows_trans _ _ _ _ None G1 G).
    + rewrite F1, F. cbn [length]. lia.
    + rewrite I, I1, id_level_quadrant. cbn [length]. lia.
Qed.

(** The recursive calls of one call, in order: the first starts where the
    call stands, each next one where the one before it returned, and the
    call leaves the info record and the queue the last one leaves. *)
Lemma child_call_chain (this : TileManager) (v : Visit) (fuel' : nat) (w : Walk) :
  v_fuel v = S fuel' ->
  (thisdist_of (viewer_pos (v_info v)) (box_of (v_pnode v) (v_id v))
   <= hires_range2 this)%Q ->
  id_level (v_id v) <> hires_level_ this ->
  returned this v = Some w ->
  exists v0 v1 v2 v3 w0 w1 w2 w3,
    child_call this v 0 = Some v0 /\ returned this v0 = Some w0
    /\ child_call this v 1 = Some v1 /\ returned this v1 = Some w1
    /\ child_call this v 2 = Some v2 /\ returned this v2 = Some w2
    /\ child_call this v 3 = Some v3 /\ returned this v3 = Some w3
    /\ (v_info v0, v_queue v0) = (v_info v, v_queue v)
    /\ (v_info v1, v_queue v1) = (w_info w0, w_queue w0)
    /\ (v_info v2, v_queue v2) = (w_info w1, w_queue w1)
    /\ (v_info v3, v_queue v3) = (w_info w2, w_queue w2)
    /\ (w_info w, w_queue w) = (w_info w3, w_queue w3).
Proof.
  intros Hf Hd Hl Hw. unfold returned in Hw. rewrite Hf in Hw.
  rewrite RecLoadTiles_unfold in Hw.
  pose proof (proj2 (Qgtb_false _ _) Hd) as Hd'. rewrite Hd' in Hw.
  apply Z.eqb_neq in Hl. rewrite Hl in Hw.
  apply visit_childs_inv in Hw.
  destruct Hw as (w0 & w1 & w2 & w3 & E0 & E1 & E2 & E3 & ->).
  set (node := visited_node this (v_pnode v) (v_id v)) in *.
  exists (mkVisit fuel' (v_info v) (v_queue v) (childs node 0) (quadrant (v_id v) 0)),
         (mkVisit fuel' (w_info w0) (w_queue w0) (childs node 1) (quadrant (v_id v) 1)),
         (mkVisit fuel' (w_info w1) (w_queue w1) (childs node 2) (quadrant (v_id v) 2)),
         (mkVisit fuel' (w_info w2) (w_queue w2) (childs node 3) (quadrant (v_id v) 3)),
         w0, w1, w2, w3.
  unfold child_call, returned. rewrite Hf, Hd', Hl. fold node.
  change (firstn (Z.to_nat 0) [0; 1; 2; 3]) with (@nil Z).
  change (firstn (Z.to_nat 1) [0; 1; 2; 3]) with [0].
  change (firstn (Z.to_nat 2) [0; 1; 2; 3]) with [0; 1].
  change (firstn (Z.to_nat 3) [0; 1; 2; 3]) with [0; 1; 2].
  cbn [Z.leb Z.ltb Z.compare andb fold_left visit_child w_info w_queue
       v_fuel v_info v_queue v_pnode v_id].
  change (1 <? 4) with true. change (2 <? 4) with true. change (3 <? 4) with true.
  rewrite E0. cbn [visit_child w_info w_queue].
  rewrite !childs_set_child_other by lia.
  rewrite E1. cbn [visit_child w_info w_queue].
  rewrite !childs_set_child_other by lia.
  rewrite E2. cbn [visit_child w_info w_queue].
  rewrite !childs_set_child_other by lia.
  repeat (split; [reflexivity || assumption|]). reflexivity.
Qed.

(** The calls for other children leave a child pointer as it is. *)
Lemma fold_visit_child_childs (fuel : nat) (this : TileManager) (id : TileId)
    (i : Z) (l : list Z) :
  forall (w0 : Walk) (node0 : QuadNode) (w : Walk) (node : QuadNode),
  fold_left (visit_child fuel this id) l (Some (w0, node0)) = Some (w, node) ->
  ~ In i l -> childs node i = childs node0 i.
Proof.
  induction l as [|j l IH]; intros w0 node0 w node H Hi.
  - cbn in H. now injection H as _ <-.
  - cbn [fold_left visit_child] in H.
    destruct (walk_at fuel this (w_info w0) (w_queue w0) (childs node0 j)
                (quadrant id j)) as [w'|].
    + rewrite (IH _ _ _ _ H) by (intros Hin; apply Hi; now right).
      apply childs_set_child_other. intros ->. apply Hi. now left.
    + rewrite fold_visit_child_None in H. discriminate H.
Qed.

(** When the calls for the children return, so does their sequence. *)
Lemma fold_visit_child_returns (fuel : nat) (this : TileManager) (id : TileId)
    (l : list Z) :
  (forall info queue pnode i,
     exists w, walk_at fuel this info queue pnode (quadrant id i) = Some w) ->
  forall (w0 : Walk) (node0 : QuadNode),
  exists w node,
    fold_left (visit_child fuel this id) l (Some (w0, node0)) = Some (w, node).
Proof.
  intros Hc. induction l as [|j l IH]; intros w0 node0; [cbn; eauto|].
  cbn [fold_left visit_child].
  destruct (Hc (w_info w0) (w_queue w0) (childs node0 j) j) as [w' ->].
  apply IH.
Qed.

(** A call that passes the range check above [hires_level_] calls itself
    for each of the four children, on the child pointer as it found it. *)
Lemma child_call_made (this : TileManager) (v : Visit) (i : Z) :
  id_level (v_id v) < hires_level_ this ->
  (Z.to_nat (hires_level_ this - id_level (v_id v)) < v_fuel v)%nat ->
  (thisdist_of (viewer_pos (v_info v)) (box_of (v_pnode v) (v_id v))
   <= hires_range2 this)%Q ->
  0 <= i <= 3 ->
  exists v',
    child_call this v i = Some v'
    /\ S (v_fuel v') = v_fuel v
    /\ viewer_pos (v_info v') = viewer_pos (v_info v)
    /\ v_pnode v' = childs_ptr (v_pnode v) i
    /\ v_id v' = quadrant (v_id v) i.
Proof.
  intros Hl Hf Hd Hi. unfold child_call.
  destruct (v_fuel v) as [|fuel'] eqn:Ef; [lia|].
  rewrite (proj2 (Qgtb_false _ _) Hd).
  destruct (Z.eqb_spec (id_level (v_id v)) (hires_level_ this)) as [He|_]; [lia|].
  replace ((0 <=? i) && (i <? 4)) with true by (symmetry; apply andb_true_iff; lia).
  destruct (fold_visit_child_returns fuel' this (v_id v)
              (firstn (Z.to_nat i) [0; 1; 2; 3])
              (fun info queue pnode j =>
                 walk_at_returns this fuel' info queue pnode (quadrant (v_id v) j)
                   ltac:(rewrite id_level_quadrant; lia)
                   ltac:(rewrite id_level_quadrant; lia))
              (mkWalk (v_info v) (v_queue v) None)
              (visited_node this (v_pnode v) (v_id v)))
    as (w & node & E).
  rewrite E. eexists. split; [reflexivity|]. cbn [v_fuel v_info v_pnode v_id].
  split; [reflexivity|]. split; [|split; [|reflexivity]].
  - apply (fold_visit_child_grows _ _ _ (v_info v) (v_queue v)) in E;
      [|apply queue_grows_refl].
    exact (queue_grows_pos _ _ _ E).
  - rewrite (fold_visit_child_childs _ _ _ i _ _ _ _ _ E), childs_visited_node;
      [reflexivity|].
    assert (Hc : i = 0 \/ i = 1 \/ i = 2 \/ i = 3) by lia.
    destruct Hc as [->|[->|[->| ->]]]; vm_compute; intros H;
      repeat (destruct H as [H|H]; [discriminate H|]); exact H.
Qed.

(** Every tile the walk wants is the candidate of one of its calls: the call
    reached along the path to the tile. *)
Lemma call_at_wanted (this : TileManager) (path : list Z) : forall (v0 : Visit),
  id_level (v_id v0) <= hires_level_ this ->
  (Z.to_nat (hires_level_ this - id_level (v_id v0)) < v_fuel v0)%nat ->
  wanted this (viewer_pos (v_info v0)) (v_pnode v0) (v_id v0) path ->
  exists v,
    call_at this v0 path = Some v
    /\ v_id v = retrace_from (v_id v0) path
    /\ viewer_pos (v_info v) = viewer_pos (v_info v0)
    /\ id_level (v_id v) = hires_level_ this
    /\ (thisdist_of (viewer_pos (v_info v0)) (box_of (v_pnode v) (v_id v))
        <= hires_range2 this)%Q
    /\ tile_ptr (v_pnode v) = None
    /\ TileId_eqb (loading_ this) (v_id v) = false.
Proof.
  induction path as [|i path IH]; intros v0 Hl Hf Hw; cbn [wanted] in Hw.
  - destruct Hw as (Hd & He & Ht & Hld). exists v0. cbn. auto 8.
  - destruct Hw as (Hd & Hne & Hi & Hw).
    destruct (child_call_made this v0 i) as (v1 & E & F1 & P1 & N1 & I1);
      [lia|exact Hf|exact Hd|exact Hi|].
    rewrite <- P1, <- N1, <- I1 in Hw.
    destruct (IH v1) as (v & Hv & Hid & Hp & rest); [| |exact Hw|].
    + rewrite I1, id_level_quadrant. lia.
    + rewrite I1, id_level_quadrant. lia.
    + exists v. cbn [call_at]. rewrite E. split; [exact Hv|].
      split; [rewrite Hid, I1; reflexivity|].
      split; [congruence|]. rewrite <- P1. exact rest.
Qed.

(** C6.  Any call for a candidate within the walk of [LoadLocality]: a call
    reached from the call on [&root_] along recursive calls, for a tile at
    [hires_level_] that is in range, holds no tile and is not being loaded.
    The queue this call finds is the queue the walk started on with tasks
    added at its two ends, and [queue_size] is their number, the number of
    tasks enqueued so far in the walk.  If the candidate is not closer than
    the recorded closest distance, it is pushed at the back while that
    number is below 100, and dropped once it has reached 100: the call
    returns normally and leaves the queue and the info record as they were.
    If the queue is empty or the candidate is strictly closer, it is pushed
    at the front whatever the number is. *)
Theorem back_admission_capped_at_100
    (fuel : nat) (this : TileManager) (pos : Vector3i) (flags : Z) (uninit : Q)
    (path : list Z) (v : Visit) :
  let queue0 := if negb (Z.land flags SYNC =? 0) then queue_ this else [] in
  let this0 := set_queue this queue0 in
  let enqueued := Z.of_nat (length (v_queue v)) - Z.of_nat (length queue0) in
  let d := thisdist_of pos (box_of (v_pnode v) (v_id v)) in
  let node := visited_node this0 (v_pnode v) (v_id v) in
  let task := mkTileTask (v_id v) (box_of (v_pnode v) (v_id v)) in
  (Z.to_nat (hires_level_ this0) < fuel)%nat ->
  call_at this0
    (mkVisit fuel (RecLoadTilesInfo_new pos uninit) queue0 (Some (root_ this))
       (mkTileId 0 0 0))
    path = Some v ->
  id_level (v_id v) = hires_level_ this0 ->
  (d <= hires_range2 this0)%Q ->
  tile_ptr (v_pnode v) = None ->
  TileId_eqb (loading_ this0) (v_id v) = false ->
  (exists front back,
     v_queue v = front ++ queue0 ++ back
     /\ queue_size (v_info v) = Z.of_nat (length front + length back)
     /\ queue_size (v_info v) = enqueued)
  /\ (v_queue v <> [] -> (closest_distance (v_info v) <= d)%Q -> enqueued < 100 ->
      returned this0 v
      = Some (mkWalk (incr_queue_size (v_info v)) (v_queue v ++ [task]) (Some node)))
  /\ ((closest_distance (v_info v) <= d)%Q -> 100 <= enqueued ->
      returned this0 v = Some (mkWalk (v_info v) (v_queue v) (Some node)))
  /\ (v_queue v = [] \/ (d < closest_distance (v_info v))%Q ->
      returned this0 v
      = Some (mkWalk (incr_queue_size (set_closest_distance (v_info v) d))
                     (task :: v_queue v) (Some node))).
Proof.
  intros queue0 this0 enqueued d node task Hfuel Hv Hl Hd Ht Hld.
  destruct (call_at_grows _ _ _ _ Hv) as ((front & back & Hq & Hs & Hp & _) & Hf & Hi).
  cbn [w_info w_queue v_info v_queue v_fuel v_id id_level queue_size viewer_pos
       RecLoadTilesInfo_new] in Hq, Hs, Hp, Hf, Hi.
  assert (Hn : queue_size (v_info v) = enqueued).
  { unfold enqueued. rewrite Hs, Hq, !length_app. lia. }
  assert (Hk : exists k, v_fuel v = S k).
  { destruct (v_fuel v) as [|k]; [|eauto]. rewrite Hl in Hi. lia. }
  destruct Hk as [k Hk].
  split; [exists front, back; auto|].
  unfold returned. rewrite Hk, walk_at_leaf by (rewrite ?Hp; auto).
  unfold leaf_visit. rewrite tile_visited_node, Ht, bbox_visited_node, Hld, Hp, Hn.
  cbn [negb]. fold d node task.
  split; [|split].
  - intros Hne Hc Hlt. destruct (v_queue v) as [|t0 q]; [congruence|].
    apply Qltb_false in Hc. rewrite Hc.
    apply Z.ltb_lt in Hlt. now rewrite Hlt.
  - intros Hc Hge. destruct (v_queue v) as [|t0 q].
    + unfold enqueued in Hge. cbn [length] in Hge. lia.
    + apply Qltb_false in Hc. rewrite Hc.
      apply Z.ltb_ge in Hge. now rewrite Hge.
  - intros Hc. destruct (v_queue v) as [|t0 q]; [reflexivity|].
    destruct Hc as [Hc|Hc]; [discriminate Hc|].
    apply Qltb_true in Hc. now rewrite Hc.
Qed.

End Calls.

Section Coordinates.
Context `{Collab : Collaborators}.

Lemma retrace_from_level (path : list Z) (id : TileId) :
  id_level (retrace_from id path) = id_level id + Z.of_nat (length path).
Proof.
  revert id. induction path as [|i path IH]; intros id.
  - cbn. lia.
  - change (retrace_from id (i :: path)) with (retrace_from (quadrant id i) path).
    rewrite IH, id_level_quadrant. cbn [length]. lia.
Qed.

Lemma length_place_path (n : nat) (x y : Z) : length (place_path n x y) = n.
Proof. induction n; cbn [place_path length]; congruence. Qed.

Lemma place_path_valid (n : nat) (x y : Z) : Forall valid_index (place_path n x y).
Proof.
  induction n; cbn [place_path]; constructor; auto. apply nchild_range.
Qed.

(** A valid index is two bits. *)
Lemma valid_index_bits (i : Z) :
  valid_index i ->
  exists by_ bx : bool, i = 2 * Z.b2z by_ + Z.b2z bx.
Proof.
  intros Hi. assert (H : i = 0 \/ i = 1 \/ i = 2 \/ i = 3) by (unfold valid_index in Hi; lia).
  destruct H as [->|[->|[->| ->]]].
  - now exists false, false.
  - now exists false, true.
  - now exists true, false.
  - now exists true, true.
Qed.

(** The tile a path of valid indices leads to, and the way back: the
    placement path of that tile is the path itself. *)
Lemma place_path_retrace_from (path : list Z) : forall id,
  Forall valid_index path ->
  let n := Z.of_nat (length path) in
  exists lx ly,
    0 <= lx < 2 ^ n /\ 0 <= ly < 2 ^ n
    /\ retrace_from id path
       = mkTileId (id_level id + n) (id_x id * 2 ^ n + lx) (id_y id * 2 ^ n + ly)
    /\ place_path (length path) (id_x id * 2 ^ n + lx) (id_y id * 2 ^ n + ly) = path.
Proof.
  induction path as [|i path IH]; intros id Hv n; subst n.
  - exists 0, 0. destruct id. cbn. repeat split; try lia; f_equal; lia.
  - inversion Hv as [|? ? Hi Hv']; subst.
    destruct (valid_index_bits i Hi) as (by_ & bx & ->).
    change (retrace_from id (2 * Z.b2z by_ + Z.b2z bx :: path))
      with (retrace_from (quadrant id (2 * Z.b2z by_ + Z.b2z bx)) path).
    rewrite quadrant_bits.
    destruct (IH (mkTileId (id_level id + 1) (id_x id * 2 + Z.b2z bx)
                           (id_y id * 2 + Z.b2z by_)) Hv')
      as (lx & ly & Hlx & Hly & Hr & Hp).
    cbn [id_level id_x id_y] in Hr, Hp.
    set (m := Z.of_nat (length path)) in *.
    assert (Hm : 0 <= m) by (subst m; lia).
    assert (Hpow : 2 ^ Z.of_nat (length (2 * Z.b2z by_ + Z.b2z bx :: path)) = 2 * 2 ^ m).
    { cbn [length]. rewrite Nat2Z.inj_succ. fold m. rewrite Z.pow_succ_r by lia. reflexivity. }
    rewrite Hpow.
    assert (H2m : 0 < 2 ^ m) by (apply Z.pow_pos_nonneg; lia).
    exists (Z.b2z bx * 2 ^ m + lx), (Z.b2z by_ * 2 ^ m + ly).
    assert (Ex : id_x id * (2 * 2 ^ m) + (Z.b2z bx * 2 ^ m + lx)
                 = (id_x id * 2 + Z.b2z bx) * 2 ^ m + lx) by lia.
    assert (Ey : id_y id * (2 * 2 ^ m) + (Z.b2z by_ * 2 ^ m + ly)
                 = (id_y id * 2 + Z.b2z by_) * 2 ^ m + ly) by lia.
    rewrite Ex, Ey.
    split; [destruct bx; cbn [Z.b2z]; lia|].
    split; [destruct by_; cbn [Z.b2z]; lia|].
    split.
    + rewrite Hr. f_equal. cbn [length]. lia.
    + cbn [length place_path]. rewrite Hp. f_equal.
      rewrite nchild_bits by lia.
      replace (Z.of_nat (S (length path)) - 1) with m by (subst m; lia).
      rewrite (Z.testbit_unique ((id_x id * 2 + Z.b2z bx) * 2 ^ m + lx)
                 m bx lx (id_x id)) by (lia || ring).
      rewrite (Z.testbit_unique ((id_y id * 2 + Z.b2z by_) * 2 ^ m + ly)
                 m by_ ly (id_y id)) by (lia || ring).
      reflexivity.
Qed.

Lemma place_path_retrace (path : list Z) :
  Forall valid_index path ->
  let id := retrace path in
  id_level id = Z.of_nat (length path)
  /\ 0 <= id_x id < 2 ^ id_level id
  /\ 0 <= id_y id < 2 ^ id_level id
  /\ place_path (length path) (id_x id) (id_y id) = path.
Proof.
  intros Hv id.
  destruct (place_path_retrace_from path (mkTileId 0 0 0) Hv)
    as (lx & ly & Hlx & Hly & Hr & Hp).
  cbn [id_level id_x id_y] in Hr, Hp. rewrite !Z.mul_0_l, !Z.add_0_l in Hr, Hp.
  subst id. unfold retrace. rewrite Hr. cbn [id_level id_x id_y]. auto.
Qed.

(** The first [k] steps of a placement path are the placement path of the
    tile's ancestor of level [k]. *)
Lemma firstn_place_path (n k : nat) (x y : Z) :
  (k <= n)%nat ->
  firstn k (place_path n x y)
  = place_path k (x / 2 ^ Z.of_nat (n - k)) (y / 2 ^ Z.of_nat (n - k)).
Proof.
  revert n. induction k as [|k IH]; intros n Hk; [reflexivity|].
  destruct n as [|n]; [lia|].
  cbn [place_path firstn]. rewrite IH by lia.
  replace (S n - S k)%nat with (n - k)%nat by lia. f_equal.
  rewrite !nchild_bits by lia.
  rewrite !Z.div_pow2_bits by lia.
  replace (Z.of_nat (S k) - 1 + Z.of_nat (n - k)) with (Z.of_nat (S n) - 1) by lia.
  reflexivity.
Qed.

Lemma retrace_firstn_place_path (id : TileId) (k : nat) :
  0 <= id_level id ->
  0 <= id_x id < 2 ^ id_level id ->
  0 <= id_y id < 2 ^ id_level id ->
  (k <= Z.to_nat (id_level id))%nat ->
  retrace (firstn k (place_path (Z.to_nat (id_level id)) (id_x id) (id_y id)))
  = ancestor id (Z.of_nat k).
Proof.
  intros Hl Hx Hy Hk. rewrite firstn_place_path by lia.
  unfold retrace. rewrite retrace_from_place_path. unfold ancestor.
  cbn [id_level id_x id_y].
  replace (Z.of_nat (Z.to_nat (id_level id) - k)) with (id_level id - Z.of_nat k) by lia.
  assert (Hdiv : forall a, 0 <= a < 2 ^ id_level id ->
            0 <= a / 2 ^ (id_level id - Z.of_nat k) < 2 ^ Z.of_nat k).
  { intros a Ha. split; [apply Z.div_pos; [lia|apply Z.pow_pos_nonneg; lia]|].
    apply Z.div_lt_upper_bound; [apply Z.pow_pos_nonneg; lia|].
    rewrite <- Z.pow_add_r by lia.
    replace (id_level id - Z.of_nat k + Z.of_nat k) with (id_level id) by lia. lia. }
  rewrite !Z.mod_small by auto. f_equal.
Qed.

End Coordinates.

Section Queue_contents.
Context `{Collab : Collaborators}.

(** [wanted] read along the path: every box on the way is in range, the
    path ends at [hires_level_], the node at its end holds no tile, and the
    tile at its end is not being loaded. *)
Lemma wanted_iff (this : TileManager) (pos : Vector3i) (path : list Z) :
  forall pnode id,
  wanted this pos pnode id path
  <-> (forall k, (k <= length path)%nat ->
         (thisdist_of pos (box_at pnode id (firstn k path)) <= hires_range2 this)%Q)
      /\ Forall valid_index path
      /\ id_level id + Z.of_nat (length path) = hires_level_ this
      /\ (forall node, descend_ptr pnode path = Some node -> tile node = None)
      /\ TileId_eqb (loading_ this) (retrace_from id path) = false.
Proof.
  induction path as [|i path IH]; intros pnode id; cbn [wanted].
  - split.
    + intros (Hd & Hl & Ht & Hld). split; [|split; [|split; [|split]]]; auto.
      * intros k Hk. destruct k; [exact Hd|cbn in Hk; lia].
      * cbn. lia.
      * intros node Hn. destruct pnode as [n|]; [|discriminate].
        cbn in Hn, Ht. congruence.
    + intros (Hd & _ & Hl & Ht & Hld). split; [|split; [|split]]; auto.
      * apply (Hd O). cbn. lia.
      * cbn in Hl. lia.
      * destruct pnode as [n|]; [|reflexivity]. apply (Ht n). reflexivity.
  - rewrite IH. rewrite id_level_quadrant. cbn [length].
    rewrite (descend_ptr_cons pnode i path).
    change (retrace_from id (i :: path)) with (retrace_from (quadrant id i) path).
    split.
    + intros (Hd & Hl & Hi & Hk & Hv & Hlen & Ht & Hld).
      split; [|split; [|split; [|split]]]; auto; try lia.
      intros [|k] Hle; [exact Hd|]. apply Hk. lia.
    + intros (Hk & Hv & Hlen & Ht & Hld).
      inversion Hv as [|? ? Hi Hv']; subst.
      split; [apply (Hk O); lia|]. split; [lia|]. split; [exact Hi|].
      split; [|split; [|split; [|split]]]; auto; try lia.
      intros k Hle. apply (Hk (S k)). lia.
Qed.

(** The checks of the walk do not read the queue stored in the manager. *)
Lemma wanted_set_queue (this : TileManager) (q : list TileTask) (pos : Vector3i)
    (path : list Z) : forall pnode id,
  wanted (set_queue this q) pos pnode id path <-> wanted this pos pnode id path.
Proof.
  induction path as [|i path IH]; intros pnode id; cbn [wanted].
  - reflexivity.
  - rewrite IH. reflexivity.
Qed.

Lemma well_addressed_childs (pnode : option QuadNode) (id : TileId) (i : Z) :
  well_addressed pnode id -> well_addressed (childs_ptr pnode i) (quadrant id i).
Proof.
  intros H path node Hn. rewrite <- descend_ptr_cons in Hn. exact (H _ _ Hn).
Qed.

Lemma box_at_well_addressed (path : list Z) : forall pnode id,
  well_addressed pnode id ->
  box_at pnode id path = box_of None (retrace_from id path).
Proof.
  induction path as [|i path IH]; intros pnode id H.
  - cbn. destruct pnode as [n|]; [|reflexivity]. exact (H [] n eq_refl).
  - cbn [box_at]. rewrite IH by now apply well_addressed_childs. reflexivity.
Qed.

Lemma box_at_root (this : TileManager) (path : list Z) :
  well_formed this ->
  box_at (Some (root_ this)) (mkTileId 0 0 0) path = tile_box this (retrace path).
Proof.
  intros H. unfold tile_box, retrace.
  destruct path as [|i path]; [reflexivity|].
  cbn [box_at childs_ptr].
  rewrite box_at_well_addressed by apply H.
  change (retrace_from (quadrant (mkTileId 0 0 0) i) path)
    with (retrace_from (mkTileId 0 0 0) (i :: path)).
  destruct (Z.eqb_spec (id_level (retrace_from (mkTileId 0 0 0) (i :: path))) 0)
    as [E|_]; [|reflexivity].
  rewrite retrace_from_level in E. cbn [id_level length] in E. lia.
Qed.

(** The walk keeps the tree well addressed. *)
Lemma tree_grows_well_addressed (this : TileManager) (pos : Vector3i)
    (pnode pnode' : option QuadNode) (id : TileId) :
  tree_grows this pos pnode id pnode' ->
  well_addressed pnode id -> well_addressed pnode' id.
Proof.
  intros [Hg _] H path node' Hn'. specialize (Hg path node' Hn').
  destruct (descend_ptr pnode path) as [node|] eqn:Hn.
  - destruct Hg as [-> _]. exact (H _ _ Hn).
  - destruct Hg as (_ & _ & -> & _). reflexivity.
Qed.

(** [LoadLocality] keeps the tree well addressed. *)
Theorem LoadLocality_well_formed (fuel : nat) (this : TileManager) (pos : Vector3i)
    (flags : Z) (uninit : Q) (r : Loaded) :
  well_formed this ->
  LoadLocality fuel this pos flags uninit = Some r ->
  well_formed (l_manager r).
Proof.
  intros H Hr. rewrite LoadLocality_unfold in Hr. cbv zeta in Hr.
  destruct (walk_at _ _ _ _ _ _) as [w|] eqn:Hw; [|discriminate].
  injection Hr as <-. cbn.
  destruct (walk_keeps_node _ _ _ _ _ _ _ Hw) as [root' Hroot]. rewrite Hroot.
  apply walk_tree_grows in Hw. destruct Hw as [_ [Hg _]]. rewrite Hroot in Hg.
  intros i path node' Hn'.
  specialize (Hg (i :: path) node'). cbn [descend_ptr descend] in Hg.
  change (descend_ptr (childs root' i) path = Some node') in Hn'.
  destruct (childs root' i) as [c'|]; [|discriminate].
  specialize (Hg Hn').
  destruct (childs (root_ this) i) as [c|] eqn:Hc.
  - destruct (descend c path) as [node|] eqn:Hd.
    + destruct Hg as [-> _]. apply (H i path). rewrite Hc. exact Hd.
    + destruct Hg as (_ & _ & -> & _). reflexivity.
  - destruct Hg as (_ & _ & -> & _). reflexivity.
Qed.

Lemma TileId_eqb_eq (a b : TileId) : TileId_eqb a b = true <-> a = b.
Proof.
  destruct a, b. unfold TileId_eqb. cbn.
  rewrite !andb_true_iff, !Z.eqb_eq. split.
  - intros [[-> ->] ->]. reflexivity.
  - intros [= -> -> ->]. auto.
Qed.

Lemma TileId_eqb_neq (a b : TileId) : TileId_eqb a b = false <-> a <> b.
Proof.
  rewrite <- TileId_eqb_eq. destruct (TileId_eqb a b); split; congruence.
Qed.

Lemma leaf_tile_level_nonneg (this : TileManager) (id : TileId) :
  leaf_tile this id -> 0 <= id_level id.
Proof.
  intros (_ & Hx & _). destruct (Z.lt_ge_cases (id_level id) 0) as [Hneg|]; [|lia].
  rewrite Z.pow_neg_r in Hx by lia. lia.
Qed.

Lemma ancestor_self (id : TileId) : ancestor id (id_level id) = id.
Proof.
  destruct id as [l x y]. unfold ancestor. cbn [id_level id_x id_y].
  rewrite Z.sub_diag, !Z.div_1_r. reflexivity.
Qed.

(** When the distance of the viewer to a tile's box is never less than the
    distance to the box of the tile above it - as for a box that lies inside
    the box above - a tile in range is reachable: being reachable is then
    the same as being in range. *)
Lemma reachable_of_in_range (this : TileManager) (pos : Vector3i) (id : TileId) :
  (forall k, 0 <= k < id_level id ->
     (thisdist_of pos (tile_box this (ancestor id k))
      <= thisdist_of pos (tile_box this (ancestor id (k + 1))))%Q) ->
  (thisdist_of pos (tile_box this id) <= hires_range2 this)%Q ->
  reachable this pos id.
Proof.
  intros Hmono Hin.
  assert (H : forall n : nat, Z.of_nat n <= id_level id ->
            (thisdist_of pos (tile_box this (ancestor id (id_level id - Z.of_nat n)))
             <= hires_range2 this)%Q).
  { induction n as [|n IH]; intros Hn.
    - rewrite Z.sub_0_r, ancestor_self. exact Hin.
    - eapply Qle_trans; [apply Hmono; lia|].
      replace (id_level id - Z.of_nat (S n) + 1) with (id_level id - Z.of_nat n) by lia.
      apply IH. lia. }
  intros k Hk.
  replace k with (id_level id - Z.of_nat (Z.to_nat (id_level id - k))) by lia.
  apply H. lia.
Qed.

(** Seen from the root, the tiles the walk wants are the leaf tiles that are
    reachable, not resident and not being loaded. *)
Lemma wanted_root (this : TileManager) (pos : Vector3i) (path : list Z) :
  well_formed this ->
  wanted this pos (Some (root_ this)) (mkTileId 0 0 0) path
  <-> Forall valid_index path
      /\ leaf_tile this (retrace path)
      /\ reachable this pos (retrace path)
      /\ ~ resident this (retrace path)
      /\ loading_ this <> retrace path.
Proof.
  intros WF. rewrite wanted_iff. fold (retrace path). rewrite TileId_eqb_neq.
  cbn [id_level descend_ptr].
  split.
  - intros (Hk & Hv & Hlen & Ht & Hld).
    destruct (place_path_retrace path Hv) as (Hl & Hx & Hy & Hp).
    assert (Hleaf : leaf_tile this (retrace path)) by (split; [lia|auto]).
    split; [exact Hv|]. split; [exact Hleaf|]. split; [|split; [|exact Hld]].
    + intros k Hkr.
      rewrite <- (Z2Nat.id k) by lia.
      rewrite <- retrace_firstn_place_path by lia.
      rewrite Hl, Nat2Z.id, Hp. rewrite <- box_at_root by exact WF.
      apply Hk. lia.
    + intros (node & t & Hn & Htile).
      rewrite Hl, Nat2Z.id, Hp in Hn. apply Ht in Hn. congruence.
  - intros (Hv & Hleaf & Hreach & Hres & Hld).
    destruct (place_path_retrace path Hv) as (Hl & Hx & Hy & Hp).
    split; [|split; [exact Hv|split; [|split; [|exact Hld]]]].
    + intros k Hk. rewrite box_at_root by exact WF.
      rewrite <- Hp at 1. rewrite <- (Nat2Z.id (length path)), <- Hl.
      rewrite retrace_firstn_place_path by lia.
      apply Hreach. lia.
    + destruct Hleaf as (<- & _). lia.
    + intros node Hn. destruct (tile node) as [t|] eqn:Htile; [|reflexivity].
      exfalso. apply Hres. exists node, t. split; [|exact Htile].
      now rewrite Hl, Nat2Z.id, Hp.
Qed.

(** C1, amended.  After [LoadLocality] without [SYNC] on a well addressed
    tree, every task in the queue is for a leaf tile of the grid, carries
    that tile's box, and the tile is reachable (its box and the box of every
    tile above it pass the range check), not resident (the node placement
    would reach holds no tile) and not the one being loaded.  Conversely,
    when the call leaves fewer than 100 tasks in the queue - the bound on
    [queue_size] was not reached - every such leaf tile has its task in the
    queue.  (Where distances do not shrink from a box to a box inside it, a
    leaf tile in range is reachable: [reachable_of_in_range].) *)
Theorem LoadLocality_queue_contents
    (fuel : nat) (this : TileManager) (pos : Vector3i) (flags : Z) (uninit : Q)
    (r : Loaded) :
  well_formed this ->
  Z.land flags SYNC = 0 ->
  LoadLocality fuel this pos flags uninit = Some r ->
  (forall task, In task (queue_ (l_manager r)) ->
     leaf_tile this (task_id task)
     /\ task_bbox task = tile_box this (task_id task)
     /\ reachable this pos (task_id task)
     /\ ~ resident this (task_id task)
     /\ loading_ this <> task_id task)
  /\ ((length (queue_ (l_manager r)) < 100)%nat ->
      forall id,
        leaf_tile this id ->
        reachable this pos id ->
        ~ resident this id ->
        loading_ this <> id ->
        In (mkTileTask id (tile_box this id)) (queue_ (l_manager r))).
Proof.
  intros WF Hs Hr. rewrite LoadLocality_unfold, Hs in Hr.
  cbn [Z.eqb negb] in Hr. cbv zeta in Hr.
  destruct (walk_at _ _ _ _ _ _) as [w|] eqn:Hw; [|discriminate].
  injection Hr as <-. cbn [l_manager queue_ set_queue].
  split.
  - intros task Hin.
    destruct (walk_enqueues_only_wanted _ _ _ _ _ _ _ Hw task Hin)
      as [[]|(path & Hwant & ->)].
    cbn [viewer_pos RecLoadTilesInfo_new] in Hwant.
    apply wanted_set_queue, (wanted_root this pos path WF) in Hwant.
    destruct Hwant as (_ & Hleaf & Hreach & Hres & Hld).
    unfold task_at. cbn [task_id task_bbox]. fold (retrace path).
    rewrite (box_at_root this path WF). auto.
  - intros Hlen id Hleaf Hreach Hres Hld.
    pose proof (leaf_tile_level_nonneg this id Hleaf) as Hnn.
    set (path := place_path (Z.to_nat (id_level id)) (id_x id) (id_y id)).
    assert (Hid : retrace path = id).
    { subst path. destruct Hleaf as (_ & Hx & Hy).
      rewrite retrace_place_path by lia. now destruct id. }
    assert (Hwant : wanted (set_queue this []) pos (Some (root_ this))
                      (mkTileId 0 0 0) path).
    { apply wanted_set_queue, (wanted_root this pos path WF). rewrite Hid.
      split; [apply place_path_valid|auto]. }
    destruct (walk_enqueues_wanted_below_cap _ _ _ _ _ _ _ Hw path Hwant)
      as [Hin|Hcap].
    + unfold task_at in Hin. fold (retrace path) in Hin.
      now rewrite (box_at_root this path WF), Hid in Hin.
    + apply walk_queue_grows, queue_grows_length in Hw.
      cbn [length queue_size RecLoadTilesInfo_new] in Hw. lia.
Qed.

End Queue_contents.

Section Same_node.
Context `{Collab : Collaborators}.

(** Every task a call adds to the queue has its node in the tree the call
    leaves behind, at the end of the path the walk took to it. *)
Lemma walk_enqueued_node (this : TileManager) (fuel : nat)
    info queue pnode id w :
  walk_at fuel this info queue pnode id = Some w ->
  forall task, In task (w_queue w) ->
    In task queue
    \/ exists path node',
         Forall valid_index path
         /\ task = task_at pnode id path
         /\ descend_ptr (w_node w) path = Some node'
         /\ payload node' = (task_bbox task, None, generation_ this).
Proof.
  revert info queue pnode id w.
  apply (walk_ind this (fun info queue pnode id w =>
    forall task, In task (w_queue w) ->
      In task queue
      \/ exists path node',
           Forall valid_index path
           /\ task = task_at pnode id path
           /\ descend_ptr (w_node w) path = Some node'
           /\ payload node' = (task_bbox task, None, generation_ this))).
  - intros info queue pnode id _ task H. auto.
  - intros info queue pnode id Hd Hl task H.
    destruct (leaf_visit_cases this info queue (visited_node this pnode id)
                (thisdist_of (viewer_pos info) (box_of pnode id)) id)
      as [Hn [[_ Hq]|(Ht & Hld & Hq)]].
    + rewrite Hq in H. auto.
    + rewrite tile_visited_node in Ht. rewrite bbox_visited_node in Hq.
      assert (Hin : In task queue \/ task = mkTileTask id (box_of pnode id)).
      { destruct Hq as [[_ Hq]|(_ & Hq & _)]; rewrite Hq in H.
        - destruct H as [<-|H]; auto.
        - apply in_app_iff in H. destruct H as [H|[<-|[]]]; auto. }
      destruct Hin as [Hin| ->]; [auto|]. right.
      exists [], (visited_node this pnode id). rewrite Hn.
      split; [constructor|]. split; [reflexivity|]. split; [reflexivity|].
      rewrite payload_visited_node, Ht. reflexivity.
  - intros fuel' info queue pnode id w0 w1 w2 w3 Hd Hl E0 E1 E2 E3 H0 H1 H2 H3 task H.
    cbn [w_queue w_node] in H |- *.
    assert (Hchild : forall i wi, 0 <= i <= 3 ->
              childs (set_child (set_child (set_child (set_child
                        (visited_node this pnode id)
                        0 (w_node w0)) 1 (w_node w1)) 2 (w_node w2)) 3 (w_node w3)) i
              = w_node wi ->
              (exists path node',
                 Forall valid_index path
                 /\ task = task_at (childs_ptr pnode i) (quadrant id i) path
                 /\ descend_ptr (w_node wi) path = Some node'
                 /\ payload node' = (task_bbox task, None, generation_ this)) ->
              exists path node',
                Forall valid_index path
                /\ task = task_at pnode id path
                /\ descend_ptr (Some (set_child (set_child (set_child (set_child
                        (visited_node this pnode id)
                        0 (w_node w0)) 1 (w_node w1)) 2 (w_node w2)) 3 (w_node w3)))
                     path = Some node'
                /\ payload node' = (task_bbox task, None, generation_ this)).
    { intros i wi Hi Hc (path & node' & Hv & -> & Hn & Hp).
      exists (i :: path), node'. split; [constructor; auto|].
      split; [reflexivity|]. split; [|exact Hp].
      rewrite descend_ptr_cons. cbn [childs_ptr]. now rewrite Hc. }
    destruct (H3 task H) as [H'|H'];
      [|right; apply (Hchild 3 w3); [lia|apply childs_set_child4|exact H']].
    destruct (H2 task H') as [H''|H''];
      [|right; apply (Hchild 2 w2); [lia|apply childs_set_child4|exact H'']].
    destruct (H1 task H'') as [H'''|H'''];
      [|right; apply (Hchild 1 w1); [lia|apply childs_set_child4|exact H''']].
    destruct (H0 task H''') as [?|?];
      [auto|right; apply (Hchild 0 w0); [lia|apply childs_set_child4|assumption]].
Qed.

(** C8.  For [0 <= x, y < 2^level] the path [RecPlaceTile] descends for
    [(level, x, y)], retraced with the quadrant refinement of the walk, gives
    back [(level, x, y)], and it is the only path of valid indices that does.
    The walk and the placement therefore meet at the same node: a task the
    walk enqueued for [(level, x, y)] has its node, with the task's box and
    the current stamp, at the end of the placement path, and [PlaceTile]
    attaches the loaded tile to exactly that node. *)
Theorem round_trip_addressing (level x y : Z) :
  0 <= level -> 0 <= x < 2 ^ level -> 0 <= y < 2 ^ level ->
  let path := place_path (Z.to_nat level) x y in
  retrace path = mkTileId level x y
  /\ (forall path', Forall valid_index path' ->
        retrace path' = mkTileId level x y -> path' = path)
  /\ (forall fuel this pos flags uninit r box,
        LoadLocality fuel this pos flags uninit = Some r ->
        Z.land flags SYNC = 0 ->
        In (mkTileTask (mkTileId level x y) box) (queue_ (l_manager r)) ->
        exists node,
          descend (root_ (l_manager r)) path = Some node
          /\ payload node = (box, None, generation_ this)
          /\ forall t, exists root',
               PlaceTile (l_manager r) t (mkTileId level x y)
               = (set_root (l_manager r) root', Attached)
               /\ descend root' path = Some (set_tile node (Some t))).
Proof.
  intros Hl Hx Hy path.
  assert (Hrt : retrace path = mkTileId level x y)
    by (now apply retrace_place_path).
  assert (Huniq : forall path', Forall valid_index path' ->
            retrace path' = mkTileId level x y -> path' = path).
  { intros path' Hv Hr.
    destruct (place_path_retrace path' Hv) as (Hlen & _ & _ & Hp).
    rewrite Hr in Hlen, Hp. cbn [id_level id_x id_y] in Hlen, Hp.
    subst path. rewrite Hlen, Nat2Z.id. now symmetry. }
  split; [exact Hrt|]. split; [exact Huniq|].
  intros fuel this pos flags uninit r box Hr Hs Hin.
  rewrite LoadLocality_unfold, Hs in Hr. cbn [Z.eqb negb] in Hr. cbv zeta in Hr.
  destruct (walk_at _ _ _ _ _ _) as [w|] eqn:Hw; [|discriminate].
  injection Hr as <-. cbn [l_manager queue_ root_ set_queue set_root] in Hin |- *.
  destruct (walk_keeps_node _ _ _ _ _ _ _ Hw) as [root' Hroot].
  destruct (walk_enqueued_node _ _ _ _ _ _ _ Hw _ Hin)
    as [[]|(path' & node' & Hv & Htask & Hn & Hp)].
  unfold task_at in Htask. injection Htask as Hid Hbox.
  fold (retrace path') in Hid. symmetry in Hid.
  apply Huniq in Hid; [|exact Hv]. subst path'.
  rewrite Hroot in Hn |- *. cbn [descend_ptr task_bbox generation_ set_queue] in Hn, Hp.
  exists node'. split; [exact Hn|]. split; [exact Hp|].
  intros t. unfold PlaceTile. cbn [root_ set_queue set_root id_level id_x id_y].
  pose proof (RecPlaceTile_node_path (Z.to_nat level) root' t x y) as Hplace.
  cbv zeta in Hplace. fold path in Hplace. rewrite Z2Nat.id in Hplace by lia.
  rewrite Hn in Hplace.
  assert (Htl : tile node' = None) by (unfold payload in Hp; congruence).
  rewrite Htl in Hplace.
  destruct Hplace as (root'' & -> & Hd & _).
  exists root''. split; [reflexivity|exact Hd].
Qed.

End Same_node.

Section Collection.
Context `{Collab : Collaborators}.


Lemma RecGarbageCollectTiles_childs (g : Z) (node : QuadNode) (i : Z) :
  childs (RecGarbageCollectTiles g node) i = collect_slot g (childs node i).
Proof.
  destruct node as [b t s c0 c1 c2 c3].
  destruct i as [|[[|[]|]|[|[]|]|]|]; reflexivity.
Qed.

Lemma RecGarbageCollectTiles_payload (g : Z) (node : QuadNode) :
  payload (RecGarbageCollectTiles g node) = payload node.
Proof. destruct node; reflexivity. Qed.

Lemma RecGarbageCollectTiles_generation (g : Z) (node : QuadNode) :
  generation (RecGarbageCollectTiles g node) = generation node.
Proof. destruct node; reflexivity. Qed.

Lemma generation_incr_neq (g : Z) : generation_incr g <> g.
Proof.
  unfold generation_incr. intros H.
  pose proof (Z.mod_pos_bound (g + 1) (2 ^ 64) ltac:(lia)) as Hb.
  destruct (Z.eq_dec g (2 ^ 64 - 1)) as [->|Hg].
  - vm_compute in H. discriminate.
  - rewrite Z.mod_small in H by lia. lia.
Qed.

(** A child that survives a sweep carries the stamp the sweep looked for. *)
Lemma collect_slot_stamp (g : Z) (c : option QuadNode) (n : QuadNode) :
  collect_slot g c = Some n -> generation n = g.
Proof.
  destruct c as [m|]; cbn; [|discriminate].
  destruct (Z.eqb_spec (generation m) g) as [Hg|]; cbn; [|discriminate].
  intros [= <-]. now rewrite RecGarbageCollectTiles_generation.
Qed.

Lemma collect_slot_other_stamp (g g' : Z) (c : option QuadNode) :
  g' <> g -> collect_slot g' (collect_slot g c) = None.
Proof.
  intros Hg. destruct (collect_slot g c) as [n|] eqn:Hc; [|reflexivity].
  apply collect_slot_stamp in Hc. cbn.
  destruct (Z.eqb_spec (generation n) g'); [congruence|reflexivity].
Qed.

(** The sweep never reads the stamp of the node it is given. *)
Lemma RecGarbageCollectTiles_own_stamp (g s : Z) (node : QuadNode) :
  RecGarbageCollectTiles g (set_generation node s)
  = set_generation (RecGarbageCollectTiles g node) s.
Proof. destruct node; reflexivity. Qed.

Lemma node_count_childs (node : QuadNode) :
  node_count node
  = S (match childs node 0 with Some c => node_count c | None => O end
       + match childs node 1 with Some c => node_count c | None => O end
       + match childs node 2 with Some c => node_count c | None => O end
       + match childs node 3 with Some c => node_count c | None => O end).
Proof. destruct node; reflexivity. Qed.

Lemma collect_slot_idempotent (g : Z) (c : option QuadNode) :
  below (fun n => RecGarbageCollectTiles g (RecGarbageCollectTiles g n)
                  = RecGarbageCollectTiles g n) c ->
  collect_slot g (collect_slot g c) = collect_slot g c.
Proof.
  destruct c as [n|]; cbn [below collect_slot]; [|reflexivity].
  intros IH. destruct (Z.eqb_spec (generation n) g) as [Hg|Hg]; cbn [negb];
    [|reflexivity].
  cbn [collect_slot]. rewrite RecGarbageCollectTiles_generation.
  apply Z.eqb_eq in Hg. rewrite Hg. cbn [negb]. now rewrite IH.
Qed.

(** X3.  Sweeping again for the same counter value removes nothing more:
    the sweep itself is idempotent. *)
Lemma RecGarbageCollectTiles_idempotent (g : Z) (node : QuadNode) :
  RecGarbageCollectTiles g (RecGarbageCollectTiles g node)
  = RecGarbageCollectTiles g node.
Proof.
  induction node as [b t s c0 c1 c2 c3 H0 H1 H2 H3] using QuadNode_rect_below.
  change (mkQuadNode b t s
            (collect_slot g (collect_slot g c0)) (collect_slot g (collect_slot g c1))
            (collect_slot g (collect_slot g c2)) (collect_slot g (collect_slot g c3))
          = mkQuadNode b t s (collect_slot g c0) (collect_slot g c1)
              (collect_slot g c2) (collect_slot g c3)).
  now rewrite !collect_slot_idempotent.
Qed.

(** C9.  [GarbageCollect] leaves the root node in place with its box, tile
    and stamp, and the result of the sweep does not depend on the root's own
    stamp: restamping the root before the collection is the same as
    restamping it afterwards, so a root with a stale stamp survives like any
    other. *)
Theorem GarbageCollect_keeps_root (this : TileManager) (s : Z) :
  payload (root_ (GarbageCollect this)) = payload (root_ this)
  /\ root_ (GarbageCollect (set_root this (set_generation (root_ this) s)))
     = set_generation (root_ (GarbageCollect this)) s.
Proof.
  split.
  - apply RecGarbageCollectTiles_payload.
  - cbn. apply RecGarbageCollectTiles_own_stamp.
Qed.

(** C2, amended.  [GarbageCollect] increments the generation counter after
    its sweep, so a second call with no [LoadLocality] in between finds the
    stamp of every child of the root different from the counter: it clears
    all four child slots of the root, leaving the root alone with its box,
    tile and stamp.  Only from then on is a further call without effect on
    the tree.  (The sweep alone, run twice for the same counter value, is
    idempotent: [RecGarbageCollectTiles_idempotent].) *)
Theorem GarbageCollect_twice_clears_root_childs (this : TileManager) :
  (forall i, childs (root_ (GarbageCollect (GarbageCollect this))) i = None)
  /\ node_count (root_ (GarbageCollect (GarbageCollect this))) = 1%nat
  /\ payload (root_ (GarbageCollect (GarbageCollect this))) = payload (root_ this)
  /\ root_ (GarbageCollect (GarbageCollect (GarbageCollect this)))
     = root_ (GarbageCollect (GarbageCollect this)).
Proof.
  assert (H : forall i, childs (root_ (GarbageCollect (GarbageCollect this))) i = None).
  { intros i. cbn. rewrite !RecGarbageCollectTiles_childs.
    apply collect_slot_other_stamp, generation_incr_neq. }
  split; [exact H|]. split; [|split].
  - rewrite node_count_childs, !H. reflexivity.
  - cbn. now rewrite !RecGarbageCollectTiles_payload.
  - pose proof (H 0) as H0. pose proof (H 1) as H1.
    pose proof (H 2) as H2. pose proof (H 3) as H3.
    change (root_ (GarbageCollect (GarbageCollect (GarbageCollect this))))
      with (RecGarbageCollectTiles (generation_ (GarbageCollect (GarbageCollect this)))
              (root_ (GarbageCollect (GarbageCollect this)))).
    destruct (root_ (GarbageCollect (GarbageCollect this))) as [b t g c0 c1 c2 c3].
    cbn in H0, H1, H2, H3. subst. reflexivity.
Qed.

End Collection.

Section Invariant.
Context `{Collab : Collaborators}.

Lemma descend_RecGarbageCollectTiles (g : Z) (path : list Z) :
  forall node m,
  descend (RecGarbageCollectTiles g node) path = Some m ->
  exists m0, descend node path = Some m0 /\ bbox m = bbox m0.
Proof.
  induction path as [|i path IH]; intros node m H.
  - cbn in H. injection H as <-. exists node. split; [reflexivity|].
    pose proof (RecGarbageCollectTiles_payload g node) as Hp.
    now apply payload_fields in Hp.
  - cbn [descend] in H |- *. rewrite RecGarbageCollectTiles_childs in H.
    destruct (childs node i) as [c|]; cbn [collect_slot] in H; [|discriminate].
    destruct (negb (generation c =? g)); [discriminate|].
    now apply IH.
Qed.

Lemma descend_RecPlaceTile_node (node : QuadNode) (t : Tile) (level x y : Z)
    (path : list Z) (m : QuadNode) :
  0 <= level ->
  descend (fst (RecPlaceTile_node node t level x y)) path = Some m ->
  exists m0, descend node path = Some m0 /\ bbox m = bbox m0.
Proof.
  intros Hl H.
  pose proof (RecPlaceTile_node_path (Z.to_nat level) node t x y) as Hp.
  cbv zeta in Hp. rewrite Z2Nat.id in Hp by lia.
  destruct (descend node (place_path (Z.to_nat level) x y)) as [m1|] eqn:Hd.
  - destruct (tile m1).
    + rewrite Hp in H. cbn [fst] in H. eauto.
    + destruct Hp as (node' & Hn & Hd' & Hframe). rewrite Hn in H. cbn [fst] in H.
      destruct (list_eq_dec Z.eq_dec path (place_path (Z.to_nat level) x y))
        as [->|Hne].
      * rewrite Hd' in H. injection H as <-. exists m1. split; [exact Hd|].
        now destruct m1.
      * specialize (Hframe path Hne). rewrite H in Hframe.
        destruct (descend node path) as [m0|]; [|discriminate].
        assert (Hpay : payload m = payload m0)
          by (cbn [option_map] in Hframe; congruence).
        exists m0. split; [reflexivity|].
        now apply payload_fields in Hpay.
  - rewrite Hp in H. cbn [fst] in H. eauto.
Qed.

(** X2.  The tree of a manager stays well addressed: it is so when the manager
    is constructed (the root has no child yet), and the walk, the collection
    and the placement of a tile keep it so. *)
Theorem well_formed_invariant (this : TileManager) :
  (forall b g, well_formed (TileManager_new (new_QuadNode b g)))
  /\ (well_formed this ->
      (forall fuel pos flags uninit r,
         LoadLocality fuel this pos flags uninit = Some r ->
         well_formed (l_manager r))
      /\ well_formed (GarbageCollect this)
      /\ (forall t id, 0 <= id_level id -> well_formed (fst (PlaceTile this t id)))).
Proof.
  split.
  - intros b g i path node H. destruct i as [|[[|[]|]|[|[]|]|]|]; discriminate.
  - intros WF. split; [|split].
    + intros fuel pos flags uninit r. now apply LoadLocality_well_formed.
    + intros i path node H. cbn [GarbageCollect root_ set_generation_ set_root] in H.
      rewrite RecGarbageCollectTiles_childs in H.
      destruct (childs (root_ this) i) as [c|] eqn:Hc; cbn [collect_slot] in H;
        [|discriminate].
      destruct (negb (generation c =? generation_ this)); [discriminate|].
      cbn [descend_ptr] in H.
      apply descend_RecGarbageCollectTiles in H. destruct H as (m0 & Hm0 & ->).
      apply (WF i path). now rewrite Hc.
    + intros t id Hl i path node H. unfold PlaceTile in H.
      destruct (RecPlaceTile_node (root_ this) t (id_level id) (id_x id) (id_y id))
        as [root' o] eqn:Hplace.
      cbn [fst root_ set_root] in H.
      assert (Hd : descend (fst (RecPlaceTile_node (root_ this) t (id_level id)
                                   (id_x id) (id_y id))) (i :: path) = Some node).
      { rewrite Hplace. cbn [fst descend].
        destruct (childs root' i); [exact H|discriminate]. }
      apply descend_RecPlaceTile_node in Hd; [|exact Hl].
      destruct Hd as (m0 & Hm0 & ->). apply (WF i path).
      cbn [descend] in Hm0. destruct (childs (root_ this) i); [exact Hm0|discriminate].
Qed.

End Invariant.

(** ** What the sweep, the destructor and the renderer reach *)

Section Sweep.
Context `{Collab : Collaborators}.

(** The functions, slot by slot. *)
Lemma RecDestroyTiles_childs (node : QuadNode) :
  RecDestroyTiles node
  = own_tile node ++ destroy_slot (childs node 0) ++ destroy_slot (childs node 1)
    ++ destroy_slot (childs node 2) ++ destroy_slot (childs node 3).
Proof. destruct node. reflexivity. Qed.

Lemma RecGarbageCollectTiles_deleted_childs (g : Z) (node : QuadNode) :
  RecGarbageCollectTiles_deleted g node
  = deleted_slot g (childs node 0) ++ deleted_slot g (childs node 1)
    ++ deleted_slot g (childs node 2) ++ deleted_slot g (childs node 3).
Proof. destruct node. reflexivity. Qed.

Lemma RecGarbageCollectTiles_freed_childs (g : Z) (node : QuadNode) :
  RecGarbageCollectTiles_freed g node
  = (freed_slot g (childs node 0) + freed_slot g (childs node 1)
     + freed_slot g (childs node 2) + freed_slot g (childs node 3))%nat.
Proof. destruct node. reflexivity. Qed.

Lemma node_count_slots (node : QuadNode) :
  node_count node
  = S (count_slot (childs node 0) + count_slot (childs node 1)
       + count_slot (childs node 2) + count_slot (childs node 3)).
Proof. destruct node. reflexivity. Qed.

Lemma own_tile_RecGarbageCollectTiles (g : Z) (node : QuadNode) :
  own_tile (RecGarbageCollectTiles g node) = own_tile node.
Proof. destruct node. reflexivity. Qed.

(** A node survives the sweep exactly when every node on the way to it
    carries the stamp the sweep looks for; it is then the swept node. *)
Lemma descend_RecGarbageCollectTiles_iff (g : Z) (path : list Z) :
  forall node m,
  descend (RecGarbageCollectTiles g node) path = Some m
  <-> marked_below g node path
      /\ exists m0, descend node path = Some m0 /\ m = RecGarbageCollectTiles g m0.
Proof.
  induction path as [|i path IH]; intros node m.
  - cbn. split.
    + intros [= <-]. eauto.
    + intros (_ & m0 & [= <-] & ->). reflexivity.
  - cbn [descend marked_below]. rewrite RecGarbageCollectTiles_childs.
    destruct (childs node i) as [c|]; cbn [collect_slot].
    + destruct (Z.eqb_spec (generation c) g) as [Hg|Hg]; cbn [negb].
      * rewrite IH. tauto.
      * split; [discriminate|tauto].
    + split; [discriminate|tauto].
Qed.

(** A child pointer that is not [NULL] is one of the four. *)
Lemma childs_Some_cases (node : QuadNode) (i : Z) (c : option QuadNode) (P : Prop) :
  (childs node 0 = c -> P) -> (childs node 1 = c -> P) ->
  (childs node 2 = c -> P) -> (childs node 3 = c -> P) ->
  (c = None -> P) ->
  childs node i = c -> P.
Proof.
  intros H0 H1 H2 H3 Hn.
  destruct i as [|[[|[]|]|[|[]|]|]|]; cbn [childs]; auto; intros <-; auto.
Qed.

(** One level of [RecDestroyTiles] and of the sweep, tile by tile. *)
Lemma In_RecDestroyTiles_step (t : Tile) (node : QuadNode) :
  In t (RecDestroyTiles node)
  <-> tile node = Some t
      \/ exists i c, childs node i = Some c /\ In t (RecDestroyTiles c).
Proof.
  rewrite RecDestroyTiles_childs, !in_app_iff. unfold own_tile, destroy_slot. split.
  - intros [H|[H|[H|[H|H]]]].
    + destruct (tile node) as [x|]; [destruct H as [->|[]]; auto|destruct H].
    + destruct (childs node 0) eqn:E; [eauto|destruct H].
    + destruct (childs node 1) eqn:E; [eauto|destruct H].
    + destruct (childs node 2) eqn:E; [eauto|destruct H].
    + destruct (childs node 3) eqn:E; [eauto|destruct H].
  - intros [H|(i & c & Hc & H)].
    + rewrite H. left. now left.
    + right. revert Hc. apply childs_Some_cases; intros E; try discriminate E;
        rewrite E; auto.
Qed.

Lemma In_RecGarbageCollectTiles_deleted_step (g : Z) (t : Tile) (node : QuadNode) :
  In t (RecGarbageCollectTiles_deleted g node)
  <-> exists i c, childs node i = Some c /\ In t (deleted_slot g (Some c)).
Proof.
  rewrite RecGarbageCollectTiles_deleted_childs, !in_app_iff. split.
  - intros [H|[H|[H|H]]].
    + destruct (childs node 0) eqn:E; [eauto|destruct H].
    + destruct (childs node 1) eqn:E; [eauto|destruct H].
    + destruct (childs node 2) eqn:E; [eauto|destruct H].
    + destruct (childs node 3) eqn:E; [eauto|destruct H].
  - intros (i & c & Hc & H). revert Hc.
    apply childs_Some_cases; intros E; try discriminate E; rewrite E; auto.
Qed.

(** [RecDestroyTiles] deletes the tile of every node of the subtree, and
    nothing else. *)
Lemma In_RecDestroyTiles (t : Tile) (node : QuadNode) :
  In t (RecDestroyTiles node)
  <-> exists path n, descend node path = Some n /\ tile n = Some t.
Proof.
  split.
  - induction node as [b tl s c0 c1 c2 c3 H0 H1 H2 H3] using QuadNode_rect_below.
    rewrite In_RecDestroyTiles_step. intros [H|(i & c & Hc & H)].
    + exists [], (mkQuadNode b tl s c0 c1 c2 c3). auto.
    + assert (IH : below (fun n => In t (RecDestroyTiles n) ->
                     exists path m, descend n path = Some m /\ tile m = Some t)
                     (Some c)).
      { revert Hc. apply childs_Some_cases; cbn [childs child0 child1 child2 child3];
          intros E; try discriminate E; rewrite <- E; assumption. }
      destruct (IH H) as (path & m & Hd & Ht).
      exists (i :: path), m. cbn [descend]. rewrite Hc. auto.
  - intros (path & n & Hd & Ht). revert node Hd.
    induction path as [|i path IH]; intros node Hd; rewrite In_RecDestroyTiles_step.
    + injection Hd as ->. auto.
    + cbn [descend] in Hd. destruct (childs node i) as [c|] eqn:Hc; [|discriminate].
      right. exists i, c. auto.
Qed.

(** The tiles the sweep deletes are the tiles of the nodes with a node of
    another stamp on the way to them. *)
Lemma In_RecGarbageCollectTiles_deleted (g : Z) (t : Tile) (node : QuadNode) :
  In t (RecGarbageCollectTiles_deleted g node)
  <-> exists path n,
        descend node path = Some n /\ tile n = Some t /\ ~ marked_below g node path.
Proof.
  split.
  - induction node as [b tl s c0 c1 c2 c3 H0 H1 H2 H3] using QuadNode_rect_below.
    rewrite In_RecGarbageCollectTiles_deleted_step. intros (i & c & Hc & H).
    cbn [deleted_slot] in H.
    destruct (Z.eqb_spec (generation c) g) as [Hg|Hg]; cbn [negb] in H.
    + assert (IH : below (fun n => In t (RecGarbageCollectTiles_deleted g n) ->
                     exists path m, descend n path = Some m /\ tile m = Some t
                                    /\ ~ marked_below g n path) (Some c)).
      { revert Hc. apply childs_Some_cases; cbn [childs child0 child1 child2 child3];
          intros E; try discriminate E; rewrite <- E; assumption. }
      destruct (IH H) as (path & m & Hd & Ht & Hm).
      exists (i :: path), m. cbn [descend marked_below]. rewrite Hc. tauto.
    + apply In_RecDestroyTiles in H. destruct H as (path & m & Hd & Ht).
      exists (i :: path), m. cbn [descend marked_below]. rewrite Hc. tauto.
  - intros (path & n & Hd & Ht & Hm). revert node Hd Hm.
    induction path as [|i path IH]; intros node Hd Hm.
    + cbn in Hm. tauto.
    + cbn [descend marked_below] in Hd, Hm.
      destruct (childs node i) as [c|] eqn:Hc; [|discriminate].
      apply In_RecGarbageCollectTiles_deleted_step. exists i, c. split; [exact Hc|].
      cbn [deleted_slot].
      destruct (Z.eqb_spec (generation c) g) as [Hg|Hg]; cbn [negb].
      * apply IH; tauto.
      * apply In_RecDestroyTiles. eauto.
Qed.

(** Two lists, each split in two, regrouped. *)
Lemma Permutation_app_swap_inner (A : Type) (k e K E : list A) :
  Permutation ((k ++ e) ++ (K ++ E)) ((k ++ K) ++ (e ++ E)).
Proof.
  rewrite <- !app_assoc. apply Permutation_app_head.
  rewrite !app_assoc. apply Permutation_app_tail. apply Permutation_app_comm.
Qed.

(** The same for a node's own list followed by four slots. *)
Lemma Permutation_slots (A : Type) (o d0 d1 d2 d3 k0 k1 k2 k3 e0 e1 e2 e3 : list A) :
  Permutation d0 (k0 ++ e0) -> Permutation d1 (k1 ++ e1) ->
  Permutation d2 (k2 ++ e2) -> Permutation d3 (k3 ++ e3) ->
  Permutation (o ++ d0 ++ d1 ++ d2 ++ d3)
              ((o ++ k0 ++ k1 ++ k2 ++ k3) ++ e0 ++ e1 ++ e2 ++ e3).
Proof.
  intros H0 H1 H2 H3. rewrite <- app_assoc. apply Permutation_app_head.
  rewrite H0, H1, H2, H3.
  rewrite (Permutation_app_swap_inner _ k2 e2 k3 e3).
  rewrite (Permutation_app_swap_inner _ k1 e1 (k2 ++ k3) (e2 ++ e3)).
  rewrite (Permutation_app_swap_inner _ k0 e0 (k1 ++ k2 ++ k3) (e1 ++ e2 ++ e3)).
  reflexivity.
Qed.

(** A slot before the sweep holds what it holds afterwards and what the
    sweep took from it. *)
Lemma destroy_slot_sweep (g : Z) (c : option QuadNode) :
  below (fun n => Permutation (RecDestroyTiles n)
                    (RecDestroyTiles (RecGarbageCollectTiles g n)
                     ++ RecGarbageCollectTiles_deleted g n)) c ->
  Permutation (destroy_slot c)
              (destroy_slot (collect_slot g c) ++ deleted_slot g c).
Proof.
  destruct c as [n|]; cbn [below destroy_slot collect_slot deleted_slot]; [|constructor].
  intros IH. destruct (negb (generation n =? g)); cbn [destroy_slot app]; auto.
Qed.

(** The nodes of a slot: those it has afterwards and those freed. *)
Lemma count_slot_sweep (g : Z) (c : option QuadNode) :
  below (fun n => node_count n
                  = (node_count (RecGarbageCollectTiles g n)
                     + RecGarbageCollectTiles_freed g n)%nat) c ->
  count_slot c = (count_slot (collect_slot g c) + freed_slot g c)%nat.
Proof.
  destruct c as [n|]; cbn [below count_slot collect_slot freed_slot]; [|reflexivity].
  intros IH. destruct (negb (generation n =? g)); cbn [count_slot]; auto.
Qed.

(** [RecRenderTiles], slot by slot. *)
Lemma RecRenderTiles_childs (g : Z) (node : QuadNode) :
  RecRenderTiles g node
  = if negb (generation node =? g) then []
    else render_slot g (childs node 0) ++ render_slot g (childs node 1)
         ++ render_slot g (childs node 2) ++ render_slot g (childs node 3)
         ++ own_tile node.
Proof. destruct node. reflexivity. Qed.

(** One level of [RecRenderTiles], tile by tile. *)
Lemma In_RecRenderTiles_step (g : Z) (t : Tile) (node : QuadNode) :
  In t (RecRenderTiles g node)
  <-> generation node = g
      /\ (tile node = Some t
          \/ exists i c, childs node i = Some c /\ In t (RecRenderTiles g c)).
Proof.
  rewrite RecRenderTiles_childs.
  destruct (Z.eqb_spec (generation node) g) as [Hg|Hg]; cbn [negb];
    [|split; [intros []|tauto]].
  rewrite !in_app_iff. unfold own_tile, render_slot. split.
  - intros H. split; [exact Hg|]. destruct H as [H|[H|[H|[H|H]]]].
    + destruct (childs node 0) eqn:E; [eauto|destruct H].
    + destruct (childs node 1) eqn:E; [eauto|destruct H].
    + destruct (childs node 2) eqn:E; [eauto|destruct H].
    + destruct (childs node 3) eqn:E; [eauto|destruct H].
    + destruct (tile node) as [x|]; [destruct H as [->|[]]; auto|destruct H].
  - intros [_ [H|(i & c & Hc & H)]].
    + rewrite H. do 4 right. now left.
    + revert Hc. apply childs_Some_cases; intros E; try discriminate E;
        rewrite E; auto.
Qed.

(** [RecRenderTiles] draws the tile of every node that it reaches through
    nodes of the current stamp, the node itself included, and nothing else. *)
Lemma In_RecRenderTiles (g : Z) (t : Tile) (node : QuadNode) :
  In t (RecRenderTiles g node)
  <-> exists path n,
        marked_along g node path /\ descend node path = Some n /\ tile n = Some t.
Proof.
  unfold marked_along. split.
  - induction node as [b tl s c0 c1 c2 c3 H0 H1 H2 H3] using QuadNode_rect_below.
    rewrite In_RecRenderTiles_step. intros [Hg [H|(i & c & Hc & H)]].
    + exists [], (mkQuadNode b tl s c0 c1 c2 c3). cbn. auto.
    + assert (IH : below (fun n => In t (RecRenderTiles g n) ->
                     exists path m, (generation n = g /\ marked_below g n path)
                                    /\ descend n path = Some m /\ tile m = Some t)
                     (Some c)).
      { revert Hc. apply childs_Some_cases; cbn [childs child0 child1 child2 child3];
          intros E; try discriminate E; rewrite <- E; assumption. }
      destruct (IH H) as (path & m & [Hgc Hm] & Hd & Ht).
      exists (i :: path), m. cbn [descend marked_below]. rewrite Hc. auto.
  - intros (path & n & [Hg Hm] & Hd & Ht). revert node Hg Hm Hd.
    induction path as [|i path IH]; intros node Hg Hm Hd;
      apply In_RecRenderTiles_step; (split; [exact Hg|]).
    + injection Hd as ->. auto.
    + cbn [descend marked_below] in Hd, Hm.
      destruct (childs node i) as [c|] eqn:Hc; [|discriminate].
      right. exists i, c. split; [exact Hc|]. apply IH; tauto.
Qed.

(** A slot is drawn the same after the sweep for the same value. *)
Lemma render_slot_sweep (g : Z) (c : option QuadNode) :
  below (fun n => RecRenderTiles g (RecGarbageCollectTiles g n)
                  = RecRenderTiles g n) c ->
  render_slot g (collect_slot g c) = render_slot g c.
Proof.
  destruct c as [n|]; cbn [below render_slot collect_slot]; [|reflexivity].
  intros IH. destruct (Z.eqb_spec (generation n) g) as [Hg|Hg];
    cbn [negb render_slot]; [exact IH|].
  rewrite RecRenderTiles_childs.
  destruct (Z.eqb_spec (generation n) g); [contradiction|reflexivity].
Qed.

(** The sweep for a counter value removes nothing that [RecRenderTiles]
    draws for that value. *)
Lemma RecRenderTiles_sweep (g : Z) (node : QuadNode) :
  RecRenderTiles g (RecGarbageCollectTiles g node) = RecRenderTiles g node.
Proof.
  induction node as [b tl s c0 c1 c2 c3 H0 H1 H2 H3] using QuadNode_rect_below.
  rewrite (RecRenderTiles_childs g (RecGarbageCollectTiles g _)),
    !RecGarbageCollectTiles_childs, own_tile_RecGarbageCollectTiles,
    RecGarbageCollectTiles_generation, RecRenderTiles_childs.
  cbn [childs child0 child1 child2 child3].
  now rewrite !render_slot_sweep.
Qed.

(** What a sweep kept carries the stamp it swept for: for another value
    of the counter nothing of it is drawn. *)
Lemma render_slot_other_stamp (g g' : Z) (c : option QuadNode) :
  g' <> g -> render_slot g' (collect_slot g c) = [].
Proof.
  intros Hne. destruct c as [n|]; cbn [collect_slot render_slot]; [|reflexivity].
  destruct (Z.eqb_spec (generation n) g) as [Hg|Hg]; cbn [negb render_slot];
    [|reflexivity].
  rewrite RecRenderTiles_childs, RecGarbageCollectTiles_generation.
  destruct (Z.eqb_spec (generation n) g'); [congruence|reflexivity].
Qed.

End Sweep.

(** ** The stamps a walk leaves *)

Section Marks.
Context `{Collab : Collaborators}.

(** A path the walk wants is a path it follows. *)
Lemma wanted_in_view (this : TileManager) (pos : Vector3i) (path : list Z) :
  forall pnode id, wanted this pos pnode id path -> in_view this pos pnode id path.
Proof.
  induction path as [|i path IH]; intros pnode id; cbn [wanted in_view].
  - tauto.
  - intros (Hd & Hl & Hi & Hw). auto.
Qed.

(** The checks on the way do not read the queue stored in the manager. *)
Lemma in_view_set_queue (this : TileManager) (q : list TileTask) (pos : Vector3i)
    (path : list Z) : forall pnode id,
  in_view (set_queue this q) pos pnode id path <-> in_view this pos pnode id path.
Proof.
  induction path as [|i path IH]; intros pnode id; cbn [in_view].
  - reflexivity.
  - rewrite IH. reflexivity.
Qed.

(** A path of marked nodes leads to a node. *)
Lemma marked_below_descend (g : Z) (path : list Z) : forall node,
  marked_below g node path -> exists n, descend node path = Some n.
Proof.
  induction path as [|i path IH]; intros node H; cbn [descend marked_below] in *.
  - eauto.
  - destruct (childs node i) as [c|]; [|contradiction]. apply IH. tauto.
Qed.

(** The walk stamps every node it reaches: the nodes on a path whose boxes
    all pass the range check carry the current stamp afterwards. *)
Lemma walk_marks_in_view (this : TileManager) (fuel : nat) info queue pnode id w :
  walk_at fuel this info queue pnode id = Some w ->
  forall path, in_view this (viewer_pos info) pnode id path ->
    marked_ptr (generation_ this) (w_node w) path.
Proof.
  revert info queue pnode id w.
  apply (walk_ind this (fun info queue pnode id w =>
    forall path, in_view this (viewer_pos info) pnode id path ->
      marked_ptr (generation_ this) (w_node w) path)).
  - intros info queue pnode id Hd path Hv.
    destruct path; destruct Hv as [Hr _]; now apply Qlt_not_le in Hd.
  - intros info queue pnode id Hd Hl [|i path] Hv; cbn [in_view] in Hv; [|tauto].
    destruct (leaf_visit_cases this info queue (visited_node this pnode id)
                (thisdist_of (viewer_pos info) (box_of pnode id)) id) as [-> _].
    cbn [marked_ptr]. split; [|exact I].
    pose proof (payload_visited_node this pnode id) as Hp.
    unfold payload in Hp. congruence.
  - intros fuel' info queue pnode id w0 w1 w2 w3 Hd Hl E0 E1 E2 E3 H0 H1 H2 H3
           path Hv.
    cbn [w_node marked_ptr]. unfold marked_along.
    split.
    { pose proof (payload_set_child4 (visited_node this pnode id)
                    (w_node w0) (w_node w1) (w_node w2) (w_node w3)) as Hp.
      rewrite payload_visited_node in Hp. unfold payload in Hp. congruence. }
    destruct path as [|i path]; [exact I|].
    cbn [in_view] in Hv. destruct Hv as (_ & _ & Hi & Hv).
    pose proof (queue_grows_pos _ _ _ (walk_queue_grows _ _ _ _ _ _ _ E0)) as V0.
    pose proof (queue_grows_pos _ _ _ (walk_queue_grows _ _ _ _ _ _ _ E1)) as V1.
    pose proof (queue_grows_pos _ _ _ (walk_queue_grows _ _ _ _ _ _ _ E2)) as V2.
    rewrite V0 in H1. rewrite V1, V0 in H2. rewrite V2, V1, V0 in H3.
    cbn [marked_below]. rewrite childs_set_child4.
    assert (Hc : i = 0 \/ i = 1 \/ i = 2 \/ i = 3) by lia.
    destruct Hc as [->|[->|[->| ->]]].
    + specialize (H0 path Hv). destruct (w_node w0); [exact H0|contradiction].
    + specialize (H1 path Hv). destruct (w_node w1); [exact H1|contradiction].
    + specialize (H2 path Hv). destruct (w_node w2); [exact H2|contradiction].
    + specialize (H3 path Hv). destruct (w_node w3); [exact H3|contradiction].
Qed.

(** Two paths of valid indices that retrace to the same tile are the same. *)
Lemma retrace_unique (p q : list Z) :
  Forall valid_index p -> Forall valid_index q -> retrace p = retrace q -> p = q.
Proof.
  intros Hp Hq E.
  destruct (place_path_retrace p Hp) as (Lp & _ & _ & Pp).
  destruct (place_path_retrace q Hq) as (Lq & _ & _ & Pq).
  rewrite E in Lp, Pp.
  assert (Hl : length p = length q) by lia.
  rewrite Hl in Pp. congruence.
Qed.

(** What [LoadLocality] is made of: one walk from the root. *)
Lemma LoadLocality_walk (fuel : nat) (this : TileManager) (pos : Vector3i)
    (flags : Z) (uninit : Q) (r : Loaded) :
  LoadLocality fuel this pos flags uninit = Some r ->
  let queue := if negb (Z.land flags SYNC =? 0) then queue_ this else [] in
  exists w root',
    walk_at fuel (set_queue this queue) (RecLoadTilesInfo_new pos uninit) queue
      (Some (root_ this)) (mkTileId 0 0 0) = Some w
    /\ w_node w = Some root'
    /\ l_manager r = set_queue (set_root this root') (w_queue w).
Proof.
  intros Hr. rewrite LoadLocality_unfold in Hr. cbv zeta in Hr |- *.
  destruct (walk_at _ _ _ _ _ _) as [w|] eqn:Hw; [|discriminate Hr].
  injection Hr as <-.
  destruct (walk_keeps_node _ _ _ _ _ _ _ Hw) as [root' Hroot].
  exists w, root'. rewrite Hroot. auto.
Qed.

(** A task [LoadLocality] leaves in the queue, seen from the placement: the
    placement path of its id is the path the walk took, every node on it
    carries the current stamp, and the node at its end has the task's box and
    no tile. *)
Lemma LoadLocality_enqueued (fuel : nat) (this : TileManager) (pos : Vector3i)
    (flags : Z) (uninit : Q) (r : Loaded) (task : TileTask) :
  Z.land flags SYNC = 0 ->
  LoadLocality fuel this pos flags uninit = Some r ->
  In task (queue_ (l_manager r)) ->
  let id := task_id task in
  let path := place_path (Z.to_nat (id_level id)) (id_x id) (id_y id) in
  0 <= id_level id
  /\ id_level id = hires_level_ this
  /\ retrace path = id
  /\ wanted this pos (Some (root_ this)) (mkTileId 0 0 0) path
  /\ marked_along (generation_ this) (root_ (l_manager r)) path
  /\ exists node,
       descend (root_ (l_manager r)) path = Some node
       /\ payload node = (task_bbox task, None, generation_ this).
Proof.
  intros Hs Hr Hin id path.
  apply LoadLocality_walk in Hr. rewrite Hs in Hr. cbn [Z.eqb negb] in Hr.
  destruct Hr as (w & root' & Hw & Hroot & Hm). rewrite Hm in Hin |- *.
  cbn [queue_ root_ set_queue set_root] in Hin |- *.
  destruct (walk_enqueues_only_wanted _ _ _ _ _ _ _ Hw _ Hin)
    as [[]|(p & Hwant & Htask)].
  cbn [viewer_pos RecLoadTilesInfo_new] in Hwant.
  apply wanted_set_queue in Hwant.
  pose proof (proj1 (wanted_iff _ _ _ _ _) Hwant) as (_ & Hv & Hlv & _).
  cbn [id_level] in Hlv.
  assert (Hid : id = retrace p) by (unfold id; rewrite Htask; reflexivity).
  destruct (place_path_retrace p Hv) as (Hlen & _ & _ & Hp).
  rewrite <- Hid in Hlen, Hp.
  assert (Hpath : path = p).
  { unfold path. rewrite Hlen, Nat2Z.id. exact Hp. }
  rewrite Hpath. split; [lia|]. split; [lia|].
  split; [now symmetry|]. split; [exact Hwant|].
  pose proof (walk_marks_in_view _ _ _ _ _ _ _ Hw p) as Hmark.
  cbn [viewer_pos RecLoadTilesInfo_new] in Hmark.
  specialize (Hmark (proj2 (in_view_set_queue _ _ _ _ _ _)
                       (wanted_in_view _ _ _ _ _ Hwant))).
  rewrite Hroot in Hmark. cbn [marked_ptr generation_ set_queue] in Hmark.
  split; [exact Hmark|].
  destruct (walk_enqueued_node _ _ _ _ _ _ _ Hw _ Hin)
    as [[]|(p' & node' & Hv' & Htask' & Hn & Hpay)].
  assert (p' = p).
  { apply retrace_unique; auto. rewrite Htask in Htask'. unfold task_at in Htask'.
    injection Htask' as E _. symmetry. exact E. }
  subst p'. rewrite Hroot in Hn. cbn [descend_ptr] in Hn.
  exists node'. split; [exact Hn|exact Hpay].
Qed.

End Marks.

(** ** What a walk leaves as it is, and what it adds once *)

Section Frame.
Context `{Collab : Collaborators}.

(** The visited node holds the tile the pointer's node held, and the slots
    hold what they held when the calls on them kept it. *)
Lemma RecDestroyTiles_visited_node (this : TileManager) (pnode : option QuadNode)
    (id : TileId) (a0 a1 a2 a3 : option QuadNode) :
  destroy_slot a0 = destroy_slot (childs_ptr pnode 0) ->
  destroy_slot a1 = destroy_slot (childs_ptr pnode 1) ->
  destroy_slot a2 = destroy_slot (childs_ptr pnode 2) ->
  destroy_slot a3 = destroy_slot (childs_ptr pnode 3) ->
  RecDestroyTiles (set_child (set_child (set_child (set_child
     (visited_node this pnode id) 0 a0) 1 a1) 2 a2) 3 a3)
  = destroy_slot pnode.
Proof.
  intros H0 H1 H2 H3. rewrite RecDestroyTiles_childs, !childs_set_child4.
  rewrite H0, H1, H2, H3. unfold own_tile.
  pose proof (payload_set_child4 (visited_node this pnode id) a0 a1 a2 a3) as Hp.
  rewrite payload_visited_node in Hp. unfold payload in Hp.
  injection Hp as _ Ht _. rewrite Ht.
  destruct pnode as [node|]; cbn [destroy_slot tile_ptr childs_ptr]; [|reflexivity].
  now rewrite RecDestroyTiles_childs.
Qed.

(** The walk neither attaches nor deletes a tile: what [RecDestroyTiles]
    would find below the pointer is the same before and after. *)
Lemma walk_keeps_tiles (this : TileManager) (fuel : nat) info queue pnode id w :
  walk_at fuel this info queue pnode id = Some w ->
  destroy_slot (w_node w) = destroy_slot pnode.
Proof.
  revert info queue pnode id w.
  apply (walk_ind this (fun info queue pnode id w =>
    destroy_slot (w_node w) = destroy_slot pnode)).
  - reflexivity.
  - intros info queue pnode id _ _.
    destruct (leaf_visit_cases this info queue (visited_node this pnode id)
                (thisdist_of (viewer_pos info) (box_of pnode id)) id) as [-> _].
    cbn [destroy_slot].
    rewrite <- (RecDestroyTiles_visited_node this pnode id
                  (childs_ptr pnode 0) (childs_ptr pnode 1)
                  (childs_ptr pnode 2) (childs_ptr pnode 3)) by reflexivity.
    rewrite <- !(childs_visited_node this pnode id).
    now rewrite !set_child_childs.
  - intros _ info queue pnode id w0 w1 w2 w3 _ _ _ _ _ _ H0 H1 H2 H3.
    cbn [w_node destroy_slot]. now apply RecDestroyTiles_visited_node.
Qed.

(** A path through nodes that are there, all in range and none below
    [hires_level_], is a path the walk follows. *)
Lemma in_view_of_nodes (this : TileManager) (pos : Vector3i) (path : list Z) :
  forall pnode id n,
  descend_ptr pnode path = Some n ->
  (forall k m, descend_ptr pnode (firstn k path) = Some m ->
     (thisdist_of pos (bbox m) <= hires_range2 this)%Q) ->
  id_level id + Z.of_nat (length path) <= hires_level_ this ->
  in_view this pos pnode id path.
Proof.
  induction path as [|i path IH]; intros pnode id n Hn Hd Hl;
    (destruct pnode as [node|]; [|discriminate Hn]); cbn [in_view box_of].
  - split; [|exact I]. apply (Hd O node). reflexivity.
  - split; [apply (Hd O node); reflexivity|].
    cbn [length] in Hl. split; [lia|].
    cbn [descend_ptr descend] in Hn.
    destruct (childs node i) as [c|] eqn:Hc; [|discriminate Hn].
    split.
    { destruct i as [|[[|[]|]|[|[]|]|]|]; cbn in Hc; try discriminate Hc; lia. }
    cbn [childs_ptr]. rewrite Hc. apply (IH (Some c) (quadrant id i) n).
    + exact Hn.
    + intros k m Hm. apply (Hd (S k) m). cbn [firstn descend_ptr descend].
      rewrite Hc. exact Hm.
    + rewrite id_level_quadrant. lia.
Qed.

(** The walk reads four members of the manager: the counter, the id being
    loaded, the level it loads and the range. *)
Lemma walk_at_settings (a b : TileManager) :
  generation_ a = generation_ b -> loading_ a = loading_ b ->
  hires_level_ a = hires_level_ b -> hires_range_ a = hires_range_ b ->
  forall fuel info queue pnode id,
    walk_at fuel a info queue pnode id = walk_at fuel b info queue pnode id.
Proof.
  intros Hg Hld Hl Hr fuel.
  induction fuel as [|fuel IH]; intros info queue pnode id; [reflexivity|].
  rewrite !RecLoadTiles_unfold.
  unfold hires_range2, visited_node, leaf_visit, visit_childs.
  rewrite Hg, Hld, Hl, Hr.
  assert (Hvc : forall acc i, visit_child fuel a id acc i = visit_child fuel b id acc i).
  { intros [[w node]|] i; [|reflexivity]. cbn [visit_child]. now rewrite IH. }
  cbn [fold_left]. now rewrite !Hvc.
Qed.

(** The four calls, put together: the converse of [visit_childs_inv]. *)
Lemma visit_childs_intro (fuel : nat) (this : TileManager) (info : RecLoadTilesInfo)
    (queue : list TileTask) (node : QuadNode) (id : TileId) (w0 w1 w2 w3 : Walk) :
  walk_at fuel this info queue (childs node 0) (quadrant id 0) = Some w0 ->
  walk_at fuel this (w_info w0) (w_queue w0) (childs node 1) (quadrant id 1) = Some w1 ->
  walk_at fuel this (w_info w1) (w_queue w1) (childs node 2) (quadrant id 2) = Some w2 ->
  walk_at fuel this (w_info w2) (w_queue w2) (childs node 3) (quadrant id 3) = Some w3 ->
  visit_childs fuel this info queue node id
  = Some (mkWalk (w_info w3) (w_queue w3)
            (Some (set_child (set_child (set_child (set_child node
               0 (w_node w0)) 1 (w_node w1)) 2 (w_node w2)) 3 (w_node w3)))).
Proof.
  intros E0 E1 E2 E3.
  unfold visit_childs. cbn [fold_left visit_child w_info w_queue].
  rewrite E0. cbn [visit_child]. rewrite childs_set_child_other by lia.
  rewrite E1. cbn [visit_child]. rewrite !childs_set_child_other by lia.
  rewrite E2. cbn [visit_child]. rewrite !childs_set_child_other by lia.
  rewrite E3. reflexivity.
Qed.

(** Writing a field with the value it has changes nothing. *)
Lemma set_generation_same (node : QuadNode) :
  set_generation node (generation node) = node.
Proof. destruct node. reflexivity. Qed.

Lemma set_child4_again (node : QuadNode) (a0 a1 a2 a3 : option QuadNode) :
  set_child (set_child (set_child (set_child
    (set_child (set_child (set_child (set_child node 0 a0) 1 a1) 2 a2) 3 a3)
    0 a0) 1 a1) 2 a2) 3 a3
  = set_child (set_child (set_child (set_child node 0 a0) 1 a1) 2 a2) 3 a3.
Proof. destruct node. reflexivity. Qed.

Lemma visited_node_again (this : TileManager) (node : QuadNode) (id : TileId) :
  generation node = generation_ this ->
  visited_node this (Some node) id = node.
Proof.
  intros H. unfold visited_node. rewrite <- H. apply set_generation_same.
Qed.

(** A call repeated on the pointer it left, from the same info record and
    queue, does the same again and changes nothing. *)
Lemma walk_at_again (this : TileManager) (fuel : nat) :
  forall info queue pnode id w,
  walk_at fuel this info queue pnode id = Some w ->
  walk_at fuel this info queue (w_node w) id = Some w.
Proof.
  induction fuel as [|fuel IH]; intros info queue pnode id w Hw; [discriminate Hw|].
  rewrite RecLoadTiles_unfold in Hw.
  destruct (Qgtb _ _) eqn:Hd.
  - injection Hw as <-. cbn [w_node]. rewrite RecLoadTiles_unfold, Hd. reflexivity.
  - assert (Hgen : generation (visited_node this pnode id) = generation_ this).
    { pose proof (payload_visited_node this pnode id) as Hp.
      unfold payload in Hp. congruence. }
    destruct (id_level id =? hires_level_ this) eqn:Hl.
    + injection Hw as <-.
      destruct (leaf_visit_cases this info queue (visited_node this pnode id)
                  (thisdist_of (viewer_pos info) (box_of pnode id)) id) as [-> _].
      rewrite RecLoadTiles_unfold. cbn [box_of].
      rewrite bbox_visited_node, Hd, Hl.
      now rewrite visited_node_again.
    + apply visit_childs_inv in Hw.
      destruct Hw as (w0 & w1 & w2 & w3 & E0 & E1 & E2 & E3 & ->).
      cbn [w_node]. rewrite RecLoadTiles_unfold. cbn [box_of].
      set (node' := set_child (set_child (set_child (set_child
                      (visited_node this pnode id)
                      0 (w_node w0)) 1 (w_node w1)) 2 (w_node w2)) 3 (w_node w3)).
      pose proof (payload_set_child4 (visited_node this pnode id)
                    (w_node w0) (w_node w1) (w_node w2) (w_node w3)) as Hp.
      fold node' in Hp. apply payload_fields in Hp. destruct Hp as (Hb & _ & Hg).
      rewrite Hb, bbox_visited_node, Hd, Hl.
      rewrite visited_node_again by congruence.
      apply IH in E0, E1, E2, E3.
      rewrite (visit_childs_intro fuel this info queue node' id w0 w1 w2 w3).
      * unfold node'. now rewrite set_child4_again.
      * unfold node'. now rewrite childs_set_child4.
      * unfold node'. now rewrite childs_set_child4.
      * unfold node'. now rewrite childs_set_child4.
      * unfold node'. now rewrite childs_set_child4.
Qed.

(** A call that adds nothing. *)
Lemma adds_distinct_none (queue : list TileTask) (id : TileId) (w : Walk) :
  w_queue w = queue -> adds_distinct queue id w.
Proof.
  intros H. exists [], []. rewrite H. cbn. repeat split; auto; constructor.
Qed.

(** The call on child [i], after the calls on the children before it: the
    paths it adds start with [i], those added before with a smaller index. *)
Lemma adds_distinct_child (queue : list TileTask) (id : TileId) (i : Z)
    (w w' : Walk) (pnode : option QuadNode) :
  0 <= i <= 3 ->
  (exists added paths,
     Permutation (w_queue w) (added ++ queue)
     /\ NoDup paths
     /\ Forall (Forall valid_index) paths
     /\ Forall (fun p => exists j rest, p = j :: rest /\ j < i) paths
     /\ map task_id added = map (retrace_from id) paths) ->
  adds_distinct (w_queue w) (quadrant id i) w' ->
  exists added paths,
    Permutation (w_queue w') (added ++ queue)
    /\ NoDup paths
    /\ Forall (Forall valid_index) paths
    /\ Forall (fun p => exists j rest, p = j :: rest /\ j < i + 1) paths
    /\ map task_id added = map (retrace_from id) paths.
Proof.
  intros Hi (a & ps & Hq & Hnd & Hv & Hlt & Hid) (a' & ps' & Hq' & Hnd' & Hv' & Hid').
  exists (a' ++ a), (map (cons i) ps' ++ ps). split; [|split; [|split; [|split]]].
  - rewrite Hq', <- app_assoc. now apply Permutation_app_head.
  - apply NoDup_app; [|exact Hnd|].
    + apply NoDup_map_NoDup_ForallPairs; [|exact Hnd'].
      intros p q _ _ E. now injection E.
    + intros p Hp Hp'. apply in_map_iff in Hp. destruct Hp as (p0 & <- & _).
      rewrite Forall_forall in Hlt. destruct (Hlt _ Hp') as (j & rest & E & Hj).
      injection E as -> _. lia.
  - apply Forall_app. split; [|exact Hv].
    rewrite Forall_map. eapply Forall_impl; [|exact Hv'].
    intros p Hp. constructor; [exact Hi|exact Hp].
  - apply Forall_app. split.
    + rewrite Forall_map. apply Forall_forall. intros p _. exists i, p. split; [auto|lia].
    + eapply Forall_impl; [|exact Hlt]. intros p (j & rest & -> & Hj).
      exists j, rest. split; [auto|lia].
  - rewrite !map_app, Hid, Hid', map_map. reflexivity.
Qed.

(** Every call adds tasks for different tiles only. *)
Lemma walk_adds_distinct (this : TileManager) (fuel : nat) info queue pnode id w :
  walk_at fuel this info queue pnode id = Some w -> adds_distinct queue id w.
Proof.
  revert info queue pnode id w.
  apply (walk_ind this (fun info queue _ id w => adds_distinct queue id w)).
  - intros. now apply adds_distinct_none.
  - intros info queue pnode id _ _.
    destruct (leaf_visit_cases this info queue (visited_node this pnode id)
                (thisdist_of (viewer_pos info) (box_of pnode id)) id)
      as [_ [[_ Hq]|(_ & _ & [[_ Hq]|(_ & Hq & _)])]].
    + now apply adds_distinct_none.
    + eexists [_], [[]]. rewrite Hq. split; [|split; [|split]].
      * cbn [app]. reflexivity.
      * constructor; [intros []|constructor].
      * repeat constructor.
      * reflexivity.
    + eexists [_], [[]]. rewrite Hq. split; [|split; [|split]].
      * apply Permutation_sym, Permutation_cons_append.
      * constructor; [intros []|constructor].
      * repeat constructor.
      * reflexivity.
  - intros _ info queue pnode id w0 w1 w2 w3 _ _ _ _ _ _ H0 H1 H2 H3.
    assert (S0 : exists added paths,
              Permutation (w_queue (mkWalk info queue None)) (added ++ queue)
              /\ NoDup paths
              /\ Forall (Forall valid_index) paths
              /\ Forall (fun p => exists j rest, p = j :: rest /\ j < 0) paths
              /\ map task_id added = map (retrace_from id) paths).
    { exists [], []. cbn. repeat split; auto; constructor. }
    pose proof (adds_distinct_child queue id 0 _ w0 None ltac:(lia) S0 H0) as S1.
    pose proof (adds_distinct_child queue id 1 _ w1 None ltac:(lia) S1 H1) as S2.
    pose proof (adds_distinct_child queue id 2 _ w2 None ltac:(lia) S2 H2) as S3.
    pose proof (adds_distinct_child queue id 3 _ w3 None ltac:(lia) S3 H3) as S4.
    destruct S4 as (a & ps & Hq & Hnd & Hv & _ & Hid).
    exists a, ps. cbn [w_queue]. auto.
Qed.

End Frame.

(** ** The loading thread *)

Section Worker.
Context `{Collab : Collaborators}.

(** [tree_keeps] is a preorder. *)
Lemma tree_keeps_refl (a : QuadNode) : tree_keeps a a.
Proof. intros q m H. eauto. Qed.

Lemma tree_keeps_trans (a b c : QuadNode) :
  tree_keeps a b -> tree_keeps b c -> tree_keeps a c.
Proof.
  intros Hab Hbc q m H.
  destruct (Hab q m H) as (m1 & H1 & Hb1 & Hg1 & Ht1).
  destruct (Hbc q m1 H1) as (m2 & H2 & Hb2 & Hg2 & Ht2).
  exists m2. repeat split; try congruence. auto.
Qed.

(** The placement removes nothing: it changes at most the tile of the node
    at the end of the placement path, from none to the one it is given. *)
Lemma RecPlaceTile_node_keeps (node : QuadNode) (t : Tile) (level x y : Z) :
  0 <= level ->
  tree_keeps node (fst (RecPlaceTile_node node t level x y)).
Proof.
  intros Hl q m Hq.
  pose proof (RecPlaceTile_node_path (Z.to_nat level) node t x y) as Hp.
  cbv zeta in Hp. rewrite Z2Nat.id in Hp by lia.
  destruct (descend node (place_path (Z.to_nat level) x y)) as [m1|] eqn:Hd.
  - destruct (tile m1) eqn:Ht1.
    + rewrite Hp. cbn [fst]. eauto.
    + destruct Hp as (node' & -> & Hd' & Hframe). cbn [fst].
      destruct (list_eq_dec Z.eq_dec q (place_path (Z.to_nat level) x y))
        as [->|Hne].
      * rewrite Hd'. rewrite Hd in Hq. injection Hq as <-.
        exists (set_tile m1 (Some t)). split; [reflexivity|].
        split; [now destruct m1|]. split; [now destruct m1|].
        intros t0 E. congruence.
      * specialize (Hframe q Hne). rewrite Hq in Hframe.
        destruct (descend node' q) as [m'|]; [|discriminate Hframe].
        assert (Hpay : payload m' = payload m)
          by (cbn [option_map] in Hframe; congruence).
        apply payload_fields in Hpay. destruct Hpay as (Hb & Ht & Hg).
        exists m'. repeat split; auto. intros t0 E. congruence.
  - rewrite Hp. cbn [fst]. eauto.
Qed.

(** When the node is there, it holds a tile after the placement. *)
Lemma RecPlaceTile_node_resident (node : QuadNode) (t : Tile) (level x y : Z) (m : QuadNode) :
  0 <= level ->
  descend node (place_path (Z.to_nat level) x y) = Some m ->
  exists m' t',
    descend (fst (RecPlaceTile_node node t level x y))
      (place_path (Z.to_nat level) x y) = Some m'
    /\ tile m' = Some t'.
Proof.
  intros Hl Hd.
  pose proof (RecPlaceTile_node_path (Z.to_nat level) node t x y) as Hp.
  cbv zeta in Hp. rewrite Z2Nat.id in Hp by lia. rewrite Hd in Hp.
  destruct (tile m) as [t0|] eqn:Ht.
  - rewrite Hp. cbn [fst]. eauto.
  - destruct Hp as (node' & -> & Hd' & _). cbn [fst].
    exists (set_tile m (Some t)), t. split; [exact Hd'|]. now destruct m.
Qed.

(** The stamps along a path, read prefix by prefix. *)
Lemma marked_along_prefix (g : Z) (path : list Z) : forall node,
  marked_along g node path
  <-> forall k, (k <= length path)%nat ->
        exists m, descend node (firstn k path) = Some m /\ generation m = g.
Proof.
  unfold marked_along.
  induction path as [|i path IH]; intros node.
  - cbn [marked_below length]. split.
    + intros [Hg _] k Hk. rewrite firstn_nil. cbn. eauto.
    + intros H. destruct (H O (le_n _)) as (m & Hm & Hg).
      cbn in Hm. injection Hm as <-. auto.
  - cbn [marked_below length]. split.
    + intros [Hg Hc] [|k] Hk; [cbn; eauto|].
      cbn [firstn descend].
      destruct (childs node i) as [c|]; [|contradiction].
      apply (proj1 (IH c) Hc). lia.
    + intros H. split.
      * destruct (H O ltac:(lia)) as (m & Hm & Hg).
        cbn in Hm. injection Hm as <-. exact Hg.
      * destruct (H 1%nat ltac:(lia)) as (m & Hm & Hg).
        cbn [firstn descend] in Hm.
        destruct (childs node i) as [c|] eqn:Hc; [|discriminate Hm].
        apply IH. intros k Hk. specialize (H (S k) ltac:(lia)).
        cbn [firstn descend] in H. rewrite Hc in H. exact H.
Qed.

(** Stamps, residence and presence carry over to a tree that keeps the
    nodes. *)
Lemma marked_along_keeps (g : Z) (a b : QuadNode) (path : list Z) :
  tree_keeps a b -> marked_along g a path -> marked_along g b path.
Proof.
  intros Hk. rewrite !marked_along_prefix. intros H k Hle.
  destruct (H k Hle) as (m & Hm & Hg).
  destruct (Hk _ _ Hm) as (m' & Hm' & _ & Hg' & _).
  exists m'. split; [exact Hm'|congruence].
Qed.

Lemma resident_keeps (this this' : TileManager) (id : TileId) :
  tree_keeps (root_ this) (root_ this') -> resident this id -> resident this' id.
Proof.
  intros Hk (node & t & Hn & Ht).
  destruct (Hk _ _ Hn) as (m' & Hm' & _ & _ & Ht').
  exists m', t. auto.
Qed.

Lemma descend_keeps (a b : QuadNode) (q : list Z) :
  tree_keeps a b -> descend a q <> None -> descend b q <> None.
Proof.
  intros Hk H. destruct (descend a q) as [m|] eqn:Hm; [|congruence].
  destruct (Hk _ _ Hm) as (m' & -> & _). discriminate.
Qed.

(** Storing the root the manager has changes nothing. *)
Lemma set_root_root (this : TileManager) : set_root this (root_ this) = this.
Proof. destruct this. reflexivity. Qed.

(** One iteration of the worker on a queue that is not empty. *)
Lemma LoadingIteration_step (SpawnTile : BBoxi -> Tile) (this : TileManager)
    (task : TileTask) (rest : list TileTask) :
  queue_ this = task :: rest ->
  let placed := RecPlaceTile_node (root_ this) (SpawnTile (task_bbox task))
                  (id_level (task_id task)) (id_x (task_id task))
                  (id_y (task_id task)) in
  LoadingIteration SpawnTile this
  = Some (set_loading (set_queue (set_root this (fst placed)) rest) no_tile,
          snd placed).
Proof.
  intros Hq. unfold LoadingIteration, Dequeue, PlaceTile. rewrite Hq.
  cbn [task_id task_bbox root_]. cbv zeta.
  destruct (RecPlaceTile_node _ _ _ _ _) as [root' o]. reflexivity.
Qed.

(** The worker run until the queue is empty: every task whose node is in the
    tree has its tile resident afterwards, and no node is lost. *)
Lemma LoadingRun_places (SpawnTile : BBoxi -> Tile) (n : nat) :
  forall this,
  (length (queue_ this) <= n)%nat ->
  (forall task, In task (queue_ this) ->
     0 <= id_level (task_id task)
     /\ descend (root_ this)
          (place_path (Z.to_nat (id_level (task_id task)))
             (id_x (task_id task)) (id_y (task_id task))) <> None) ->
  queue_ (LoadingRun SpawnTile n this) = []
  /\ generation_ (LoadingRun SpawnTile n this) = generation_ this
  /\ tree_keeps (root_ this) (root_ (LoadingRun SpawnTile n this))
  /\ forall task, In task (queue_ this) ->
       resident (LoadingRun SpawnTile n this) (task_id task).
Proof.
  induction n as [|n IH]; intros this Hlen Hnodes.
  - cbn [LoadingRun]. destruct (queue_ this) as [|task rest] eqn:Hq;
      [|cbn in Hlen; lia].
    split; [reflexivity|]. split; [reflexivity|].
    split; [apply tree_keeps_refl|]. intros task [].
  - cbn [LoadingRun].
    destruct (queue_ this) as [|task rest] eqn:Hq.
    + unfold LoadingIteration, Dequeue. rewrite Hq.
      split; [exact Hq|]. split; [reflexivity|].
      split; [apply tree_keeps_refl|]. intros task [].
    + rewrite (LoadingIteration_step SpawnTile this task rest Hq). cbv zeta.
      set (placed := RecPlaceTile_node (root_ this) (SpawnTile (task_bbox task))
                       (id_level (task_id task)) (id_x (task_id task))
                       (id_y (task_id task))).
      set (this1 := set_loading (set_queue (set_root this (fst placed)) rest) no_tile).
      destruct (Hnodes task (or_introl eq_refl)) as [Hl Hnode].
      assert (Hk1 : tree_keeps (root_ this) (root_ this1)).
      { cbn [this1 root_ set_loading set_queue set_root].
        now apply RecPlaceTile_node_keeps. }
      destruct (IH this1) as (Hq' & Hg' & Hk' & Hres).
      * cbn [this1 queue_ set_loading set_queue]. cbn in Hlen. lia.
      * intros task' Hin. cbn [this1 queue_ set_loading set_queue] in Hin.
        destruct (Hnodes task' (or_intror Hin)) as [Hl' Hn']. split; [exact Hl'|].
        exact (descend_keeps _ _ _ Hk1 Hn').
      * split; [exact Hq'|]. split; [exact Hg'|].
        split; [eapply tree_keeps_trans; eassumption|].
        intros task' [<-|Hin].
        -- apply (resident_keeps this1); [exact Hk'|].
           destruct (descend (root_ this)
                       (place_path (Z.to_nat (id_level (task_id task)))
                          (id_x (task_id task)) (id_y (task_id task))))
             as [m|] eqn:Hm; [|congruence].
           destruct (RecPlaceTile_node_resident (root_ this)
                       (SpawnTile (task_bbox task)) _ _ _ m Hl Hm)
             as (m' & t' & Hm' & Ht').
           exists m', t'. split; [exact Hm'|exact Ht'].
        -- apply Hres. exact Hin.
Qed.

(** [LoadLocality] writes the tree and the queue, nothing else. *)
Lemma LoadLocality_generation (fuel : nat) (this : TileManager) (pos : Vector3i)
    (flags : Z) (uninit : Q) (r : Loaded) :
  LoadLocality fuel this pos flags uninit = Some r ->
  generation_ (l_manager r) = generation_ this
  /\ loading_ (l_manager r) = loading_ this
  /\ hires_level_ (l_manager r) = hires_level_ this
  /\ hires_range_ (l_manager r) = hires_range_ this
  /\ lowres_level_ (l_manager r) = lowres_level_ this
  /\ lowres_range_ (l_manager r) = lowres_range_ this.
Proof.
  intros Hr. apply LoadLocality_walk in Hr.
  destruct Hr as (w & root' & _ & _ & ->). cbn. auto 7.
Qed.

(** A task [LoadLocality] enqueues is for a tile that is not resident. *)
Lemma LoadLocality_skips_resident (fuel : nat) (this : TileManager) (pos : Vector3i)
    (flags : Z) (uninit : Q) (r : Loaded) (task : TileTask) :
  Z.land flags SYNC = 0 ->
  LoadLocality fuel this pos flags uninit = Some r ->
  In task (queue_ (l_manager r)) ->
  ~ resident this (task_id task).
Proof.
  intros Hs Hr Hin (node & t & Hn & Ht).
  destruct (LoadLocality_enqueued _ _ _ _ _ _ _ Hs Hr Hin)
    as (_ & _ & _ & Hwant & _).
  apply wanted_iff in Hwant. destruct Hwant as (_ & _ & _ & Htl & _).
  specialize (Htl node Hn). congruence.
Qed.

End Worker.

Section Placeable.
Context `{Collab : Collaborators}.

(** A task [LoadLocality] left in the queue can be placed: its node is
    there and holds no tile. *)
Lemma LoadLocality_enqueued_placeable
    (fuel : nat) (this : TileManager) (pos : Vector3i) (flags : Z) (uninit : Q)
    (r : Loaded) (task : TileTask) (t : Tile) :
  Z.land flags SYNC = 0 ->
  LoadLocality fuel this pos flags uninit = Some r ->
  In task (queue_ (l_manager r)) ->
  exists root',
    PlaceTile (l_manager r) t (task_id task)
    = (set_root (l_manager r) root', Attached).
Proof.
  intros Hs Hr Hin.
  destruct (LoadLocality_enqueued _ _ _ _ _ _ _ Hs Hr Hin)
    as (Hl & _ & _ & _ & _ & node & Hn & Hpay).
  unfold PlaceTile.
  pose proof (RecPlaceTile_node_path (Z.to_nat (id_level (task_id task)))
                (root_ (l_manager r)) t (id_x (task_id task)) (id_y (task_id task)))
    as Hp.
  cbv zeta in Hp. rewrite Z2Nat.id in Hp by lia. rewrite Hn in Hp.
  unfold payload in Hpay. injection Hpay as _ Ht _. rewrite Ht in Hp.
  destruct Hp as (root' & -> & _). eauto.
Qed.

End Placeable.

(** ** Collection and rendering *)

Section Sweep_and_render.
Context `{Collab : Collaborators}.

(** X5.  What [GarbageCollect] keeps.  A node is in the tree after the
    collection exactly when it was there before and every node on the way to
    it, below the root, carries the value of the counter as its stamp; it is
    then the swept node, with the box, the tile and the stamp it had.  The
    tiles the sweep deletes are the tiles of the other nodes. *)
Theorem GarbageCollect_keeps_marked_nodes (this : TileManager) :
  (forall path m,
     descend (root_ (GarbageCollect this)) path = Some m
     <-> marked_below (generation_ this) (root_ this) path
         /\ exists m0, descend (root_ this) path = Some m0
                       /\ m = RecGarbageCollectTiles (generation_ this) m0)
  /\ (forall path m m0,
        descend (root_ (GarbageCollect this)) path = Some m ->
        descend (root_ this) path = Some m0 ->
        payload m = payload m0)
  /\ (forall t,
        In t (RecGarbageCollectTiles_deleted (generation_ this) (root_ this))
        <-> exists path n,
              descend (root_ this) path = Some n /\ tile n = Some t
              /\ ~ marked_below (generation_ this) (root_ this) path).
Proof.
  split; [|split].
  - intros path m. apply descend_RecGarbageCollectTiles_iff.
  - intros path m m0 Hm Hm0.
    apply descend_RecGarbageCollectTiles_iff in Hm.
    destruct Hm as (_ & m1 & Hm1 & ->).
    rewrite Hm0 in Hm1. injection Hm1 as <-.
    apply RecGarbageCollectTiles_payload.
  - intros t. apply In_RecGarbageCollectTiles_deleted.
Qed.

(** X6.  [GarbageCollect] loses nothing and deletes nothing twice: the tiles
    of the tree before are, up to order, the tiles of the tree after together
    with the tiles the sweep deleted, and the nodes before are as many as the
    nodes after and the nodes the sweep freed. *)
Theorem GarbageCollect_conserves_tiles_and_nodes (this : TileManager) :
  Permutation (RecDestroyTiles (root_ this))
    (RecDestroyTiles (root_ (GarbageCollect this))
     ++ RecGarbageCollectTiles_deleted (generation_ this) (root_ this))
  /\ node_count (root_ this)
     = (node_count (root_ (GarbageCollect this))
        + RecGarbageCollectTiles_freed (generation_ this) (root_ this))%nat.
Proof.
  cbn [GarbageCollect root_ set_generation_ set_root].
  generalize (generation_ this) as g. generalize (root_ this) as node.
  intros node g. split.
  - induction node as [b tl s c0 c1 c2 c3 H0 H1 H2 H3] using QuadNode_rect_below.
    rewrite (RecDestroyTiles_childs (RecGarbageCollectTiles g _)),
      !RecGarbageCollectTiles_childs, own_tile_RecGarbageCollectTiles,
      RecDestroyTiles_childs, RecGarbageCollectTiles_deleted_childs.
    apply Permutation_slots; apply destroy_slot_sweep; assumption.
  - induction node as [b tl s c0 c1 c2 c3 H0 H1 H2 H3] using QuadNode_rect_below.
    rewrite (node_count_slots (RecGarbageCollectTiles g _)),
      !RecGarbageCollectTiles_childs, node_count_slots,
      RecGarbageCollectTiles_freed_childs.
    cbn [childs child0 child1 child2 child3].
    apply (count_slot_sweep g) in H0, H1, H2, H3. lia.
Qed.

(** At most one tile for each node, slot by slot. *)
Lemma length_destroy_slot (c : option QuadNode) :
  below (fun n => (length (RecDestroyTiles n) <= node_count n)%nat) c ->
  (length (destroy_slot c) <= count_slot c)%nat.
Proof. destruct c; cbn; [auto|lia]. Qed.

(** X7.  [RecDestroyTiles], as the destructor calls it on [&root_], deletes
    the tile of every node of the tree, whatever its stamp, and nothing else;
    it deletes at most one tile for each node. *)
Theorem RecDestroyTiles_deletes_every_tile (node : QuadNode) :
  (forall t, In t (RecDestroyTiles node)
     <-> exists path n, descend node path = Some n /\ tile n = Some t)
  /\ (length (RecDestroyTiles node) <= node_count node)%nat.
Proof.
  split; [intros t; apply In_RecDestroyTiles|].
  induction node as [b tl s c0 c1 c2 c3 H0 H1 H2 H3] using QuadNode_rect_below.
  rewrite RecDestroyTiles_childs, node_count_slots, !length_app.
  cbn [childs child0 child1 child2 child3].
  apply length_destroy_slot in H0, H1, H2, H3.
  assert (length (own_tile (mkQuadNode b tl s c0 c1 c2 c3)) <= 1)%nat
    by (destruct tl; cbn; lia).
  lia.
Qed.

(** X8.  [Render] draws the tile of a node exactly when the node and every
    node on the way to it, the root included, carry the current value of the
    counter as their stamp. *)
Theorem Render_draws_marked_tiles (this : TileManager) (t : Tile) :
  In t (Render this)
  <-> exists path n,
        marked_along (generation_ this) (root_ this) path
        /\ descend (root_ this) path = Some n
        /\ tile n = Some t.
Proof. apply In_RecRenderTiles. Qed.

(** X9.  After [GarbageCollect] and before the next [LoadLocality], [Render]
    draws nothing below the root: the nodes the collection kept carry the
    previous value of the counter.  It draws the root's own tile when the
    root happens to carry the new value, and nothing otherwise. *)
Theorem Render_after_GarbageCollect (this : TileManager) :
  Render (GarbageCollect this)
  = if generation (root_ this) =? generation_incr (generation_ this)
    then own_tile (root_ this)
    else [].
Proof.
  unfold Render. cbn [GarbageCollect generation_ root_ set_generation_ set_root].
  rewrite RecRenderTiles_childs, RecGarbageCollectTiles_generation,
    own_tile_RecGarbageCollectTiles, !RecGarbageCollectTiles_childs.
  destruct (generation (root_ this) =? generation_incr (generation_ this));
    cbn [negb]; [|reflexivity].
  now rewrite !render_slot_other_stamp by apply generation_incr_neq.
Qed.

(** X10.  The sweep removes nothing [Render] was drawing: for the value the
    counter had before the collection, [RecRenderTiles] draws on the tree
    after it the tiles [Render] drew before, in the same order, and every
    tile [Render] drew is still held by the tree. *)
Theorem GarbageCollect_keeps_rendered_tiles (this : TileManager) :
  RecRenderTiles (generation_ this) (root_ (GarbageCollect this)) = Render this
  /\ forall t, In t (Render this) ->
       In t (RecDestroyTiles (root_ (GarbageCollect this)))
       /\ In t (RecDestroyTiles (root_ this)).
Proof.
  split; [apply RecRenderTiles_sweep|].
  intros t Ht.
  assert (H : forall node, In t (RecRenderTiles (generation_ this) node) ->
                In t (RecDestroyTiles node)).
  { intros node Hn. apply In_RecRenderTiles in Hn.
    destruct Hn as (path & n & _ & Hd & Htl). apply In_RecDestroyTiles. eauto. }
  split; [|now apply H].
  apply H. cbn [GarbageCollect root_ set_generation_ set_root].
  now rewrite RecRenderTiles_sweep.
Qed.

End Sweep_and_render.

(** ** The walk, seen from the other operations *)

Section Load_and_render.
Context `{Collab : Collaborators}.

(** X11.  [LoadLocality] removes no node and touches no tile: every node of
    the tree is still there with its box and its tile, the tiles the tree
    holds are the same in the same order, and the counter, the id being
    loaded, the level and the range are what they were. *)
Theorem LoadLocality_keeps_nodes_and_tiles
    (fuel : nat) (this : TileManager) (pos : Vector3i) (flags : Z) (uninit : Q)
    (r : Loaded) :
  LoadLocality fuel this pos flags uninit = Some r ->
  (forall path n, descend (root_ this) path = Some n ->
     exists n', descend (root_ (l_manager r)) path = Some n'
                /\ bbox n' = bbox n /\ tile n' = tile n)
  /\ RecDestroyTiles (root_ (l_manager r)) = RecDestroyTiles (root_ this)
  /\ generation_ (l_manager r) = generation_ this
  /\ loading_ (l_manager r) = loading_ this
  /\ hires_level_ (l_manager r) = hires_level_ this
  /\ hires_range_ (l_manager r) = hires_range_ this.
Proof.
  intros Hr.
  destruct (LoadLocality_generation _ _ _ _ _ _ Hr) as (Hg & Hld & Hl & Hrg & _).
  apply LoadLocality_walk in Hr. destruct Hr as (w & root' & Hw & Hroot & Hm).
  rewrite Hm in *. cbn [root_ set_queue set_root].
  split; [|split; [|auto]].
  - intros path n Hn. apply walk_tree_grows in Hw. destruct Hw as [_ [Hnew Hkeep]].
    rewrite Hroot in Hnew, Hkeep. specialize (Hkeep path n Hn).
    cbn [descend_ptr] in Hkeep.
    destruct (descend root' path) as [n'|] eqn:Hn'; [|congruence].
    specialize (Hnew path n' Hn'). cbn [descend_ptr] in Hnew. rewrite Hn in Hnew.
    exists n'. tauto.
  - apply walk_keeps_tiles in Hw. rewrite Hroot in Hw. exact Hw.
Qed.

(** X12.  After [LoadLocality], [Render] draws every tile of the tree whose
    node is at most at [hires_level_] and is reached through nodes whose
    boxes, its own included, all pass the range check for the viewer's
    position. *)
Theorem Render_after_LoadLocality
    (fuel : nat) (this : TileManager) (pos : Vector3i) (flags : Z) (uninit : Q)
    (r : Loaded) (path : list Z) (n : QuadNode) (t : Tile) :
  LoadLocality fuel this pos flags uninit = Some r ->
  descend (root_ this) path = Some n ->
  tile n = Some t ->
  Z.of_nat (length path) <= hires_level_ this ->
  (forall k m, descend (root_ this) (firstn k path) = Some m ->
     (thisdist_of pos (bbox m) <= hires_range2 this)%Q) ->
  In t (Render (l_manager r)).
Proof.
  intros Hr Hn Ht Hlen Hd.
  destruct (LoadLocality_generation _ _ _ _ _ _ Hr) as (Hg & _).
  apply LoadLocality_walk in Hr. destruct Hr as (w & root' & Hw & Hroot & Hm).
  assert (Hv : in_view this pos (Some (root_ this)) (mkTileId 0 0 0) path).
  { apply (in_view_of_nodes this pos path _ _ n); [exact Hn|exact Hd|].
    cbn [id_level]. lia. }
  pose proof (walk_marks_in_view _ _ _ _ _ _ _ Hw path) as Hmark.
  cbn [viewer_pos RecLoadTilesInfo_new] in Hmark.
  specialize (Hmark (proj2 (in_view_set_queue _ _ _ _ _ _) Hv)).
  rewrite Hroot in Hmark. cbn [marked_ptr generation_ set_queue] in Hmark.
  destruct (marked_below_descend _ _ _ (proj2 Hmark)) as [n' Hn'].
  apply walk_tree_grows in Hw. destruct Hw as [_ [Hnew _]].
  rewrite Hroot in Hnew. specialize (Hnew path n' Hn').
  cbn [descend_ptr] in Hnew. rewrite Hn in Hnew. destruct Hnew as [_ Htl].
  unfold Render. rewrite Hg. rewrite Hm. cbn [root_ set_queue set_root].
  apply In_RecRenderTiles. exists path, n'. split; [exact Hmark|].
  split; [exact Hn'|congruence].
Qed.

(** X16.  [LoadLocality] without [SYNC] is idempotent: called again on the
    manager it left, for the same position of the viewer, it leaves the same
    tree and the same queue and signals as before. *)
Theorem LoadLocality_idempotent
    (fuel : nat) (this : TileManager) (pos : Vector3i) (flags : Z) (uninit : Q)
    (r : Loaded) :
  Z.land flags SYNC = 0 ->
  LoadLocality fuel this pos flags uninit = Some r ->
  LoadLocality fuel (l_manager r) pos flags uninit = Some r.
Proof.
  intros Hs Hr. rewrite LoadLocality_unfold, Hs in Hr |- *.
  cbn [Z.eqb negb andb] in Hr |- *. cbv zeta in Hr |- *.
  destruct (walk_at _ _ _ _ _ _) as [w|] eqn:Hw; [|discriminate Hr].
  destruct (walk_keeps_node _ _ _ _ _ _ _ Hw) as [root' Hroot].
  rewrite Hroot in Hr. injection Hr as <-. cbn [l_manager root_ set_queue set_root].
  apply walk_at_again in Hw. rewrite Hroot in Hw.
  rewrite (walk_at_settings _ (set_queue this [])) by reflexivity.
  rewrite Hw, Hroot. reflexivity.
Qed.

(** X18.  [LoadLocality] without [SYNC] enqueues no tile twice: the ids of
    the tasks in the queue it leaves are pairwise different. *)
Theorem LoadLocality_queue_NoDup
    (fuel : nat) (this : TileManager) (pos : Vector3i) (flags : Z) (uninit : Q)
    (r : Loaded) :
  Z.land flags SYNC = 0 ->
  LoadLocality fuel this pos flags uninit = Some r ->
  NoDup (map task_id (queue_ (l_manager r))).
Proof.
  intros Hs Hr. apply LoadLocality_walk in Hr. rewrite Hs in Hr.
  cbn [Z.eqb negb] in Hr. destruct Hr as (w & root' & Hw & _ & ->).
  cbn [queue_ set_queue].
  apply walk_adds_distinct in Hw.
  destruct Hw as (added & paths & Hq & Hnd & Hv & Hid).
  rewrite app_nil_r in Hq.
  apply (Permutation_NoDup (Permutation_sym (Permutation_map task_id Hq))).
  rewrite Hid. apply NoDup_map_NoDup_ForallPairs; [|exact Hnd].
  intros p q Hp Hq' E. rewrite Forall_forall in Hv.
  apply retrace_unique; auto.
Qed.

End Load_and_render.

(** ** The walk and the loading thread together *)

Section Loading.
Context `{Collab : Collaborators}.

(** X13.  One iteration of the worker after [LoadLocality] without [SYNC],
    on the task at the front of the queue the call left: the tile [SpawnTile]
    returns for the task's box is attached, not deleted, at the end of the
    placement path of the task's id; the task is off the queue, [loading_] is
    back to [(-1, -1, -1)], and [Render] draws the tile. *)
Theorem LoadingIteration_places_front_task
    (SpawnTile : BBoxi -> Tile)
    (fuel : nat) (this : TileManager) (pos : Vector3i) (flags : Z) (uninit : Q)
    (r : Loaded) (task : TileTask) (rest : list TileTask) :
  Z.land flags SYNC = 0 ->
  LoadLocality fuel this pos flags uninit = Some r ->
  queue_ (l_manager r) = task :: rest ->
  exists this' node,
    LoadingIteration SpawnTile (l_manager r) = Some (this', Attached)
    /\ queue_ this' = rest
    /\ loading_ this' = no_tile
    /\ generation_ this' = generation_ this
    /\ descend (root_ this')
         (place_path (Z.to_nat (id_level (task_id task)))
            (id_x (task_id task)) (id_y (task_id task))) = Some node
    /\ payload node
       = (task_bbox task, Some (SpawnTile (task_bbox task)), generation_ this)
    /\ In (SpawnTile (task_bbox task)) (Render this').
Proof.
  intros Hs Hr Hq.
  destruct (LoadLocality_generation _ _ _ _ _ _ Hr) as (Hg & _).
  assert (Hin : In task (queue_ (l_manager r))) by (rewrite Hq; now left).
  destruct (LoadLocality_enqueued _ _ _ _ _ _ _ Hs Hr Hin)
    as (Hl & _ & _ & _ & Hmark & node & Hn & Hpay).
  rewrite (LoadingIteration_step SpawnTile _ task rest Hq). cbv zeta.
  pose proof (RecPlaceTile_node_keeps (root_ (l_manager r))
                (SpawnTile (task_bbox task)) (id_level (task_id task))
                (id_x (task_id task)) (id_y (task_id task)) Hl) as Hkeep.
  pose proof (RecPlaceTile_node_path (Z.to_nat (id_level (task_id task)))
                (root_ (l_manager r)) (SpawnTile (task_bbox task))
                (id_x (task_id task)) (id_y (task_id task))) as Hp.
  cbv zeta in Hp. rewrite Z2Nat.id in Hp by lia. rewrite Hn in Hp.
  unfold payload in Hpay. injection Hpay as Hb Ht Hgn.
  rewrite Ht in Hp. destruct Hp as (root' & Hplace & Hd & _).
  rewrite Hplace in Hkeep |- *. cbn [fst snd] in Hkeep |- *.
  eexists _, (set_tile node (Some (SpawnTile (task_bbox task)))).
  split; [reflexivity|]. cbn [queue_ loading_ generation_ root_ set_loading
                              set_queue set_root].
  split; [reflexivity|]. split; [reflexivity|]. split; [exact Hg|].
  split; [exact Hd|]. split.
  { rewrite payload_set_tile. congruence. }
  unfold Render. cbn [generation_ root_ set_loading set_queue set_root].
  apply In_RecRenderTiles.
  eexists _, (set_tile node (Some (SpawnTile (task_bbox task)))).
  split; [|split; [exact Hd|now destruct node]].
  apply (marked_along_keeps _ _ _ _ Hkeep). rewrite Hg. exact Hmark.
Qed.

(** X14.  A tile the placement attached is not asked for again:
    [LoadLocality] without [SYNC] on the manager after the placement leaves
    no task for its id in the queue, wherever the viewer is. *)
Theorem placed_tile_not_enqueued_again
    (this this' : TileManager) (t : Tile) (id : TileId)
    (fuel : nat) (pos : Vector3i) (flags : Z) (uninit : Q) (r : Loaded) :
  PlaceTile this t id = (this', Attached) ->
  Z.land flags SYNC = 0 ->
  LoadLocality fuel this' pos flags uninit = Some r ->
  forall task, In task (queue_ (l_manager r)) -> task_id task <> id.
Proof.
  intros Hplace Hs Hr task Hin E.
  destruct (LoadLocality_enqueued _ _ _ _ _ _ _ Hs Hr Hin)
    as (Hl & _ & _ & Hwant & _).
  rewrite E in Hl, Hwant.
  apply wanted_iff in Hwant. destruct Hwant as (_ & _ & _ & Htl & _).
  unfold PlaceTile in Hplace.
  pose proof (RecPlaceTile_node_path (Z.to_nat (id_level id)) (root_ this) t
                (id_x id) (id_y id)) as Hp.
  cbv zeta in Hp. rewrite Z2Nat.id in Hp by lia.
  destruct (descend (root_ this) _) as [m|].
  - destruct (tile m).
    + rewrite Hp in Hplace. discriminate Hplace.
    + destruct Hp as (root' & Hp & Hd & _). rewrite Hp in Hplace.
      injection Hplace as <-. cbn [root_ set_root descend_ptr] in Htl.
      specialize (Htl _ Hd). now destruct m.
  - rewrite Hp in Hplace. discriminate Hplace.
Qed.

(** X15.  A [GarbageCollect] directly after [LoadLocality] without [SYNC]
    keeps the node of every task the call left in the queue, so the
    placement of its tile still attaches it.  A second [GarbageCollect] with no [LoadLocality] in between
    removes the node (for [hires_level_ >= 1]): the placement then deletes
    the tile and leaves the manager as it is. *)
Theorem GarbageCollect_keeps_pending_nodes
    (fuel : nat) (this : TileManager) (pos : Vector3i) (flags : Z) (uninit : Q)
    (r : Loaded) (task : TileTask) (t : Tile) :
  Z.land flags SYNC = 0 ->
  LoadLocality fuel this pos flags uninit = Some r ->
  In task (queue_ (l_manager r)) ->
  (exists root' node,
     PlaceTile (GarbageCollect (l_manager r)) t (task_id task)
     = (set_root (GarbageCollect (l_manager r)) root', Attached)
     /\ descend root'
          (place_path (Z.to_nat (id_level (task_id task)))
             (id_x (task_id task)) (id_y (task_id task))) = Some node
     /\ tile node = Some t)
  /\ (1 <= hires_level_ this ->
      PlaceTile (GarbageCollect (GarbageCollect (l_manager r))) t (task_id task)
      = (GarbageCollect (GarbageCollect (l_manager r)), Deleted)).
Proof.
  intros Hs Hr Hin.
  destruct (LoadLocality_generation _ _ _ _ _ _ Hr) as (Hg & _).
  destruct (LoadLocality_enqueued _ _ _ _ _ _ _ Hs Hr Hin)
    as (Hl & Hlv & _ & _ & Hmark & node & Hn & Hpay).
  split.
  - unfold PlaceTile.
    cbn [GarbageCollect root_ set_generation_ set_root].
    pose proof (RecPlaceTile_node_path (Z.to_nat (id_level (task_id task)))
                  (RecGarbageCollectTiles (generation_ (l_manager r))
                     (root_ (l_manager r))) t
                  (id_x (task_id task)) (id_y (task_id task))) as Hp.
    cbv zeta in Hp. rewrite Z2Nat.id in Hp by lia.
    assert (Hd : descend (RecGarbageCollectTiles (generation_ (l_manager r))
                            (root_ (l_manager r)))
                   (place_path (Z.to_nat (id_level (task_id task)))
                      (id_x (task_id task)) (id_y (task_id task)))
                 = Some (RecGarbageCollectTiles (generation_ (l_manager r)) node)).
    { apply descend_RecGarbageCollectTiles_iff. rewrite Hg.
      split; [exact (proj2 Hmark)|]. eauto. }
    rewrite Hd in Hp.
    pose proof (RecGarbageCollectTiles_payload (generation_ (l_manager r)) node) as Hpay'.
    rewrite Hpay in Hpay'. unfold payload in Hpay'. injection Hpay' as _ Ht _.
    rewrite Ht in Hp. destruct Hp as (root' & -> & Hd' & _).
    exists root', (set_tile (RecGarbageCollectTiles (generation_ (l_manager r)) node)
                     (Some t)).
    split; [reflexivity|]. split; [exact Hd'|].
    now destruct (RecGarbageCollectTiles _ node).
  - intros Hh. unfold PlaceTile.
    set (M := GarbageCollect (GarbageCollect (l_manager r))).
    pose proof (RecPlaceTile_node_path (Z.to_nat (id_level (task_id task)))
                  (root_ M) t (id_x (task_id task)) (id_y (task_id task))) as Hp.
    cbv zeta in Hp. rewrite Z2Nat.id in Hp by lia.
    assert (Hd : descend (root_ M)
                   (place_path (Z.to_nat (id_level (task_id task)))
                      (id_x (task_id task)) (id_y (task_id task))) = None).
    { destruct (Z.to_nat (id_level (task_id task))) as [|k] eqn:Hk; [lia|].
      cbn [place_path descend].
      unfold M. cbn [GarbageCollect root_ generation_ set_generation_ set_root].
      rewrite !RecGarbageCollectTiles_childs.
      rewrite collect_slot_other_stamp by apply generation_incr_neq.
      reflexivity. }
    rewrite Hd in Hp. rewrite Hp. now rewrite set_root_root.
Qed.

(** X17.  The worker run until the queue is empty, after [LoadLocality]
    without [SYNC]: the queue is emptied, no node is lost, every tile that
    had a task is resident, and a later [LoadLocality] without [SYNC] asks
    for none of them, wherever the viewer is. *)
Theorem LoadingRun_drains_queue
    (SpawnTile : BBoxi -> Tile) (n : nat)
    (fuel : nat) (this : TileManager) (pos : Vector3i) (flags : Z) (uninit : Q)
    (r : Loaded) :
  Z.land flags SYNC = 0 ->
  LoadLocality fuel this pos flags uninit = Some r ->
  (length (queue_ (l_manager r)) <= n)%nat ->
  queue_ (LoadingRun SpawnTile n (l_manager r)) = []
  /\ tree_keeps (root_ (l_manager r)) (root_ (LoadingRun SpawnTile n (l_manager r)))
  /\ (forall task, In task (queue_ (l_manager r)) ->
        resident (LoadingRun SpawnTile n (l_manager r)) (task_id task))
  /\ (forall fuel' pos' uninit' r' task task',
        LoadLocality fuel' (LoadingRun SpawnTile n (l_manager r)) pos' flags uninit'
        = Some r' ->
        In task (queue_ (l_manager r)) ->
        In task' (queue_ (l_manager r')) ->
        task_id task' <> task_id task).
Proof.
  intros Hs Hr Hlen.
  destruct (LoadingRun_places SpawnTile n (l_manager r) Hlen)
    as (Hq & _ & Hk & Hres).
  { intros task Hin.
    destruct (LoadLocality_enqueued _ _ _ _ _ _ _ Hs Hr Hin)
      as (Hl & _ & _ & _ & _ & node & Hn & _).
    split; [exact Hl|]. rewrite Hn. discriminate. }
  split; [exact Hq|]. split; [exact Hk|]. split; [exact Hres|].
  intros fuel' pos' uninit' r' task task' Hr' Hin Hin' E.
  apply (LoadLocality_skips_resident _ _ _ _ _ _ _ Hs Hr' Hin').
  rewrite E. now apply Hres.
Qed.

End Loading.

(** ** The order of the queue *)

Section Closest.
Context `{Collab : Collaborators}.

(** The visit at [hires_level_] keeps the closest task at the front. *)
Lemma leaf_visit_front_closest (this : TileManager) (info : RecLoadTilesInfo)
    (queue : list TileTask) (node : QuadNode) (id : TileId) :
  front_closest info queue ->
  let w := leaf_visit this info queue node
             (thisdist_of (viewer_pos info) (bbox node)) id in
  front_closest (w_info w) (w_queue w).
Proof.
  intros H. unfold leaf_visit.
  destruct (tile node); [exact H|].
  destruct (negb (TileId_eqb (loading_ this) id)); [|exact H].
  destruct queue as [|t0 q].
  - cbn. split; [reflexivity|]. intros task [<-|[]]. apply Qle_refl.
  - destruct (Qltb _ _) eqn:Hlt.
    + apply Qltb_true in Hlt. destruct H as [_ H].
      cbn. split; [reflexivity|]. intros task [<-|Hin]; [apply Qle_refl|].
      apply Qlt_le_weak. eapply Qlt_le_trans; [exact Hlt|]. now apply H.
    + apply Qltb_false in Hlt.
      destruct (queue_size info <? 100); [|exact H].
      destruct H as [Hf H]. cbn. split; [exact Hf|].
      intros task [<-|Hin]; [apply H; now left|].
      apply in_app_iff in Hin. destruct Hin as [Hin|[<-|[]]].
      * apply H. now right.
      * exact Hlt.
Qed.

(** So does every call of the walk. *)
Lemma walk_front_closest (this : TileManager) (fuel : nat) info queue pnode id w :
  walk_at fuel this info queue pnode id = Some w ->
  front_closest info queue -> front_closest (w_info w) (w_queue w).
Proof.
  revert info queue pnode id w.
  apply (walk_ind this (fun info queue _ _ w =>
    front_closest info queue -> front_closest (w_info w) (w_queue w))).
  - auto.
  - intros info queue pnode id _ _ H.
    rewrite <- (bbox_visited_node this pnode id).
    now apply leaf_visit_front_closest.
  - intros _ info queue pnode id w0 w1 w2 w3 _ _ _ _ _ _ H0 H1 H2 H3 H.
    cbn [w_info w_queue]. auto.
Qed.

(** Once the queue is not empty it stays so, and [closest_distance] does
    not grow. *)
Lemma leaf_visit_closest_decreases (this : TileManager) (info : RecLoadTilesInfo)
    (queue : list TileTask) (node : QuadNode) (d : Q) (id : TileId) :
  queue <> [] ->
  let w := leaf_visit this info queue node d id in
  w_queue w <> [] /\ (closest_distance (w_info w) <= closest_distance info)%Q.
Proof.
  intros Hne. unfold leaf_visit.
  destruct (tile node); [split; [exact Hne|apply Qle_refl]|].
  destruct (negb (TileId_eqb (loading_ this) id));
    [|split; [exact Hne|apply Qle_refl]].
  destruct queue as [|t0 q]; [contradiction|].
  destruct (Qltb _ _) eqn:Hlt.
  - apply Qltb_true in Hlt. cbn. split; [discriminate|now apply Qlt_le_weak].
  - destruct (queue_size info <? 100); cbn.
    + split; [discriminate|apply Qle_refl].
    + split; [discriminate|apply Qle_refl].
Qed.

(** So for every call of the walk. *)
Lemma walk_closest_decreases (this : TileManager) (fuel : nat)
    info queue pnode id w :
  walk_at fuel this info queue pnode id = Some w ->
  queue <> [] ->
  w_queue w <> [] /\ (closest_distance (w_info w) <= closest_distance info)%Q.
Proof.
  revert info queue pnode id w.
  apply (walk_ind this (fun info queue _ _ w =>
    queue <> [] ->
    w_queue w <> []
    /\ (closest_distance (w_info w) <= closest_distance info)%Q)).
  - intros info queue pnode id _ Hne. split; [exact Hne|apply Qle_refl].
  - intros info queue pnode id _ _ Hne. now apply leaf_visit_closest_decreases.
  - intros _ info queue pnode id w0 w1 w2 w3 _ _ _ _ _ _ H0 H1 H2 H3 Hne.
    cbn [w_info w_queue].
    destruct (H0 Hne) as [N0 C0]. destruct (H1 N0) as [N1 C1].
    destruct (H2 N1) as [N2 C2]. destruct (H3 N2) as [N3 C3].
    split; [exact N3|].
    eapply Qle_trans; [exact C3|]. eapply Qle_trans; [exact C2|].
    eapply Qle_trans; [exact C1|exact C0].
Qed.

(** After a call the queue holds a task at least as close as any tile the
    call wanted, whether it was enqueued or not. *)
Lemma walk_closest_wanted (this : TileManager) (fuel : nat)
    info queue pnode id w :
  walk_at fuel this info queue pnode id = Some w ->
  forall path, wanted this (viewer_pos info) pnode id path ->
    w_queue w <> []
    /\ (closest_distance (w_info w)
        <= thisdist_of (viewer_pos info) (box_at pnode id path))%Q.
Proof.
  revert info queue pnode id w.
  apply (walk_ind this (fun info queue pnode id w =>
    forall path, wanted this (viewer_pos info) pnode id path ->
      w_queue w <> []
      /\ (closest_distance (w_info w)
          <= thisdist_of (viewer_pos info) (box_at pnode id path))%Q)).
  - intros info queue pnode id Hd path Hw.
    destruct path; destruct Hw as [Hr _]; now apply Qlt_not_le in Hd.
  - intros info queue pnode id Hd Hl [|i path] Hw; cbn [wanted] in Hw; [|tauto].
    destruct Hw as (_ & _ & Ht & Hld). cbn [box_at].
    unfold leaf_visit. rewrite tile_visited_node, Ht, Hld. cbn [negb].
    destruct queue as [|t0 q].
    + cbn. split; [discriminate|apply Qle_refl].
    + destruct (Qltb _ _) eqn:Hlt.
      * cbn. split; [discriminate|apply Qle_refl].
      * apply Qltb_false in Hlt.
        destruct (queue_size info <? 100); cbn.
        -- split; [discriminate|exact Hlt].
        -- split; [discriminate|exact Hlt].
  - intros fuel' info queue pnode id w0 w1 w2 w3 Hd Hl E0 E1 E2 E3 H0 H1 H2 H3
           [|i path] Hw; cbn [wanted] in Hw; [tauto|].
    destruct Hw as (_ & _ & Hi & Hw). cbn [w_queue w_info box_at].
    pose proof (queue_grows_pos _ _ _ (walk_queue_grows _ _ _ _ _ _ _ E0)) as V0.
    pose proof (queue_grows_pos _ _ _ (walk_queue_grows _ _ _ _ _ _ _ E1)) as V1.
    pose proof (queue_grows_pos _ _ _ (walk_queue_grows _ _ _ _ _ _ _ E2)) as V2.
    rewrite V0 in H1. rewrite V1, V0 in H2. rewrite V2, V1, V0 in H3.
    pose proof (walk_closest_decreases _ _ _ _ _ _ _ E1) as D1.
    pose proof (walk_closest_decreases _ _ _ _ _ _ _ E2) as D2.
    pose proof (walk_closest_decreases _ _ _ _ _ _ _ E3) as D3.
    assert (Hc : i = 0 \/ i = 1 \/ i = 2 \/ i = 3) by lia.
    destruct Hc as [->|[->|[->| ->]]].
    + destruct (H0 path Hw) as [N0 C0].
      destruct (D1 N0) as [N1 C1]. destruct (D2 N1) as [N2 C2].
      destruct (D3 N2) as [N3 C3]. split; [exact N3|].
      eapply Qle_trans; [exact C3|]. eapply Qle_trans; [exact C2|].
      eapply Qle_trans; [exact C1|exact C0].
    + destruct (H1 path Hw) as [N1 C1]. destruct (D2 N1) as [N2 C2].
      destruct (D3 N2) as [N3 C3]. split; [exact N3|].
      eapply Qle_trans; [exact C3|]. eapply Qle_trans; [exact C2|exact C1].
    + destruct (H2 path Hw) as [N2 C2]. destruct (D3 N2) as [N3 C3].
      split; [exact N3|]. eapply Qle_trans; [exact C3|exact C2].
    + exact (H3 path Hw).
Qed.

(** A leaf tile in view that is neither resident nor being loaded, as a path
    the walk wants. *)
Lemma wanted_of_leaf_tile (this : TileManager) (pos : Vector3i) (id : TileId) :
  well_formed this ->
  leaf_tile this id -> reachable this pos id ->
  ~ resident this id -> loading_ this <> id ->
  exists path,
    retrace path = id
    /\ wanted this pos (Some (root_ this)) (mkTileId 0 0 0) path.
Proof.
  intros WF Hleaf Hreach Hres Hld.
  pose proof (leaf_tile_level_nonneg this id Hleaf) as Hnn.
  exists (place_path (Z.to_nat (id_level id)) (id_x id) (id_y id)).
  assert (Hid : retrace (place_path (Z.to_nat (id_level id)) (id_x id) (id_y id))
                = id).
  { destruct Hleaf as (_ & Hx & Hy).
    rewrite retrace_place_path by lia. now destruct id. }
  split; [exact Hid|]. apply (wanted_root this pos _ WF). rewrite Hid.
  split; [apply place_path_valid|auto].
Qed.

(** X19.  After [LoadLocality] without [SYNC] the task at the front of the
    queue, which the worker takes first, is for the closest tile: its
    approximate squared distance to the viewer is the least among the tasks
    of the queue, and, on a well-formed tree, at most that of any leaf tile
    in view that is neither resident nor being loaded, whether the bound of
    100 let it into the queue or not; for any such tile the queue is not
    empty. *)
Theorem LoadLocality_front_is_closest
    (fuel : nat) (this : TileManager) (pos : Vector3i) (flags : Z) (uninit : Q)
    (r : Loaded) :
  Z.land flags SYNC = 0 ->
  LoadLocality fuel this pos flags uninit = Some r ->
  (forall front rest task,
     queue_ (l_manager r) = front :: rest ->
     In task (queue_ (l_manager r)) ->
     (thisdist_of pos (task_bbox front) <= thisdist_of pos (task_bbox task))%Q)
  /\ (well_formed this ->
      forall id,
        leaf_tile this id -> reachable this pos id ->
        ~ resident this id -> loading_ this <> id ->
        exists front rest,
          queue_ (l_manager r) = front :: rest
          /\ (thisdist_of pos (task_bbox front)
              <= thisdist_of pos (tile_box this id))%Q).
Proof.
  intros Hs Hr. apply LoadLocality_walk in Hr. rewrite Hs in Hr.
  cbn [Z.eqb negb] in Hr. destruct Hr as (w & root' & Hw & _ & Hm).
  rewrite Hm. cbn [queue_ set_queue].
  pose proof (queue_grows_pos _ _ _ (walk_queue_grows _ _ _ _ _ _ _ Hw)) as Hpos.
  cbn [viewer_pos RecLoadTilesInfo_new] in Hpos.
  pose proof (walk_front_closest _ _ _ _ _ _ _ Hw I) as H.
  split.
  - intros front rest task Hq Hin.
    rewrite Hq in H, Hin. cbn [front_closest] in H. destruct H as [Hf H].
    rewrite Hpos in Hf, H. rewrite <- Hf. now apply H.
  - intros WF id Hleaf Hreach Hres Hld.
    destruct (wanted_of_leaf_tile this pos id WF Hleaf Hreach Hres Hld)
      as (path & Hid & Hwant).
    apply (wanted_set_queue this []) in Hwant.
    destruct (walk_closest_wanted _ _ _ _ _ _ _ Hw path Hwant) as [Hne Hc].
    cbn [viewer_pos RecLoadTilesInfo_new] in Hc.
    rewrite (box_at_root this path WF), Hid in Hc.
    destruct (w_queue w) as [|front rest]; [contradiction|].
    exists front, rest. split; [reflexivity|].
    cbn [front_closest] in H. destruct H as [Hf _]. rewrite Hpos in Hf.
    now rewrite <- Hf.
Qed.

(** X26.  On a well-formed tree, [LoadLocality] without [SYNC] signals the
    condition variable exactly when there is work for the worker: a leaf
    tile in view, with all the tiles above it, that is neither resident nor
    being loaded. *)
Theorem LoadLocality_signals_iff_wanted
    (fuel : nat) (this : TileManager) (pos : Vector3i) (flags : Z) (uninit : Q)
    (r : Loaded) :
  well_formed this ->
  Z.land flags SYNC = 0 ->
  LoadLocality fuel this pos flags uninit = Some r ->
  l_signalled r = true
  <-> exists id,
        leaf_tile this id /\ reachable this pos id
        /\ ~ resident this id /\ loading_ this <> id.
Proof.
  intros WF Hs Hr.
  assert (Hsig : l_signalled r = true <-> queue_ (l_manager r) <> []).
  { pose proof Hr as Hr'. rewrite LoadLocality_unfold, Hs in Hr'.
    cbn [Z.eqb negb andb] in Hr'. cbv zeta in Hr'.
    destruct (walk_at _ _ _ _ _ _) as [w|]; [|discriminate Hr'].
    injection Hr' as <-. cbn. destruct (w_queue w); cbn; split; congruence. }
  rewrite Hsig. split.
  - intros Hne. destruct (queue_ (l_manager r)) as [|task rest] eqn:Hq;
      [contradiction|].
    assert (Hin : In task (queue_ (l_manager r))) by (rewrite Hq; now left).
    destruct (LoadLocality_enqueued _ _ _ _ _ _ _ Hs Hr Hin)
      as (_ & _ & Hrt & Hwant & _).
    apply (wanted_root this pos _ WF) in Hwant. rewrite Hrt in Hwant.
    exists (task_id task). tauto.
  - intros (id & Hleaf & Hreach & Hres & Hld).
    destruct (wanted_of_leaf_tile this pos id WF Hleaf Hreach Hres Hld)
      as (path & Hid & Hwant).
    apply LoadLocality_walk in Hr. rewrite Hs in Hr. cbn [Z.eqb negb] in Hr.
    destruct Hr as (w & root' & Hw & _ & ->). cbn [queue_ set_queue].
    apply (wanted_set_queue this []) in Hwant.
    exact (proj1 (walk_closest_wanted _ _ _ _ _ _ _ Hw path Hwant)).
Qed.

(** The visit of a candidate keeps the order of the queue beyond its last
    100 tasks: once [queue_size], the length of the queue, has reached 100,
    a task is pushed only at the front and only when it is strictly closer
    than the task there, the closest of the queue. *)
Lemma leaf_visit_sorted_beyond_100 (this : TileManager) (info : RecLoadTilesInfo)
    (queue : list TileTask) (node : QuadNode) (id : TileId) :
  queue_size info = Z.of_nat (length queue) ->
  front_closest info queue ->
  (forall front a rest, queue = front ++ a :: rest -> (100 <= length rest)%nat ->
     forall b, In b rest ->
       (thisdist_of (viewer_pos info) (task_bbox a)
        < thisdist_of (viewer_pos info) (task_bbox b))%Q) ->
  let w := leaf_visit this info queue node
             (thisdist_of (viewer_pos info) (bbox node)) id in
  forall front a rest, w_queue w = front ++ a :: rest -> (100 <= length rest)%nat ->
    forall b, In b rest ->
      (thisdist_of (viewer_pos info) (task_bbox a)
       < thisdist_of (viewer_pos info) (task_bbox b))%Q.
Proof.
  intros Hs Hf Hcap. unfold leaf_visit.
  destruct (tile node); [exact Hcap|].
  destruct (negb (TileId_eqb (loading_ this) id)); [|exact Hcap].
  destruct queue as [|t0 q].
  - cbn [w_queue]. intros front a rest Heq Hlen.
    apply (f_equal (@length _)) in Heq. rewrite length_app in Heq.
    cbn [length] in Heq. lia.
  - destruct (Qltb _ _) eqn:Hlt.
    + apply Qltb_true in Hlt. cbn [w_queue].
      intros [|f front] a rest Heq Hlen b Hb; cbn [app] in Heq.
      * injection Heq as <- <-. cbn [task_bbox].
        eapply Qlt_le_trans; [exact Hlt|]. exact (proj2 Hf b Hb).
      * injection Heq as _ Heq. exact (Hcap front a rest Heq Hlen b Hb).
    + destruct (Z.ltb_spec (queue_size info) 100) as [Hlt100|Hge]; cbn [w_queue];
        [|exact Hcap].
      intros front a rest Heq Hlen.
      apply (f_equal (@length _)) in Heq. rewrite !length_app in Heq.
      cbn [length] in Heq. cbn [length] in Hs. lia.
Qed.

(** So for every call of the walk. *)
Lemma walk_sorted_beyond_100 (this : TileManager) (pos : Vector3i) (fuel : nat)
    info queue pnode id w :
  walk_at fuel this info queue pnode id = Some w ->
  viewer_pos info = pos ->
  queue_size info = Z.of_nat (length queue) ->
  front_closest info queue ->
  (forall front a rest, queue = front ++ a :: rest -> (100 <= length rest)%nat ->
     forall b, In b rest ->
       (thisdist_of pos (task_bbox a) < thisdist_of pos (task_bbox b))%Q) ->
  forall front a rest, w_queue w = front ++ a :: rest -> (100 <= length rest)%nat ->
    forall b, In b rest ->
      (thisdist_of pos (task_bbox a) < thisdist_of pos (task_bbox b))%Q.
Proof.
  revert info queue pnode id w.
  apply (walk_ind this (fun info queue _ _ w =>
    viewer_pos info = pos ->
    queue_size info = Z.of_nat (length queue) ->
    front_closest info queue ->
    (forall front a rest, queue = front ++ a :: rest -> (100 <= length rest)%nat ->
       forall b, In b rest ->
         (thisdist_of pos (task_bbox a) < thisdist_of pos (task_bbox b))%Q) ->
    forall front a rest, w_queue w = front ++ a :: rest -> (100 <= length rest)%nat ->
      forall b, In b rest ->
        (thisdist_of pos (task_bbox a) < thisdist_of pos (task_bbox b))%Q)).
  - intros info queue pnode id _ _ _ _ Hcap. exact Hcap.
  - intros info queue pnode id _ _ Hp Hs Hf Hcap. subst pos.
    rewrite <- (bbox_visited_node this pnode id).
    now apply leaf_visit_sorted_beyond_100.
  - intros fuel' info queue pnode id w0 w1 w2 w3 _ _ E0 E1 E2 E3 H0 H1 H2 H3
           Hp Hs Hf Hcap.
    cbn [w_queue].
    pose proof (walk_queue_grows _ _ _ _ _ _ _ E0) as G0.
    pose proof (walk_queue_grows _ _ _ _ _ _ _ E1) as G1.
    pose proof (walk_queue_grows _ _ _ _ _ _ _ E2) as G2.
    pose proof (queue_grows_pos _ _ _ G0) as V0.
    pose proof (queue_grows_pos _ _ _ G1) as V1.
    pose proof (queue_grows_pos _ _ _ G2) as V2.
    pose proof (queue_grows_length _ _ _ G0) as L0.
    pose proof (queue_grows_length _ _ _ G1) as L1.
    pose proof (queue_grows_length _ _ _ G2) as L2.
    pose proof (walk_front_closest _ _ _ _ _ _ _ E0 Hf) as F0.
    pose proof (walk_front_closest _ _ _ _ _ _ _ E1 F0) as F1.
    pose proof (walk_front_closest _ _ _ _ _ _ _ E2 F1) as F2.
    apply H3; [congruence|lia|exact F2|].
    apply H2; [congruence|lia|exact F1|].
    apply H1; [congruence|lia|exact F0|].
    now apply H0.
Qed.

(** X4.  The queue beyond the bound of 100: after [LoadLocality] without
    [SYNC], a task with 100 or more tasks behind it in the queue is strictly
    closer to the viewer than every task behind it.  Pushes at the back stop
    when 100 tasks are enqueued, so what makes the queue longer was pushed
    at the front, each time for a tile closer than all in the queue. *)
Theorem LoadLocality_queue_sorted_beyond_100
    (fuel : nat) (this : TileManager) (pos : Vector3i) (flags : Z) (uninit : Q)
    (r : Loaded) (front : list TileTask) (a : TileTask) (rest : list TileTask) :
  Z.land flags SYNC = 0 ->
  LoadLocality fuel this pos flags uninit = Some r ->
  queue_ (l_manager r) = front ++ a :: rest ->
  (100 <= length rest)%nat ->
  forall b, In b rest ->
    (thisdist_of pos (task_bbox a) < thisdist_of pos (task_bbox b))%Q.
Proof.
  intros Hs Hr. apply LoadLocality_walk in Hr. rewrite Hs in Hr.
  cbn [Z.eqb negb] in Hr. destruct Hr as (w & root' & Hw & _ & ->).
  cbn [queue_ set_queue].
  apply (walk_sorted_beyond_100 _ pos _ _ _ _ _ _ Hw); try reflexivity.
  intros [|f fr] a0 rest0 Heq; discriminate Heq.
Qed.

End Closest.

(** ** Calls of the main thread in between *)

Section Interleaving.
Context `{Collab : Collaborators}.

(** X20.  A [GarbageCollect] directly after [LoadLocality] keeps, with its
    box and its tile, every node that is at most at [hires_level_] and is
    reached through nodes whose boxes, its own included, all pass the range
    check. *)
Theorem GarbageCollect_after_LoadLocality_keeps_view
    (fuel : nat) (this : TileManager) (pos : Vector3i) (flags : Z) (uninit : Q)
    (r : Loaded) (path : list Z) (n : QuadNode) :
  LoadLocality fuel this pos flags uninit = Some r ->
  descend (root_ this) path = Some n ->
  Z.of_nat (length path) <= hires_level_ this ->
  (forall k m, descend (root_ this) (firstn k path) = Some m ->
     (thisdist_of pos (bbox m) <= hires_range2 this)%Q) ->
  exists n',
    descend (root_ (GarbageCollect (l_manager r))) path = Some n'
    /\ bbox n' = bbox n /\ tile n' = tile n.
Proof.
  intros Hr Hn Hlen Hd.
  destruct (LoadLocality_generation _ _ _ _ _ _ Hr) as (Hg & _).
  apply LoadLocality_walk in Hr. destruct Hr as (w & root' & Hw & Hroot & Hm).
  assert (Hv : in_view this pos (Some (root_ this)) (mkTileId 0 0 0) path).
  { apply (in_view_of_nodes this pos path _ _ n); [exact Hn|exact Hd|].
    cbn [id_level]. lia. }
  pose proof (walk_marks_in_view _ _ _ _ _ _ _ Hw path) as Hmark.
  cbn [viewer_pos RecLoadTilesInfo_new] in Hmark.
  specialize (Hmark (proj2 (in_view_set_queue _ _ _ _ _ _) Hv)).
  rewrite Hroot in Hmark. cbn [marked_ptr generation_ set_queue] in Hmark.
  destruct (marked_below_descend _ _ _ (proj2 Hmark)) as [n' Hn'].
  apply walk_tree_grows in Hw. destruct Hw as [_ [Hnew _]].
  rewrite Hroot in Hnew. specialize (Hnew path n' Hn').
  cbn [descend_ptr] in Hnew. rewrite Hn in Hnew. destruct Hnew as [Hb Htl].
  exists (RecGarbageCollectTiles (generation_ this) n').
  cbn [GarbageCollect root_ set_generation_ set_root]. rewrite Hg, Hm.
  cbn [root_ set_queue set_root]. split.
  - apply descend_RecGarbageCollectTiles_iff. split; [exact (proj2 Hmark)|eauto].
  - pose proof (RecGarbageCollectTiles_payload (generation_ this) n') as Hp.
    apply payload_fields in Hp. destruct Hp as (Hb' & Ht' & _).
    split; congruence.
Qed.

(** X21.  The guard [loading_] between the worker's two critical sections:
    when [LoadLocality] without [SYNC] runs after the worker took a task off
    the queue and before it placed the tile, the call does not enqueue that
    tile again, and the placement afterwards still attaches the tile to the
    node of the task. *)
Theorem loading_guard_under_interleaving
    (fuel : nat) (this : TileManager) (pos : Vector3i) (flags : Z) (uninit : Q)
    (r : Loaded) (task : TileTask) (this1 : TileManager)
    (fuel2 : nat) (pos2 : Vector3i) (flags2 : Z) (uninit2 : Q) (r2 : Loaded)
    (t : Tile) :
  Z.land flags SYNC = 0 ->
  LoadLocality fuel this pos flags uninit = Some r ->
  Dequeue (l_manager r) = Some (task, this1) ->
  Z.land flags2 SYNC = 0 ->
  LoadLocality fuel2 this1 pos2 flags2 uninit2 = Some r2 ->
  (forall task', In task' (queue_ (l_manager r2)) -> task_id task' <> task_id task)
  /\ exists root' node,
       PlaceTile (l_manager r2) t (task_id task)
       = (set_root (l_manager r2) root', Attached)
       /\ descend root'
            (place_path (Z.to_nat (id_level (task_id task)))
               (id_x (task_id task)) (id_y (task_id task))) = Some node
       /\ bbox node = task_bbox task
       /\ tile node = Some t.
Proof.
  intros Hs Hr Hdq Hs2 Hr2.
  unfold Dequeue in Hdq.
  destruct (queue_ (l_manager r)) as [|task0 rest] eqn:Hq; [discriminate Hdq|].
  injection Hdq as -> <-.
  assert (Hin : In task (queue_ (l_manager r))) by (rewrite Hq; now left).
  destruct (LoadLocality_enqueued _ _ _ _ _ _ _ Hs Hr Hin)
    as (Hl & _ & _ & _ & _ & node & Hn & Hpay).
  destruct (LoadLocality_generation _ _ _ _ _ _ Hr) as (Hg & _).
  split.
  - intros task' Hin' E.
    destruct (LoadLocality_enqueued _ _ _ _ _ _ _ Hs2 Hr2 Hin')
      as (_ & _ & Hrt & Hwant & _).
    apply wanted_iff in Hwant. destruct Hwant as (_ & _ & _ & _ & Hld).
    fold (retrace (place_path (Z.to_nat (id_level (task_id task')))
                     (id_x (task_id task')) (id_y (task_id task')))) in Hld.
    rewrite Hrt in Hld. cbn [loading_] in Hld.
    apply TileId_eqb_neq in Hld. congruence.
  - pose proof Hr2 as Hr2'. apply LoadLocality_walk in Hr2'.
    destruct Hr2' as (w & root2 & Hw & Hroot & Hm).
    apply walk_tree_grows in Hw. destruct Hw as [_ [Hnew Hkeep]].
    rewrite Hroot in Hnew, Hkeep. cbn [root_ descend_ptr] in Hnew, Hkeep.
    specialize (Hkeep _ _ Hn).
    destruct (descend root2
                (place_path (Z.to_nat (id_level (task_id task)))
                   (id_x (task_id task)) (id_y (task_id task))))
      as [node2|] eqn:Hn2; [|congruence].
    specialize (Hnew _ _ Hn2). rewrite Hn in Hnew. destruct Hnew as [Hb Ht].
    unfold payload in Hpay. injection Hpay as Hb0 Ht0 Hg0.
    unfold PlaceTile. rewrite Hm. cbn [root_ set_queue set_root].
    pose proof (RecPlaceTile_node_path (Z.to_nat (id_level (task_id task)))
                  root2 t (id_x (task_id task)) (id_y (task_id task))) as Hp.
    cbv zeta in Hp. rewrite Z2Nat.id in Hp by lia. rewrite Hn2 in Hp.
    assert (Ht2 : tile node2 = None) by congruence.
    rewrite Ht2 in Hp. destruct Hp as (root' & -> & Hd & _).
    exists root', (set_tile node2 (Some t)).
    split; [reflexivity|]. split; [exact Hd|].
    split; [destruct node2; cbn in *; congruence|now destruct node2].
Qed.

End Interleaving.

(** ** The depth of the tree *)

Section Depth.
Context `{Collab : Collaborators}.

(** A call for a tile at or above [hires_level_] creates no node below that
    level. *)
Lemma walk_new_nodes_level (this : TileManager) (fuel : nat) info queue pnode id w :
  walk_at fuel this info queue pnode id = Some w ->
  id_level id <= hires_level_ this ->
  forall path node',
    descend_ptr (w_node w) path = Some node' ->
    descend_ptr pnode path = None ->
    id_level id + Z.of_nat (length path) <= hires_level_ this.
Proof.
  revert info queue pnode id w.
  apply (walk_ind this (fun info queue pnode id w =>
    id_level id <= hires_level_ this ->
    forall path node',
      descend_ptr (w_node w) path = Some node' ->
      descend_ptr pnode path = None ->
      id_level id + Z.of_nat (length path) <= hires_level_ this)).
  - intros info queue pnode id _ _ path node' H1 H2. cbn [w_node] in H1. congruence.
  - intros info queue pnode id _ _ Hl [|i path] node' H1 H2; [cbn; lia|].
    destruct (leaf_visit_cases this info queue (visited_node this pnode id)
                (thisdist_of (viewer_pos info) (box_of pnode id)) id) as [Hn _].
    rewrite Hn, descend_ptr_cons in H1. cbn [childs_ptr] in H1.
    rewrite childs_visited_node, <- descend_ptr_cons in H1. congruence.
  - intros _ info queue pnode id w0 w1 w2 w3 _ Hne _ _ _ _ H0 H1 H2 H3 Hl
           [|i path] node' Hd Hn; [cbn; lia|].
    cbn [w_node] in Hd. rewrite descend_ptr_cons in Hd, Hn.
    cbn [childs_ptr] in Hd. rewrite childs_set_child4 in Hd.
    assert (Hq : forall j, id_level (quadrant id j) <= hires_level_ this)
      by (intros j; rewrite id_level_quadrant; lia).
    cbn [length]. rewrite Nat2Z.inj_succ.
    destruct i as [|[[|[]|]|[|[]|]|]|]; try discriminate Hd.
    + specialize (H0 (Hq 0) path node' Hd Hn). rewrite id_level_quadrant in H0. lia.
    + specialize (H3 (Hq 3) path node' Hd Hn). rewrite id_level_quadrant in H3. lia.
    + specialize (H2 (Hq 2) path node' Hd Hn). rewrite id_level_quadrant in H2. lia.
    + specialize (H1 (Hq 1) path node' Hd Hn). rewrite id_level_quadrant in H1. lia.
Qed.

(** X22.  [LoadLocality] allocates no node below [hires_level_]: for
    [hires_level_ >= 0], a node that is in the tree after the call and was
    not there before is at depth at most [hires_level_], and it holds no
    tile. *)
Theorem LoadLocality_allocates_down_to_hires_level
    (fuel : nat) (this : TileManager) (pos : Vector3i) (flags : Z) (uninit : Q)
    (r : Loaded) (path : list Z) (node' : QuadNode) :
  0 <= hires_level_ this ->
  LoadLocality fuel this pos flags uninit = Some r ->
  descend (root_ (l_manager r)) path = Some node' ->
  descend (root_ this) path = None ->
  Z.of_nat (length path) <= hires_level_ this
  /\ tile node' = None.
Proof.
  intros Hl Hr Hn' Hn.
  apply LoadLocality_walk in Hr. destruct Hr as (w & root' & Hw & Hroot & Hm).
  rewrite Hm in Hn'. cbn [root_ set_queue set_root] in Hn'.
  pose proof (walk_new_nodes_level _ _ _ _ _ _ _ Hw Hl path node') as Hlev.
  rewrite Hroot in Hlev. cbn [id_level descend_ptr root_ set_queue] in Hlev.
  split; [now apply Hlev|].
  apply walk_tree_grows in Hw. destruct Hw as [_ [Hnew _]].
  rewrite Hroot in Hnew. specialize (Hnew path node' Hn').
  cbn [descend_ptr] in Hnew. rewrite Hn in Hnew. tauto.
Qed.

End Depth.

(** ** Who owns a tile after the placement *)

Section Ownership.
Context `{Collab : Collaborators}.

(** Setting a child pointer leaves the node's own tile. *)
Lemma own_tile_set_child (node : QuadNode) (i : Z) (c : option QuadNode) :
  own_tile (set_child node i c) = own_tile node.
Proof. destruct node. destruct i as [|[[|[]|]|[|[]|]|]|]; reflexivity. Qed.

(** Replacing the subtree in one slot by one that holds one tile more. *)
Lemma RecDestroyTiles_set_child (node : QuadNode) (i : Z) (c c' : QuadNode)
    (t : Tile) (l1 l2 : list Tile) :
  childs node i = Some c ->
  RecDestroyTiles c = l1 ++ l2 ->
  RecDestroyTiles c' = l1 ++ t :: l2 ->
  exists k1 k2,
    RecDestroyTiles node = k1 ++ k2
    /\ RecDestroyTiles (set_child node i (Some c')) = k1 ++ t :: k2.
Proof.
  intros Hc E E'. rewrite !RecDestroyTiles_childs, own_tile_set_child.
  destruct i as [|[[|[]|]|[|[]|]|]|]; try discriminate Hc.
  - (* slot 0 *)
    rewrite childs_set_child_same by lia. rewrite !childs_set_child_other by lia.
    rewrite Hc. cbn [destroy_slot]. rewrite E, E'.
    exists (own_tile node ++ l1),
           (l2 ++ destroy_slot (childs node 1) ++ destroy_slot (childs node 2)
            ++ destroy_slot (childs node 3)).
    rewrite <- !app_assoc. cbn [app]. auto.
  - (* slot 3 *)
    rewrite childs_set_child_same by lia. rewrite !childs_set_child_other by lia.
    rewrite Hc. cbn [destroy_slot]. rewrite E, E'.
    exists (own_tile node ++ destroy_slot (childs node 0)
            ++ destroy_slot (childs node 1) ++ destroy_slot (childs node 2) ++ l1), l2.
    rewrite <- !app_assoc. cbn [app]. auto.
  - (* slot 2 *)
    rewrite childs_set_child_same by lia. rewrite !childs_set_child_other by lia.
    rewrite Hc. cbn [destroy_slot]. rewrite E, E'.
    exists (own_tile node ++ destroy_slot (childs node 0)
            ++ destroy_slot (childs node 1) ++ l1),
           (l2 ++ destroy_slot (childs node 3)).
    rewrite <- !app_assoc. cbn [app]. auto.
  - (* slot 1 *)
    rewrite childs_set_child_same by lia. rewrite !childs_set_child_other by lia.
    rewrite Hc. cbn [destroy_slot]. rewrite E, E'.
    exists (own_tile node ++ destroy_slot (childs node 0) ++ l1),
           (l2 ++ destroy_slot (childs node 2) ++ destroy_slot (childs node 3)).
    rewrite <- !app_assoc. cbn [app]. auto.
Qed.

(** Replacing the subtree in one slot by one with as many nodes. *)
Lemma node_count_set_child (node : QuadNode) (i : Z) (c c' : QuadNode) :
  childs node i = Some c ->
  node_count c' = node_count c ->
  node_count (set_child node i (Some c')) = node_count node.
Proof.
  intros Hc E. rewrite !node_count_slots.
  destruct i as [|[[|[]|]|[|[]|]|]|]; try discriminate Hc;
    rewrite childs_set_child_same by lia;
    rewrite !childs_set_child_other by lia;
    rewrite Hc; cbn [count_slot]; lia.
Qed.

(** The tile handed to the placement is either deleted, and the tree is what
    it was, or attached, and the tree holds it besides the tiles it held; no
    node is made or freed. *)
Lemma RecPlaceTile_node_tiles (n : nat) : forall (node : QuadNode) (t : Tile) (x y : Z),
  match RecPlaceTile_node node t (Z.of_nat n) x y with
  | (node', Deleted) => node' = node
  | (node', Attached) =>
    node_count node' = node_count node
    /\ exists l1 l2,
         RecDestroyTiles node = l1 ++ l2
         /\ RecDestroyTiles node' = l1 ++ t :: l2
  end.
Proof.
  induction n as [|n IH]; intros node t x y.
  - change (Z.of_nat 0) with 0. rewrite RecPlaceTile_node_target.
    destruct (tile node) eqn:Ht; [reflexivity|].
    split; [now destruct node|].
    exists [], (RecDestroyTiles node). split; [reflexivity|].
    rewrite !RecDestroyTiles_childs. unfold own_tile.
    rewrite !childs_set_tile, Ht. now destruct node.
  - rewrite RecPlaceTile_node_step by lia. cbv zeta.
    replace (Z.of_nat (S n) - 1) with (Z.of_nat n) by lia.
    destruct (childs node (nchild (Z.of_nat (S n)) x y)) as [c|] eqn:Hc;
      cbn [RecPlaceTile].
    + specialize (IH c t x y).
      destruct (RecPlaceTile_node c t (Z.of_nat n) x y) as [c' [|]].
      * destruct IH as (Hcount & l1 & l2 & E & E'). split.
        -- exact (node_count_set_child node _ c c' Hc Hcount).
        -- exact (RecDestroyTiles_set_child node _ c c' t l1 l2 Hc E E').
      * subst c'. rewrite <- Hc. apply set_child_childs.
    + rewrite <- Hc. apply set_child_childs.
Qed.

(** X23.  The placement from [&root_], for a level that is not negative,
    either deletes the tile and leaves the manager as it is, or attaches it:
    the tree then holds the tile in addition to, and in the order of, the
    tiles it held, and has as many nodes as before. *)
Theorem PlaceTile_attaches_or_deletes (this : TileManager) (t : Tile) (id : TileId) :
  0 <= id_level id ->
  match PlaceTile this t id with
  | (this', Deleted) => this' = this
  | (this', Attached) =>
    node_count (root_ this') = node_count (root_ this)
    /\ exists l1 l2,
         RecDestroyTiles (root_ this) = l1 ++ l2
         /\ RecDestroyTiles (root_ this') = l1 ++ t :: l2
  end.
Proof.
  intros Hl. unfold PlaceTile.
  pose proof (RecPlaceTile_node_tiles (Z.to_nat (id_level id)) (root_ this) t
                (id_x id) (id_y id)) as H.
  rewrite Z2Nat.id in H by lia.
  destruct (RecPlaceTile_node _ _ _ _ _) as [root' [|]].
  - exact H.
  - subst root'. apply set_root_root.
Qed.

End Ownership.

(** ** A cycle of collection, walk and collection *)

Section Cycle.
Context `{Collab : Collaborators}.

(** On a subtree without a node of the current stamp, the nodes that carry
    the stamp after a call are those the call reached. *)
Lemma walk_marks_only_in_view (this : TileManager) (fuel : nat)
    info queue pnode id w :
  walk_at fuel this info queue pnode id = Some w ->
  (forall path n, descend_ptr pnode path = Some n ->
     generation n <> generation_ this) ->
  forall path, marked_ptr (generation_ this) (w_node w) path ->
    in_view this (viewer_pos info) pnode id path.
Proof.
  revert info queue pnode id w.
  apply (walk_ind this (fun info queue pnode id w =>
    (forall path n, descend_ptr pnode path = Some n ->
       generation n <> generation_ this) ->
    forall path, marked_ptr (generation_ this) (w_node w) path ->
      in_view this (viewer_pos info) pnode id path)).
  - intros info queue pnode id _ Hold path Hm. cbn [w_node] in Hm.
    destruct pnode as [n|]; [|contradiction].
    destruct Hm as [Hg _]. now apply (Hold [] n) in Hg.
  - intros info queue pnode id Hd _ Hold [|i path] Hm; [cbn; auto|].
    destruct (leaf_visit_cases this info queue (visited_node this pnode id)
                (thisdist_of (viewer_pos info) (box_of pnode id)) id) as [Hn _].
    rewrite Hn in Hm. destruct Hm as [_ Hm]. cbn [marked_below] in Hm.
    rewrite childs_visited_node in Hm.
    destruct (childs_ptr pnode i) as [c|] eqn:Hc; [|contradiction].
    destruct Hm as [Hg _]. apply (Hold [i] c) in Hg; [contradiction|].
    rewrite descend_ptr_cons, Hc. reflexivity.
  - intros fuel' info queue pnode id w0 w1 w2 w3 Hd Hl E0 E1 E2 E3 H0 H1 H2 H3
           Hold [|i path] Hm; [cbn; auto|].
    cbn [w_node marked_ptr] in Hm. destruct Hm as [_ Hm].
    cbn [marked_below] in Hm. rewrite childs_set_child4 in Hm.
    pose proof (queue_grows_pos _ _ _ (walk_queue_grows _ _ _ _ _ _ _ E0)) as V0.
    pose proof (queue_grows_pos _ _ _ (walk_queue_grows _ _ _ _ _ _ _ E1)) as V1.
    pose proof (queue_grows_pos _ _ _ (walk_queue_grows _ _ _ _ _ _ _ E2)) as V2.
    rewrite V0 in H1. rewrite V1, V0 in H2. rewrite V2, V1, V0 in H3.
    assert (Hsub : forall j path n,
              descend_ptr (childs_ptr pnode j) path = Some n ->
              generation n <> generation_ this).
    { intros j p n Hn. apply (Hold (j :: p) n). now rewrite descend_ptr_cons. }
    cbn [in_view]. split; [exact Hd|]. split; [exact Hl|].
    destruct i as [|[[|[]|]|[|[]|]|]|]; try contradiction.
    + split; [lia|]. apply (H0 (Hsub 0)).
      destruct (w_node w0); [exact Hm|contradiction].
    + split; [lia|]. apply (H3 (Hsub 3)).
      destruct (w_node w3); [exact Hm|contradiction].
    + split; [lia|]. apply (H2 (Hsub 2)).
      destruct (w_node w2); [exact Hm|contradiction].
    + split; [lia|]. apply (H1 (Hsub 1)).
      destruct (w_node w1); [exact Hm|contradiction].
Qed.

(** The same for a node whose own stamp is not known: below it, the nodes
    that carry the stamp after the call are those the call reached. *)
Lemma walk_marks_below_only_in_view (this : TileManager) (fuel : nat)
    info queue (node : QuadNode) id w :
  walk_at fuel this info queue (Some node) id = Some w ->
  (forall i path n, descend_ptr (childs node i) path = Some n ->
     generation n <> generation_ this) ->
  forall node' i path,
    w_node w = Some node' ->
    marked_below (generation_ this) node' (i :: path) ->
    in_view this (viewer_pos info) (Some node) id (i :: path).
Proof.
  intros Hw Hold node' i path Hn' Hm.
  destruct fuel as [|fuel]; [discriminate Hw|].
  rewrite RecLoadTiles_unfold in Hw.
  cbn [marked_below] in Hm.
  destruct (Qgtb _ _) eqn:Hd.
  - injection Hw as <-. cbn [w_node] in Hn'. injection Hn' as <-.
    destruct (childs node i) as [c|] eqn:Hc; [|contradiction].
    destruct Hm as [Hg _]. apply (Hold i [] c) in Hg; [contradiction|].
    rewrite Hc. reflexivity.
  - apply Qgtb_false in Hd.
    destruct (Z.eqb_spec (id_level id) (hires_level_ this)) as [Hl|Hl].
    + injection Hw as <-.
      destruct (leaf_visit_cases this info queue (visited_node this (Some node) id)
                  (thisdist_of (viewer_pos info) (box_of (Some node) id)) id)
        as [Hn _].
      cbn [box_of] in Hn, Hn'. rewrite Hn in Hn'. injection Hn' as <-.
      rewrite childs_visited_node in Hm. cbn [childs_ptr] in Hm.
      destruct (childs node i) as [c|] eqn:Hc; [|contradiction].
      destruct Hm as [Hg _]. apply (Hold i [] c) in Hg; [contradiction|].
      rewrite Hc. reflexivity.
    + apply visit_childs_inv in Hw.
      destruct Hw as (w0 & w1 & w2 & w3 & E0 & E1 & E2 & E3 & ->).
      cbn [w_node] in Hn'. injection Hn' as <-.
      rewrite childs_set_child4 in Hm.
      rewrite childs_visited_node in E0, E1, E2, E3. cbn [childs_ptr] in E0, E1, E2, E3.
      pose proof (queue_grows_pos _ _ _ (walk_queue_grows _ _ _ _ _ _ _ E0)) as V0.
      pose proof (queue_grows_pos _ _ _ (walk_queue_grows _ _ _ _ _ _ _ E1)) as V1.
      pose proof (queue_grows_pos _ _ _ (walk_queue_grows _ _ _ _ _ _ _ E2)) as V2.
      pose proof (walk_marks_only_in_view _ _ _ _ _ _ _ E0 (Hold 0)) as H0.
      pose proof (walk_marks_only_in_view _ _ _ _ _ _ _ E1 (Hold 1)) as H1.
      pose proof (walk_marks_only_in_view _ _ _ _ _ _ _ E2 (Hold 2)) as H2.
      pose proof (walk_marks_only_in_view _ _ _ _ _ _ _ E3 (Hold 3)) as H3.
      rewrite V0 in H1. rewrite V1, V0 in H2. rewrite V2, V1, V0 in H3.
      cbn [in_view]. split; [exact Hd|]. split; [exact Hl|].
      cbn [childs_ptr].
      destruct i as [|[[|[]|]|[|[]|]|]|]; try contradiction.
      * split; [lia|]. apply H0. destruct (w_node w0); [exact Hm|contradiction].
      * split; [lia|]. apply H3. destruct (w_node w3); [exact Hm|contradiction].
      * split; [lia|]. apply H2. destruct (w_node w2); [exact Hm|contradiction].
      * split; [lia|]. apply H1. destruct (w_node w1); [exact Hm|contradiction].
Qed.

(** What the sweep keeps below a node carries the stamp it swept for. *)
Lemma RecGarbageCollectTiles_below_stamp (g : Z) (node : QuadNode) (i : Z)
    (path : list Z) (n : QuadNode) :
  descend_ptr (childs (RecGarbageCollectTiles g node) i) path = Some n ->
  generation n = g.
Proof.
  rewrite RecGarbageCollectTiles_childs.
  destruct (childs node i) as [c|]; cbn [collect_slot]; [|discriminate].
  destruct (Z.eqb_spec (generation c) g) as [Hg|Hg]; cbn [negb descend_ptr];
    [|discriminate].
  revert c Hg. induction path as [|j path IH]; intros c Hg H.
  - cbn in H. injection H as <-. now rewrite RecGarbageCollectTiles_generation.
  - cbn [descend] in H. rewrite RecGarbageCollectTiles_childs in H.
    destruct (childs c j) as [d|]; cbn [collect_slot] in H; [|discriminate H].
    destruct (Z.eqb_spec (generation d) g) as [Hd|Hd]; cbn [negb] in H;
      [|discriminate H].
    exact (IH d Hd H).
Qed.

(** X24.  One cycle of collection, [LoadLocality] and collection leaves
    below the root exactly the nodes the walk reached: a position below the
    root holds a node afterwards if and only if the boxes on the way to it,
    its own included, all pass the range check (the box of the node where
    there was one, [ForGeoTile]'s otherwise) and every position above it is
    above [hires_level_]. *)
Theorem collect_load_collect_keeps_view
    (this : TileManager) (fuel : nat) (pos : Vector3i) (flags : Z) (uninit : Q)
    (r : Loaded) (i : Z) (path : list Z) :
  LoadLocality fuel (GarbageCollect this) pos flags uninit = Some r ->
  (exists m, descend (root_ (GarbageCollect (l_manager r))) (i :: path) = Some m)
  <-> in_view (GarbageCollect this) pos (Some (root_ (GarbageCollect this)))
        (mkTileId 0 0 0) (i :: path).
Proof.
  intros Hr.
  destruct (LoadLocality_generation _ _ _ _ _ _ Hr) as (Hg & _).
  apply LoadLocality_walk in Hr. destruct Hr as (w & root' & Hw & Hroot & Hm).
  assert (Hdesc : forall p,
            (exists m, descend (root_ (GarbageCollect (l_manager r))) p = Some m)
            <-> marked_below (generation_ (GarbageCollect this)) root' p).
  { intros p. cbn [GarbageCollect root_ set_generation_ set_root].
    rewrite Hg, Hm. cbn [root_ set_queue set_root]. split.
    - intros [m H]. now apply descend_RecGarbageCollectTiles_iff in H.
    - intros H. destruct (marked_below_descend _ _ _ H) as [n Hn].
      eexists. apply descend_RecGarbageCollectTiles_iff. eauto. }
  rewrite Hdesc. split.
  - intros Hmark.
    pose proof (walk_marks_below_only_in_view _ _ _ _ _ _ _ Hw) as H.
    cbn [viewer_pos RecLoadTilesInfo_new generation_ set_queue root_] in H.
    apply in_view_set_queue with (q := if negb (Z.land flags SYNC =? 0)
                                       then queue_ (GarbageCollect this) else []).
    apply (fun Hold => H Hold root' i path Hroot Hmark).
    intros j p n Hn E.
    apply RecGarbageCollectTiles_below_stamp in Hn.
    cbn [GarbageCollect generation_ set_generation_ set_root] in E.
    rewrite Hn in E. symmetry in E. now apply generation_incr_neq in E.
  - intros Hv.
    pose proof (walk_marks_in_view _ _ _ _ _ _ _ Hw (i :: path)) as H.
    cbn [viewer_pos RecLoadTilesInfo_new] in H.
    specialize (H (proj2 (in_view_set_queue _ _ _ _ _ _) Hv)).
    rewrite Hroot in H. exact (proj2 H).
Qed.

End Cycle.

(** ** The pthread objects *)

Section Construction_protocol.
Context `{Collab : Collaborators}.

(** X25.  The constructor and the pthread objects, for every combination of
    codes the four calls can return.  When it throws, every object it had
    initialised has been destroyed again, each call was made on an object in
    the right state, and the exception carries the code of the first call
    that failed.  When it returns, the four calls returned 0, the four
    objects are initialised, and the destructor releases them all, joining
    the thread before it destroys the condition variable and the mutexes the
    thread uses. *)
Theorem TileManager_construct_releases_on_failure
    (root : QuadNode) (e_tiles e_queue e_cond e_thread : Z) :
  match TileManager_construct root e_tiles e_queue e_cond e_thread with
  | (calls, inl err) =>
    held_after calls [] = Some []
    /\ find (fun e => negb (e =? 0)) [e_tiles; e_queue; e_cond; e_thread]
       = Some (errn err)
  | (calls, inr this) =>
    [e_tiles; e_queue; e_cond; e_thread] = [0; 0; 0; 0]
    /\ this = TileManager_new root
    /\ exists held,
         held_after calls [] = Some held
         /\ (forall r, holds held r = true)
         /\ held_after (fst (TileManager_destruct this)) held = Some []
  end.
Proof.
  unfold TileManager_construct.
  destruct (Z.eqb_spec e_tiles 0) as [->|H1]; cbn [negb].
  2: { apply Z.eqb_neq in H1. unfold held_after, use, init, destroy.
       cbn -[Z.eqb]. rewrite !H1. cbn -[Z.eqb]. rewrite ?H1. now cbn. }
  destruct (Z.eqb_spec e_queue 0) as [->|H2]; cbn [negb].
  2: { apply Z.eqb_neq in H2. unfold held_after, use, init, destroy.
       cbn -[Z.eqb]. rewrite !H2. cbn -[Z.eqb]. rewrite ?H2. now cbn. }
  destruct (Z.eqb_spec e_cond 0) as [->|H3]; cbn [negb].
  2: { apply Z.eqb_neq in H3. unfold held_after, use, init, destroy.
       cbn -[Z.eqb]. rewrite !H3. cbn -[Z.eqb]. rewrite ?H3. now cbn. }
  destruct (Z.eqb_spec e_thread 0) as [->|H4]; cbn [negb].
  2: { apply Z.eqb_neq in H4. unfold held_after, use, init, destroy.
       cbn -[Z.eqb]. rewrite !H4. cbn -[Z.eqb]. rewrite ?H4. now cbn. }
  split; [reflexivity|]. split; [reflexivity|].
  exists [loading_thread_; queue_cond_; queue_mutex_; tiles_mutex_].
  split; [reflexivity|]. split; [intros []; reflexivity|reflexivity].
Qed.

End Construction_protocol.

(** * The properties on concrete grids *)

Lemma Grid_fresh_well_formed (unit depth : Z) :
  @well_formed (Grid.geometry unit depth) (Grid.fresh unit depth).
Proof.
  intros i path node H. destruct i as [|[[|[]|]|[|[]|]|]|]; discriminate.
Qed.

(** A task of the queue with a given id, found by its position. *)
Lemma In_queue_by_id `{Collab : Collaborators} (queue : list TileTask) (n : nat)
    (id : TileId) :
  nth_error (map task_id queue) n = Some id ->
  exists box, In (mkTileTask id box) queue.
Proof.
  rewrite nth_error_map.
  destruct (nth_error queue n) as [[i b]|] eqn:E; cbn; [|discriminate].
  intros [= ->]. exists b. eapply nth_error_In, E.
Qed.

Section Coarse_grid.
#[local] Existing Instance Grid.coarse.

(** What the call on the coarse grid returns: it signals, it leaves six
    tasks, and the nodes on the way to the tile [(13, 1, 1)] are new. *)
Lemma coarse_LoadLocality :
  exists r,
    LoadLocality 14 (Grid.fresh 5000 13) Grid.origin 0 0 = Some r
    /\ l_signalled r = true
    /\ map task_id (queue_ (l_manager r))
       = [mkTileId 13 0 0; mkTileId 13 1 0; mkTileId 13 0 1;
          mkTileId 13 1 1; mkTileId 13 2 0; mkTileId 13 0 2]
    /\ option_map generation (descend (root_ (l_manager r)) [0]) = Some 0.
Proof.
  assert (H : option_map
                (fun r => (l_signalled r, map task_id (queue_ (l_manager r)),
                           option_map generation (descend (root_ (l_manager r)) [0])))
                (LoadLocality 14 (Grid.fresh 5000 13) Grid.origin 0 0)
              = Some (true,
                      [mkTileId 13 0 0; mkTileId 13 1 0; mkTileId 13 0 1;
                       mkTileId 13 1 1; mkTileId 13 2 0; mkTileId 13 0 2],
                      Some 0))
    by (vm_compute; reflexivity).
  destruct (LoadLocality 14 (Grid.fresh 5000 13) Grid.origin 0 0) as [r|];
    [|discriminate].
  cbn [option_map] in H. injection H as H1 H2 H3. exists r. auto.
Qed.

Lemma coarse_place_path_1_1 :
  place_path 13 1 1 = [0; 0; 0; 0; 0; 0; 0; 0; 0; 0; 0; 0; 3].
Proof. vm_compute. reflexivity. Qed.

Lemma coarse_reachable_1_1 :
  reachable (Grid.fresh 5000 13) Grid.origin (mkTileId 13 1 1).
Proof.
  intros k Hk. cbn [id_level] in Hk.
  assert (H : k = 0 \/ k = 1 \/ k = 2 \/ k = 3 \/ k = 4 \/ k = 5 \/ k = 6 \/ k = 7
              \/ k = 8 \/ k = 9 \/ k = 10 \/ k = 11 \/ k = 12 \/ k = 13) by lia.
  repeat (destruct H as [->|H]; [vm_compute; discriminate|]).
  subst k. vm_compute. discriminate.
Qed.

(** C1 on the coarse grid: the six leaf tiles in range are enqueued, the
    tile [(13, 1, 1)] among them. *)
Lemma LoadLocality_queue_contents_witness :
  exists r,
    well_formed (Grid.fresh 5000 13)
    /\ Z.land 0 SYNC = 0
    /\ LoadLocality 14 (Grid.fresh 5000 13) Grid.origin 0 0 = Some r
    /\ (forall task, In task (queue_ (l_manager r)) ->
          leaf_tile (Grid.fresh 5000 13) (task_id task)
          /\ reachable (Grid.fresh 5000 13) Grid.origin (task_id task))
    /\ In (mkTileTask (mkTileId 13 1 1)
             (tile_box (Grid.fresh 5000 13) (mkTileId 13 1 1)))
          (queue_ (l_manager r)).
Proof.
  destruct coarse_LoadLocality as (r & Hr & _ & Hq & _). exists r.
  pose proof (LoadLocality_queue_contents 14 (Grid.fresh 5000 13)
                Grid.origin 0 0 r
                (Grid_fresh_well_formed 5000 13) eq_refl Hr)
    as [Hs Hc].
  split; [apply Grid_fresh_well_formed|]. split; [reflexivity|].
  split; [exact Hr|]. split.
  - intros task Hin. destruct (Hs task Hin) as (Hl & _ & Hreach & _). auto.
  - apply Hc.
    + rewrite <- (length_map task_id), Hq. cbn. lia.
    + vm_compute. repeat split; intros H; discriminate H.
    + apply coarse_reachable_1_1.
    + intros (node & t & Hn & _). cbn [id_level id_x id_y] in Hn.
      change (Z.to_nat 13) with 13%nat in Hn. rewrite coarse_place_path_1_1 in Hn.
      discriminate Hn.
    + intros H. discriminate H.
Defined.

(** C4 on a node with one child: the tile 7 placed at [(1, 0, 0)] is
    attached to that child. *)
Lemma RecPlaceTile_absent_kept_or_attached_witness :
  0 <= 1
  /\ exists node',
       RecPlaceTile (Some Grid.sapling) 7%nat 1 0 0 = (node', Attached)
       /\ option_map tile (descend_ptr node' [0]) = Some (Some 7%nat).
Proof.
  split; [lia|].
  destruct (RecPlaceTile_absent_kept_or_attached
              (Some Grid.sapling) 7%nat 1 0 0 ltac:(lia))
    as (_ & _ & H).
  destruct (H (new_QuadNode (ForGeoTile 1 0 0) 0) eq_refl eq_refl)
    as (node' & Hn & Hd & _).
  exists node'. split; [exact Hn|].
  change (place_path (Z.to_nat 1) 0 0) with [0] in Hd. rewrite Hd. reflexivity.
Defined.

(** C7 on the coarse grid: the call signals, whatever the queue held. *)
Lemma LoadLocality_clears_and_signals_unless_sync_witness :
  exists r,
    LoadLocality 14 (Grid.fresh 5000 13) Grid.origin 0 0 = Some r
    /\ (forall stale,
          LoadLocality 14 (set_queue (Grid.fresh 5000 13) stale) Grid.origin 0 0
          = Some r)
    /\ l_signalled r = true.
Proof.
  destruct coarse_LoadLocality as (r & Hr & Hsig & _). exists r.
  destruct (LoadLocality_clears_and_signals_unless_sync 14 (Grid.fresh 5000 13)
              Grid.origin 0 0 r Hr)
    as [Hclear _].
  destruct (Hclear eq_refl) as (Hstale & _ & _).
  split; [exact Hr|]. split; [exact Hstale|exact Hsig].
Defined.


(** C8 for the tile [(13, 1, 1)] of the coarse grid. *)
Lemma round_trip_addressing_witness :
  exists r node,
    0 <= 13 /\ 0 <= 1 < 2 ^ 13 /\ 0 <= 1 < 2 ^ 13
    /\ retrace (place_path 13 1 1) = mkTileId 13 1 1
    /\ LoadLocality 14 (Grid.fresh 5000 13) Grid.origin 0 0 = Some r
    /\ descend (root_ (l_manager r)) (place_path 13 1 1) = Some node
    /\ generation node = 0.
Proof.
  assert (Hb : 0 <= 1 < 2 ^ 13) by (split; [lia|reflexivity]).
  destruct (round_trip_addressing 13 1 1 ltac:(lia) Hb Hb) as (Hrt & _ & Hw).
  destruct coarse_LoadLocality as (r & Hr & _ & Hq & _). exists r.
  destruct (In_queue_by_id (queue_ (l_manager r)) 3 (mkTileId 13 1 1))
    as [box Hin]; [rewrite Hq; reflexivity|].
  destruct (Hw 14%nat (Grid.fresh 5000 13) Grid.origin 0 0%Q r box Hr eq_refl Hin)
    as (node & Hn & Hp & _).
  exists node.
  split; [lia|]. split; [exact Hb|]. split; [exact Hb|]. split; [exact Hrt|].
  split; [exact Hr|]. split; [exact Hn|].
  unfold payload in Hp. injection Hp as _ _ Hg. exact Hg.
Defined.

(** X1 on the coarse grid: 14 levels of fuel for [hires_level_ = 13]. *)
Lemma LoadLocality_returns_witness :
  0 <= hires_level_ (Grid.fresh 5000 13)
  /\ (Z.to_nat (hires_level_ (Grid.fresh 5000 13)) < 14)%nat
  /\ exists r, LoadLocality 14 (Grid.fresh 5000 13) Grid.origin 0 0 = Some r.
Proof.
  assert (H0 : 0 <= hires_level_ (Grid.fresh 5000 13))
    by (intros H; discriminate H).
  assert (H1 : (Z.to_nat (hires_level_ (Grid.fresh 5000 13)) < 14)%nat)
    by (cbn; lia).
  split; [exact H0|]. split; [exact H1|].
  exact (LoadLocality_returns 14 (Grid.fresh 5000 13) Grid.origin 0 0 H0 H1).
Defined.

(** X2 on the fresh manager of the coarse grid and its collection. *)
Lemma well_formed_invariant_witness :
  well_formed (Grid.fresh 5000 13)
  /\ well_formed (GarbageCollect (Grid.fresh 5000 13)).
Proof.
  split; [apply Grid_fresh_well_formed|].
  apply (well_formed_invariant (Grid.fresh 5000 13)), Grid_fresh_well_formed.
Defined.

(** With the level the constructor sets, 14 levels of fuel are enough. *)
Lemma coarse_LoadLocality_again (this : TileManager) :
  hires_level_ this = 13 ->
  exists r, LoadLocality 14 this Grid.origin 0 0 = Some r.
Proof.
  intros H. rewrite LoadLocality_unfold. cbv zeta.
  match goal with
  | |- context [walk_at 14 ?t ?i ?q ?c ?d] =>
    destruct (walk_at_returns t 14 i q c d) as [w ->]
  end.
  - cbn. rewrite H. lia.
  - cbn. rewrite H. cbn. lia.
  - eauto.
Qed.

(** X11 on the coarse grid. *)
Lemma LoadLocality_keeps_nodes_and_tiles_witness :
  exists r,
    LoadLocality 14 (Grid.fresh 5000 13) Grid.origin 0 0 = Some r
    /\ RecDestroyTiles (root_ (l_manager r)) = []
    /\ generation_ (l_manager r) = 0.
Proof.
  destruct coarse_LoadLocality as (r & Hr & _). exists r.
  destruct (LoadLocality_keeps_nodes_and_tiles 14 (Grid.fresh 5000 13)
              Grid.origin 0 0 r Hr) as (_ & Ht & Hg & _).
  split; [exact Hr|]. split; [exact Ht|exact Hg].
Defined.

(** The two nodes of the tree that holds the tile 7 are in range of the
    origin. *)
Lemma coarse_tiled_in_range (k : nat) (m : QuadNode) :
  descend (root_ (TileManager_new Grid.tiled_sapling)) (firstn k [0]) = Some m ->
  (thisdist_of Grid.origin (bbox m)
   <= hires_range2 (TileManager_new Grid.tiled_sapling))%Q.
Proof.
  destruct k as [|k].
  - intros Hm. injection Hm as <-. vm_compute. intros H; discriminate H.
  - replace (firstn (S k) [0]) with [0] by (destruct k; reflexivity).
    intros Hm. injection Hm as <-. vm_compute. intros H; discriminate H.
Qed.

(** X12 on a tree of the coarse grid that holds the tile 7 in range. *)
Lemma Render_after_LoadLocality_witness :
  exists r,
    LoadLocality 14 (TileManager_new Grid.tiled_sapling) Grid.origin 0 0 = Some r
    /\ Z.of_nat (length [0]) <= hires_level_ (TileManager_new Grid.tiled_sapling)
    /\ In 7%nat (Render (l_manager r)).
Proof.
  destruct (coarse_LoadLocality_again (TileManager_new Grid.tiled_sapling) eq_refl)
    as [r Hr].
  assert (Hl : Z.of_nat (length [0])
               <= hires_level_ (TileManager_new Grid.tiled_sapling))
    by (cbn; lia).
  exists r. split; [exact Hr|]. split; [exact Hl|].
  exact (Render_after_LoadLocality 14 (TileManager_new Grid.tiled_sapling)
           Grid.origin 0 0 r [0] _ 7%nat Hr eq_refl eq_refl Hl coarse_tiled_in_range).
Defined.

(** X13 on the coarse grid, for a loader that returns the tile 7. *)
Lemma LoadingIteration_places_front_task_witness :
  exists r this',
    Z.land 0 SYNC = 0
    /\ LoadLocality 14 (Grid.fresh 5000 13) Grid.origin 0 0 = Some r
    /\ LoadingIteration (fun _ => 7%nat) (l_manager r) = Some (this', Attached)
    /\ loading_ this' = no_tile
    /\ In 7%nat (Render this').
Proof.
  destruct coarse_LoadLocality as (r & Hr & _ & Hq & _). exists r.
  destruct (queue_ (l_manager r)) as [|task rest] eqn:Hqueue; [discriminate Hq|].
  destruct (LoadingIteration_places_front_task (Collab := Grid.coarse)
              (fun _ => 7%nat) 14
              (Grid.fresh 5000 13) Grid.origin 0 0 r task rest eq_refl Hr Hqueue)
    as (this' & node & Hit & _ & Hld & _ & _ & _ & Hrender).
  exists this'. split; [reflexivity|]. split; [exact Hr|]. split; [exact Hit|].
  split; [exact Hld|exact Hrender].
Defined.

(** X14 on the coarse grid: the tile [(13, 0, 0)] placed after the first
    call is not asked for by the second. *)
Lemma placed_tile_not_enqueued_again_witness :
  exists r this' r',
    LoadLocality 14 (Grid.fresh 5000 13) Grid.origin 0 0 = Some r
    /\ PlaceTile (l_manager r) 7%nat (mkTileId 13 0 0) = (this', Attached)
    /\ Z.land 0 SYNC = 0
    /\ LoadLocality 14 this' Grid.origin 0 0 = Some r'
    /\ forall task, In task (queue_ (l_manager r')) -> task_id task <> mkTileId 13 0 0.
Proof.
  destruct coarse_LoadLocality as (r & Hr & _ & Hq & _). exists r.
  destruct (In_queue_by_id (queue_ (l_manager r)) 0 (mkTileId 13 0 0))
    as [box Hin]; [rewrite Hq; reflexivity|].
  destruct (LoadLocality_enqueued_placeable 14 (Grid.fresh 5000 13) Grid.origin
              0 0 r _ 7%nat eq_refl Hr Hin) as [root' Hplace].
  cbn [task_id] in Hplace.
  destruct (LoadLocality_generation _ _ _ _ _ _ Hr) as (_ & _ & Hlv & _).
  destruct (coarse_LoadLocality_again (set_root (l_manager r) root') Hlv)
    as [r' Hr'].
  exists (set_root (l_manager r) root'), r'.
  split; [exact Hr|]. split; [exact Hplace|]. split; [reflexivity|].
  split; [exact Hr'|].
  exact (placed_tile_not_enqueued_again (l_manager r) _ 7%nat (mkTileId 13 0 0)
           14 Grid.origin 0 0 r' Hplace eq_refl Hr').
Defined.

(** X15 on the coarse grid, for the task of the tile [(13, 1, 1)]. *)
Lemma GarbageCollect_keeps_pending_nodes_witness :
  exists r root',
    Z.land 0 SYNC = 0
    /\ LoadLocality 14 (Grid.fresh 5000 13) Grid.origin 0 0 = Some r
    /\ PlaceTile (GarbageCollect (l_manager r)) 7%nat (mkTileId 13 1 1)
       = (set_root (GarbageCollect (l_manager r)) root', Attached)
    /\ PlaceTile (GarbageCollect (GarbageCollect (l_manager r))) 7%nat
         (mkTileId 13 1 1)
       = (GarbageCollect (GarbageCollect (l_manager r)), Deleted).
Proof.
  destruct coarse_LoadLocality as (r & Hr & _ & Hq & _). exists r.
  destruct (In_queue_by_id (queue_ (l_manager r)) 3 (mkTileId 13 1 1))
    as [box Hin]; [rewrite Hq; reflexivity|].
  destruct (GarbageCollect_keeps_pending_nodes 14 (Grid.fresh 5000 13) Grid.origin
              0 0 r _ 7%nat eq_refl Hr Hin) as [(root' & node & Hp & _) Hdrop].
  exists root'. split; [reflexivity|]. split; [exact Hr|].
  split; [exact Hp|]. apply Hdrop. cbn. lia.
Defined.

(** X16 on the coarse grid. *)
Lemma LoadLocality_idempotent_witness :
  exists r,
    Z.land 0 SYNC = 0
    /\ LoadLocality 14 (Grid.fresh 5000 13) Grid.origin 0 0 = Some r
    /\ LoadLocality 14 (l_manager r) Grid.origin 0 0 = Some r.
Proof.
  destruct coarse_LoadLocality as (r & Hr & _). exists r.
  split; [reflexivity|]. split; [exact Hr|].
  exact (LoadLocality_idempotent 14 (Grid.fresh 5000 13) Grid.origin 0 0 r
           eq_refl Hr).
Defined.

(** X17 on the coarse grid: six iterations for the six tasks. *)
Lemma LoadingRun_drains_queue_witness :
  exists r,
    Z.land 0 SYNC = 0
    /\ LoadLocality 14 (Grid.fresh 5000 13) Grid.origin 0 0 = Some r
    /\ (length (queue_ (l_manager r)) <= 6)%nat
    /\ queue_ (LoadingRun (fun _ => 7%nat) 6 (l_manager r)) = []
    /\ forall task, In task (queue_ (l_manager r)) ->
         resident (LoadingRun (fun _ => 7%nat) 6 (l_manager r)) (task_id task).
Proof.
  destruct coarse_LoadLocality as (r & Hr & _ & Hq & _). exists r.
  assert (Hlen : (length (queue_ (l_manager r)) <= 6)%nat).
  { rewrite <- (length_map task_id), Hq. cbn. lia. }
  destruct (LoadingRun_drains_queue (Collab := Grid.coarse) (fun _ => 7%nat) 6 14 (Grid.fresh 5000 13)
              Grid.origin 0 0 r eq_refl Hr Hlen) as (Hempty & _ & Hres & _).
  split; [reflexivity|]. split; [exact Hr|]. split; [exact Hlen|].
  split; [exact Hempty|exact Hres].
Defined.

(** X18 on the coarse grid. *)
Lemma LoadLocality_queue_NoDup_witness :
  exists r,
    Z.land 0 SYNC = 0
    /\ LoadLocality 14 (Grid.fresh 5000 13) Grid.origin 0 0 = Some r
    /\ NoDup (map task_id (queue_ (l_manager r))).
Proof.
  destruct coarse_LoadLocality as (r & Hr & _). exists r.
  split; [reflexivity|]. split; [exact Hr|].
  exact (LoadLocality_queue_NoDup 14 (Grid.fresh 5000 13) Grid.origin 0 0 r
           eq_refl Hr).
Defined.

(** X19 on the coarse grid: the task at the front is for the tile at the
    origin. *)
Lemma LoadLocality_front_is_closest_witness :
  exists r front rest,
    Z.land 0 SYNC = 0
    /\ LoadLocality 14 (Grid.fresh 5000 13) Grid.origin 0 0 = Some r
    /\ queue_ (l_manager r) = front :: rest
    /\ task_id front = mkTileId 13 0 0
    /\ forall task, In task (queue_ (l_manager r)) ->
         (thisdist_of Grid.origin (task_bbox front)
          <= thisdist_of Grid.origin (task_bbox task))%Q.
Proof.
  destruct coarse_LoadLocality as (r & Hr & _ & Hq & _). exists r.
  destruct (LoadLocality_front_is_closest 14 (Grid.fresh 5000 13) Grid.origin
              0 0 r eq_refl Hr) as [Hfront _].
  destruct (queue_ (l_manager r)) as [|front rest] eqn:Hqueue; [discriminate Hq|].
  exists front, rest. split; [reflexivity|]. split; [exact Hr|].
  split; [reflexivity|]. split; [now injection Hq|].
  intros task Hin. exact (Hfront front rest task eq_refl Hin).
Defined.

(** X26 on the coarse grid: the call signals, and there is a tile for the
    worker to load. *)
Lemma LoadLocality_signals_iff_wanted_witness :
  exists r id,
    well_formed (Grid.fresh 5000 13)
    /\ Z.land 0 SYNC = 0
    /\ LoadLocality 14 (Grid.fresh 5000 13) Grid.origin 0 0 = Some r
    /\ l_signalled r = true
    /\ leaf_tile (Grid.fresh 5000 13) id
    /\ reachable (Grid.fresh 5000 13) Grid.origin id.
Proof.
  destruct coarse_LoadLocality as (r & Hr & Hsig & _). exists r.
  destruct (proj1 (LoadLocality_signals_iff_wanted 14 (Grid.fresh 5000 13)
                     Grid.origin 0 0 r (Grid_fresh_well_formed 5000 13) eq_refl Hr)
              Hsig) as (id & Hleaf & Hreach & _).
  exists id. split; [apply Grid_fresh_well_formed|]. split; [reflexivity|].
  split; [exact Hr|]. split; [exact Hsig|]. split; [exact Hleaf|exact Hreach].
Defined.

(** X20 on the tree that holds the tile 7. *)
Lemma GarbageCollect_after_LoadLocality_keeps_view_witness :
  exists r n',
    LoadLocality 14 (TileManager_new Grid.tiled_sapling) Grid.origin 0 0 = Some r
    /\ Z.of_nat (length [0]) <= hires_level_ (TileManager_new Grid.tiled_sapling)
    /\ descend (root_ (GarbageCollect (l_manager r))) [0] = Some n'
    /\ tile n' = Some 7%nat.
Proof.
  destruct (coarse_LoadLocality_again (TileManager_new Grid.tiled_sapling) eq_refl)
    as [r Hr].
  assert (Hl : Z.of_nat (length [0])
               <= hires_level_ (TileManager_new Grid.tiled_sapling))
    by (cbn; lia).
  destruct (GarbageCollect_after_LoadLocality_keeps_view 14
              (TileManager_new Grid.tiled_sapling) Grid.origin 0 0 r [0] _
              Hr eq_refl Hl coarse_tiled_in_range) as (n' & Hn' & _ & Ht).
  exists r, n'. split; [exact Hr|]. split; [exact Hl|]. split; [exact Hn'|exact Ht].
Defined.

(** X21 on the coarse grid: a second call between the worker's dequeue and
    its placement. *)
Lemma loading_guard_under_interleaving_witness :
  exists r task this1 r2 root',
    Z.land 0 SYNC = 0
    /\ LoadLocality 14 (Grid.fresh 5000 13) Grid.origin 0 0 = Some r
    /\ Dequeue (l_manager r) = Some (task, this1)
    /\ LoadLocality 14 this1 Grid.origin 0 0 = Some r2
    /\ (forall task', In task' (queue_ (l_manager r2)) -> task_id task' <> task_id task)
    /\ PlaceTile (l_manager r2) 7%nat (task_id task)
       = (set_root (l_manager r2) root', Attached).
Proof.
  destruct coarse_LoadLocality as (r & Hr & _ & Hq & _). exists r.
  destruct (LoadLocality_generation _ _ _ _ _ _ Hr) as (_ & _ & Hlv & _).
  destruct (queue_ (l_manager r)) as [|task rest] eqn:Hqueue; [discriminate Hq|].
  assert (Hdq : exists this1, Dequeue (l_manager r) = Some (task, this1)
                              /\ hires_level_ this1 = 13).
  { unfold Dequeue. rewrite Hqueue. eexists. split; [reflexivity|exact Hlv]. }
  destruct Hdq as (this1 & Hdq & Hlv1).
  destruct (coarse_LoadLocality_again this1 Hlv1) as [r2 Hr2].
  destruct (loading_guard_under_interleaving 14 (Grid.fresh 5000 13) Grid.origin
              0 0 r task this1 14 Grid.origin 0 0 r2 7%nat
              eq_refl Hr Hdq eq_refl Hr2) as (Hguard & root' & node & Hp & _).
  exists task, this1, r2, root'.
  split; [reflexivity|]. split; [exact Hr|]. split; [exact Hdq|].
  split; [exact Hr2|]. split; [exact Hguard|exact Hp].
Defined.

(** X22 on the coarse grid: the first child of the root is new. *)
Lemma LoadLocality_allocates_down_to_hires_level_witness :
  exists r node',
    0 <= hires_level_ (Grid.fresh 5000 13)
    /\ LoadLocality 14 (Grid.fresh 5000 13) Grid.origin 0 0 = Some r
    /\ descend (root_ (l_manager r)) [0] = Some node'
    /\ descend (root_ (Grid.fresh 5000 13)) [0] = None
    /\ Z.of_nat (length [0]) <= hires_level_ (Grid.fresh 5000 13)
    /\ tile node' = None.
Proof.
  assert (H0 : 0 <= hires_level_ (Grid.fresh 5000 13))
    by (intros H; discriminate H).
  destruct coarse_LoadLocality as (r & Hr & _ & _ & Hg). exists r.
  destruct (descend (root_ (l_manager r)) [0]) as [node'|] eqn:Hn;
    [|discriminate Hg].
  exists node'.
  destruct (LoadLocality_allocates_down_to_hires_level 14 (Grid.fresh 5000 13)
              Grid.origin 0 0 r [0] node' H0 Hr Hn eq_refl) as (Hlen & Ht).
  split; [exact H0|]. split; [exact Hr|]. split; [reflexivity|].
  split; [reflexivity|]. split; [exact Hlen|exact Ht].
Defined.

(** X23 on the node with one child: the tile 7 placed at [(1, 0, 0)] is
    the one tile the tree holds afterwards. *)
Lemma PlaceTile_attaches_or_deletes_witness :
  exists this',
    0 <= id_level (mkTileId 1 0 0)
    /\ PlaceTile (TileManager_new Grid.sapling) 7%nat (mkTileId 1 0 0)
       = (this', Attached)
    /\ RecDestroyTiles (root_ this') = [7%nat].
Proof.
  assert (H0 : 0 <= id_level (mkTileId 1 0 0)) by (intros H; discriminate H).
  assert (Ho : snd (PlaceTile (TileManager_new Grid.sapling) 7%nat (mkTileId 1 0 0))
               = Attached) by reflexivity.
  assert (Hnil : RecDestroyTiles (root_ (TileManager_new Grid.sapling)) = [])
    by reflexivity.
  pose proof (PlaceTile_attaches_or_deletes (TileManager_new Grid.sapling) 7%nat
                (mkTileId 1 0 0) H0) as H.
  destruct (PlaceTile (TileManager_new Grid.sapling) 7%nat (mkTileId 1 0 0))
    as [this' o].
  cbn [snd] in Ho. subst o. destruct H as (_ & l1 & l2 & E & E').
  rewrite Hnil in E. symmetry in E. apply app_eq_nil in E. destruct E as [-> ->].
  exists this'. split; [exact H0|]. split; [reflexivity|exact E'].
Defined.

(** X24 on the coarse grid: after a collection, a call and a collection on
    the fresh manager the first child of the root, which is in view from
    the origin, is there. *)
Lemma collect_load_collect_keeps_view_witness :
  exists r m,
    LoadLocality 14 (GarbageCollect (Grid.fresh 5000 13)) Grid.origin 0 0 = Some r
    /\ descend (root_ (GarbageCollect (l_manager r))) [0] = Some m.
Proof.
  assert (Hv : in_view (GarbageCollect (Grid.fresh 5000 13)) Grid.origin
                 (Some (root_ (GarbageCollect (Grid.fresh 5000 13))))
                 (mkTileId 0 0 0) [0]).
  { cbn [in_view]. split; [vm_compute; intros H; discriminate H|].
    split; [intros H; discriminate H|]. split; [lia|].
    split; [vm_compute; intros H; discriminate H|exact I]. }
  destruct (coarse_LoadLocality_again (GarbageCollect (Grid.fresh 5000 13)) eq_refl)
    as [r Hr].
  destruct (proj2 (collect_load_collect_keeps_view (Grid.fresh 5000 13) 14
                     Grid.origin 0 0 r 0 [] Hr) Hv) as [m Hm].
  exists r, m. split; [exact Hr|exact Hm].
Defined.

End Coarse_grid.

Section Fine_grid.
#[local] Existing Instance Grid.fine.

(** C1, as stated, fails: the leaf tile [(13, 10, 10)] is in range with all
    its ancestors, has no node and so no tile, and is not being loaded, yet
    the call leaves it out of the queue, which holds 100 tasks. *)
Lemma LoadLocality_queue_counterexample :
  option_map l_signalled (LoadLocality 14 (Grid.fresh 500 13) Grid.origin 0 0)
  = Some true
  /\ length (Grid.queue_ids 500 13) = 100%nat
  /\ existsb (TileId_eqb (mkTileId 13 10 10)) (Grid.queue_ids 500 13) = false
  /\ id_level (mkTileId 13 10 10) = hires_level_ (Grid.fresh 500 13)
  /\ forallb (fun k => Qle_bool
                (thisdist_of Grid.origin
                   (tile_box (Grid.fresh 500 13) (ancestor (mkTileId 13 10 10) k)))
                (hires_range2 (Grid.fresh 500 13)))
       [0; 1; 2; 3; 4; 5; 6; 7; 8; 9; 10; 11; 12; 13] = true
  /\ descend (root_ (Grid.fresh 500 13)) (place_path 13 10 10) = None
  /\ loading_ (Grid.fresh 500 13) = no_tile.
Proof.
  split; [vm_compute; reflexivity|].
  split; [vm_compute; reflexivity|].
  split; [vm_compute; reflexivity|].
  split; [reflexivity|].
  split; [vm_compute; reflexivity|].
  split; reflexivity.
Qed.

(** C3, as stated, fails.  The claim has a node created at the visit of an
    absent position (the spec creates it before the range check) and has it
    exist afterwards, unmarked.  After the visit of the absent, out-of-range
    position [(1, 1, 1)] the pointer is still [NULL]: there is no node. *)
Lemma RecLoadTiles_out_of_range_counterexample :
  Qgtb (thisdist_of Grid.origin (ForGeoTile 1 1 1)) (hires_range2 (Grid.fresh 500 13))
  = true
  /\ option_map w_node
       (RecLoadTiles 14 (Grid.fresh 500 13) (RecLoadTilesInfo_new Grid.origin 0) []
          None 1 1 1)
     = Some None.
Proof. split; reflexivity. Qed.

(** C3, amended, at the same position: the call returns what it was
    given. *)
Lemma RecLoadTiles_out_of_range_allocates_nothing_witness :
  (hires_range2 (Grid.fresh 500 13)
   < thisdist_of Grid.origin (box_of None (mkTileId 1 1 1)))%Q
  /\ RecLoadTiles 14 (Grid.fresh 500 13) (RecLoadTilesInfo_new Grid.origin 0) []
       None 1 1 1
     = Some (mkWalk (RecLoadTilesInfo_new Grid.origin 0) [] None).
Proof.
  assert (H : (hires_range2 (Grid.fresh 500 13)
               < thisdist_of Grid.origin (box_of None (mkTileId 1 1 1)))%Q)
    by (vm_compute; reflexivity).
  split; [exact H|].
  exact (RecLoadTiles_out_of_range_allocates_nothing 13 (Grid.fresh 500 13)
           (RecLoadTilesInfo_new Grid.origin 0) [] None 1 1 1 H).
Defined.

(** C2, as stated, fails: the first collection after a walk keeps all 471
    nodes, the second one leaves only the root. *)
Lemma GarbageCollect_twice_counterexample :
  node_count (root_ (GarbageCollect (Grid.loaded 500 13))) = 471%nat
  /\ node_count (root_ (GarbageCollect (GarbageCollect (Grid.loaded 500 13)))) = 1%nat.
Proof. split; vm_compute; reflexivity. Qed.

(** The call for the leaf tile [(13, 10, 10)] within the walk of
    [LoadLocality] on the fresh manager, for a viewer at the origin: it finds
    100 tasks in the queue, and its tile is in range and not closer than the
    closest. *)
Lemma fine_call_10_10 :
  option_map
    (fun v => (v_id v, tile_ptr (v_pnode v), length (v_queue v),
               Qle_bool (thisdist_of Grid.origin (box_of (v_pnode v) (v_id v)))
                        (hires_range2 (Grid.fresh 500 13)),
               Qle_bool (closest_distance (v_info v))
                        (thisdist_of Grid.origin (box_of (v_pnode v) (v_id v)))))
    (call_at (set_queue (Grid.fresh 500 13) [])
       (mkVisit 14 (RecLoadTilesInfo_new Grid.origin 0) []
          (Some (root_ (Grid.fresh 500 13))) (mkTileId 0 0 0))
       (place_path 13 10 10))
  = Some (mkTileId 13 10 10, None, 100%nat, true, true).
Proof. vm_compute. reflexivity. Qed.

(** C6 on the fine grid: the walk of [LoadLocality] for a viewer at the
    origin reaches the leaf tile [(13, 10, 10)] with 100 tasks enqueued; the
    tile is in range and not closer than the closest, and it is dropped. *)
Lemma back_admission_capped_at_100_witness :
  exists v,
    (Z.to_nat (hires_level_ (set_queue (Grid.fresh 500 13) [])) < 14)%nat
    /\ call_at (set_queue (Grid.fresh 500 13) [])
         (mkVisit 14 (RecLoadTilesInfo_new Grid.origin 0) []
            (Some (root_ (Grid.fresh 500 13))) (mkTileId 0 0 0))
         (place_path 13 10 10) = Some v
    /\ v_id v = mkTileId 13 10 10
    /\ (thisdist_of Grid.origin (box_of (v_pnode v) (v_id v))
        <= hires_range2 (set_queue (Grid.fresh 500 13) []))%Q
    /\ tile_ptr (v_pnode v) = None
    /\ (closest_distance (v_info v)
        <= thisdist_of Grid.origin (box_of (v_pnode v) (v_id v)))%Q
    /\ length (v_queue v) = 100%nat
    /\ returned (set_queue (Grid.fresh 500 13) []) v
       = Some (mkWalk (v_info v) (v_queue v)
                 (Some (visited_node (set_queue (Grid.fresh 500 13) [])
                          (v_pnode v) (v_id v)))).
Proof.
  pose proof fine_call_10_10 as H.
  destruct (call_at _ _ _) as [v|] eqn:Hv; [|discriminate H].
  cbn [option_map] in H. injection H as Hid Ht Hlen Hd Hc.
  apply Qle_bool_iff in Hd, Hc.
  exists v.
  assert (Hfuel : (Z.to_nat (hires_level_ (set_queue (Grid.fresh 500 13) [])) < 14)%nat)
    by (cbn; lia).
  assert (Hl : id_level (v_id v) = hires_level_ (set_queue (Grid.fresh 500 13) []))
    by exact (f_equal id_level Hid).
  assert (Hld : TileId_eqb (loading_ (set_queue (Grid.fresh 500 13) [])) (v_id v) = false)
    by exact (f_equal (TileId_eqb (loading_ (set_queue (Grid.fresh 500 13) []))) Hid).
  destruct (back_admission_capped_at_100 14 (Grid.fresh 500 13) Grid.origin 0 0
              (place_path 13 10 10) v Hfuel Hv Hl Hd Ht Hld)
    as (_ & _ & Hdrop & _).
  split; [exact Hfuel|]. split; [reflexivity|]. split; [exact Hid|].
  split; [exact Hd|]. split; [exact Ht|]. split; [exact Hc|]. split; [exact Hlen|].
  apply Hdrop; [exact Hc|].
  refine (eq_ind_r (fun n => 100 <= Z.of_nat n - 0) _ Hlen). cbn. lia.
Defined.

(** X4 on the fine grid, for the viewer [Grid.inner]: the queue holds
    128 tasks, and the task at the front is strictly closer than the 127
    behind it. *)
Lemma LoadLocality_queue_sorted_beyond_100_witness :
  exists r a rest,
    Z.land 0 SYNC = 0
    /\ LoadLocality 14 (Grid.fresh 500 13) Grid.inner 0 0 = Some r
    /\ queue_ (l_manager r) = [] ++ a :: rest
    /\ length rest = 127%nat
    /\ forall b, In b rest ->
         (thisdist_of Grid.inner (task_bbox a)
          < thisdist_of Grid.inner (task_bbox b))%Q.
Proof.
  assert (H : option_map (fun r => length (queue_ (l_manager r)))
                (LoadLocality 14 (Grid.fresh 500 13) Grid.inner 0 0)
              = Some 128%nat) by (vm_compute; reflexivity).
  destruct (LoadLocality 14 (Grid.fresh 500 13) Grid.inner 0 0)
    as [r|] eqn:Hr; [|discriminate H].
  cbn [option_map] in H. injection H as Hlen.
  destruct (queue_ (l_manager r)) as [|a rest] eqn:Hq; [discriminate Hlen|].
  cbn [length] in Hlen. injection Hlen as Hlen.
  exists r, a, rest. split; [reflexivity|]. split; [reflexivity|].
  split; [exact Hq|]. split; [exact Hlen|].
  apply (LoadLocality_queue_sorted_beyond_100 14 (Grid.fresh 500 13)
           Grid.inner 0 0 r [] a rest eq_refl Hr Hq).
  rewrite Hlen. lia.
Defined.

End Fine_grid.

Section Unit_grid.
#[local] Existing Instance Grid.unit_grid.

(** C5 on the unit grid: the leaf tiles [(13, 1, 3)] and [(13, 5, 5)] are
    at squared distances 10 and 50 from the origin. *)
Lemma admission_order_front_then_back_witness :
  (thisdist_of Grid.origin (box_of None (mkTileId 13 1 3)) == 10)%Q
  /\ (thisdist_of Grid.origin (box_of None (mkTileId 13 5 5)) == 50)%Q
  /\ (50 <= hires_range2 (Grid.fresh 1 13))%Q
  /\ exists wA wB,
       walk_at 1 (Grid.fresh 1 13) (RecLoadTilesInfo_new Grid.origin 0) []
         None (mkTileId 13 1 3) = Some wA
       /\ walk_at 1 (Grid.fresh 1 13) (w_info wA) (w_queue wA)
            None (mkTileId 13 5 5) = Some wB
       /\ map task_id (w_queue wB) = [mkTileId 13 1 3; mkTileId 13 5 5].
Proof.
  assert (Ha : (thisdist_of Grid.origin (box_of None (mkTileId 13 1 3)) == 10)%Q)
    by (vm_compute; reflexivity).
  assert (Hb : (thisdist_of Grid.origin (box_of None (mkTileId 13 5 5)) == 50)%Q)
    by (vm_compute; reflexivity).
  assert (Hr : (50 <= hires_range2 (Grid.fresh 1 13))%Q)
    by (vm_compute; intros H; discriminate H).
  split; [exact Ha|]. split; [exact Hb|]. split; [exact Hr|].
  destruct (admission_order_front_then_back 0 (Grid.fresh 1 13) Grid.origin 0
              None None 1 3 5 5 Ha Hb Hr eq_refl eq_refl eq_refl eq_refl)
    as (wA & wB & HA & _ & _ & HB & Hq & _).
  exists wA, wB. split; [exact HA|]. split; [exact HB|].
  rewrite Hq. reflexivity.
Defined.

End Unit_grid.
